(** * jedi/parser/tokenize.py: the error-tolerant tokenizer

    A shallow embedding of [Token], the lexical grammar tables, [source_tokens]
    and [generate_tokens], followed by the properties of the tokenizer.

    Text is [list ascii]: a character is a code point below 256, and [\w],
    compiled with [re.UNICODE], is the class of the alphanumeric characters
    and the underscore among them (the ASCII ones and 71 of the code points
    from 128 on).  Line numbers are [Z] (the line offset is an arbitrary
    integer), columns inside a line are [nat].

    The patterns are kept as syntax trees and matched by a backtracking
    matcher with the semantics of [re]: ordered alternatives, greedy
    repetition.  The generator is a transition system: one transition is one
    pass of the loop over lines or of the loop over a line, with the tokens it
    yields; [generate_tokens] runs the transitions with a fuel computed from
    the input, and a Python exception is an outcome of its own. *)

From Stdlib Require Import Ascii String Bool Arith ZArith Lia List Sorted.
Import ListNotations.

Set Implicit Arguments.
Local Open Scope list_scope.

(** ** Text helpers *)

Definition text := list ascii.

Definition str (s : string) : text := list_ascii_of_string s.

Definition nl : ascii := ascii_of_nat 10.        (* '\n' *)
Definition cr : ascii := ascii_of_nat 13.        (* '\r' *)
Definition ff : ascii := ascii_of_nat 12.        (* '\f' *)
Definition tab : ascii := ascii_of_nat 9.        (* '\t' *)
Definition bsl : ascii := ascii_of_nat 92.       (* backslash *)
Definition squote : ascii := ascii_of_nat 39.    (* ' *)
Definition dquote : ascii := ascii_of_nat 34.    (* double quote *)

(** [c in s] for a one-character string [c]. *)
Definition char_in (c : ascii) (s : text) : bool :=
  existsb (Ascii.eqb c) s.

Fixpoint text_eqb (a b : text) : bool :=
  match a, b with
  | [], [] => true
  | x :: a', y :: b' => Ascii.eqb x y && text_eqb a' b'
  | _, _ => false
  end.

Fixpoint startswith (s p : text) : bool :=
  match p, s with
  | [], _ => true
  | x :: p', y :: s' => Ascii.eqb x y && startswith s' p'
  | _ :: _, [] => false
  end.

(** [needle in hay] for strings: substring test. *)
Fixpoint str_in (needle hay : text) : bool :=
  startswith hay needle ||
  match hay with
  | [] => false
  | _ :: hay' => str_in needle hay'
  end.

(** Membership in a tuple or among the keys of a dict. *)
Definition mem (t : text) (keys : list text) : bool :=
  existsb (text_eqb t) keys.

(** [s[a:b]] for [0 <= a], [0 <= b]. *)
Definition slice (s : text) (a b : nat) : text :=
  firstn (b - a) (skipn a s).

(** ** Regular expressions, with the backtracking semantics of [re] *)

Inductive regex : Type :=
| Eps : regex
| Chr : (ascii -> bool) -> regex          (* a literal, a class, or [.] *)
| Cat : regex -> regex -> regex
| Alt : regex -> regex -> regex           (* ordered choice [a|b] *)
| Star : regex -> regex                   (* greedy [a*] *)
| NotAhead : regex -> regex.              (* [(?!a)] *)

(** [exec r s k] matches [r] at the front of [s] and hands the unread rest to
    the continuation [k]; a [None] from [k] makes the matcher backtrack, as
    [re] does.  A star iterates its body while the body consumes text; every
    starred body in the grammar below consumes at least one character. *)
Fixpoint exec (A : Type) (r : regex) (s : text) (k : text -> option A)
  {struct r} : option A :=
  match r with
  | Eps => k s
  | Chr p =>
      match s with
      | c :: s' => if p c then k s' else None
      | [] => None
      end
  | Cat a b => exec a s (fun s' => exec b s' k)
  | Alt a b =>
      match exec a s k with
      | Some x => Some x
      | None => exec b s k
      end
  | Star a =>
      (fix loop (n : nat) (s : text) {struct n} : option A :=
         match n with
         | O => k s
         | S n' =>
             match exec a s (fun s' =>
                     if length s' <? length s then loop n' s' else None) with
             | Some x => Some x
             | None => k s
             end
         end) (length s) s
  | NotAhead a =>
      match exec a s (fun _ => Some tt) with
      | Some _ => None
      | None => k s
      end
  end.

(** [prog.match(line, pos).end(0)] *)
Definition match_end (r : regex) (line : text) (pos : nat) : option nat :=
  match exec r (skipn pos line) (fun rest => Some rest) with
  | Some rest => Some (length line - length rest)
  | None => None
  end.

(** Pattern combinators, one per piece of [re] syntax used by the tables. *)
Definition lit (c : ascii) : regex := Chr (Ascii.eqb c).
Definition set (s : string) : regex := Chr (fun c => char_in c (str s)).
Definition cls (s : text) : regex := Chr (fun c => char_in c s).
Definition ncls (s : text) : regex := Chr (fun c => negb (char_in c s)).
Definition dot : regex := Chr (fun c => negb (Ascii.eqb c nl)).
Definition Opt (r : regex) : regex := Alt r Eps.
Definition Plus (r : regex) : regex := Cat r (Star r).

Fixpoint seq (rs : list regex) : regex :=
  match rs with
  | [] => Eps
  | [r] => r
  | r :: rs' => Cat r (seq rs')
  end.

Definition word (s : string) : regex := seq (map lit (str s)).

(** [group]: the alternation of its choices, in order. *)
Fixpoint group (choices : list regex) : regex :=
  match choices with
  | [] => Eps
  | [r] => r
  | r :: rs => Alt r (group rs)
  end.

(** [maybe]: an optional [group]. *)
Definition maybe (choices : list regex) : regex := Opt (group choices).

Definition is_digit (c : ascii) : bool := char_in c (str "0123456789").

(** The code points from 128 to 255 that are alphanumeric: the letters
    (170, 181, 186, 192 to 214, 216 to 246, 248 to 255) and the numeric
    characters (178, 179, 185, 188, 189, 190). *)
Definition latin1_alnum (c : ascii) : bool :=
  let n := N_of_ascii c in
  ((n =? 170) || (n =? 181) || (n =? 186)
   || ((192 <=? n) && (n <=? 214))
   || ((216 <=? n) && (n <=? 246))
   || ((248 <=? n) && (n <=? 255))
   || (n =? 178) || (n =? 179) || (n =? 185)
   || (n =? 188) || (n =? 189) || (n =? 190))%N.

(** [\w] as compiled with [re.UNICODE]: alphanumeric or the underscore. *)
Definition is_word (c : ascii) : bool :=
  char_in c (str "abcdefghijklmnopqrstuvwxyzABCDEFGHIJKLMNOPQRSTUVWXYZ0123456789_")
  || latin1_alnum c.

Definition digit : regex := Chr is_digit.

(** ** The lexical grammar tables *)

Definition whitespace : regex := Star (cls [" "%char; ff; tab]).
Definition comment : regex := Cat (lit "#") (Star (ncls [cr; nl])).
Definition name : regex := Plus (Chr is_word).

Definition hex_number : regex :=
  seq [lit "0"; set "xX"; Plus (set "0123456789abcdefABCDEF")].
Definition bin_number : regex := seq [lit "0"; set "bB"; Plus (set "01")].
Definition oct_number : regex := seq [lit "0"; set "oO"; Plus (set "01234567")].
Definition dec_number : regex :=
  Alt (Plus (lit "0")) (Cat (set "123456789") (Star digit)).
Definition int_number : regex :=
  group [hex_number; bin_number; oct_number; dec_number].
Definition exponent : regex := seq [set "eE"; Opt (set "-+"); Plus digit].
Definition point_float : regex :=
  Cat (group [seq [Plus digit; lit "."; Star digit]; Cat (lit ".") (Plus digit)])
      (maybe [exponent]).
Definition Expfloat : regex := Cat (Plus digit) exponent.
Definition float_number : regex := group [point_float; Expfloat].
Definition imag_number : regex :=
  group [Cat (Plus digit) (set "jJ"); Cat float_number (set "jJ")].
Definition number : regex := group [imag_number; float_number; int_number].

(** Tail end of ' string. *)
Definition single : regex :=
  seq [Star (ncls [squote; bsl]);
       Star (seq [lit bsl; dot; Star (ncls [squote; bsl])]);
       lit squote].
(** Tail end of a double-quoted string. *)
Definition double : regex :=
  seq [Star (ncls [dquote; bsl]);
       Star (seq [lit bsl; dot; Star (ncls [dquote; bsl])]);
       lit dquote].
(** Tail end of ''' string. *)
Definition single3 : regex :=
  seq [Star (ncls [squote; bsl]);
       Star (Cat (Alt (Cat (lit bsl) dot)
                      (Cat (lit squote) (NotAhead (Cat (lit squote) (lit squote)))))
                 (Star (ncls [squote; bsl])));
       lit squote; lit squote; lit squote].
(** Tail end of a triple-double-quoted string. *)
Definition double3 : regex :=
  seq [Star (ncls [dquote; bsl]);
       Star (Cat (Alt (Cat (lit bsl) dot)
                      (Cat (lit dquote) (NotAhead (Cat (lit dquote) (lit dquote)))))
                 (Star (ncls [dquote; bsl])));
       lit dquote; lit dquote; lit dquote].
Definition triple : regex :=
  group [seq [Opt (set "bB"); Opt (set "rR"); lit squote; lit squote; lit squote];
         seq [Opt (set "bB"); Opt (set "rR"); lit dquote; lit dquote; lit dquote]].

Definition operator : regex :=
  group [Cat (word "**") (Opt (lit "="));
         Cat (word ">>") (Opt (lit "="));
         Cat (word "<<") (Opt (lit "="));
         word "!=";
         Cat (word "//") (Opt (lit "="));
         word "->";
         Cat (set "+-*/%&|^=<>") (Opt (lit "="));
         lit "~"].

Definition bracket : regex := set "][(){}".
Definition line_end : regex := Cat (Opt (lit cr)) (lit nl).    (* [\r?\n] *)
Definition special : regex := group [line_end; word "..."; set ":;.,@"].
Definition funny : regex := group [operator; bracket; special].

Definition backslash_nl : regex := Cat (lit bsl) line_end.     (* [\\\r?\n] *)

(** First (or only) line of ' or double-quoted string. *)
Definition cont_str : regex :=
  group [seq [Opt (set "bBuU"); Opt (set "rR"); lit squote;
              Star (ncls [nl; squote; bsl]);
              Star (seq [lit bsl; dot; Star (ncls [nl; squote; bsl])]);
              group [lit squote; backslash_nl]];
         seq [Opt (set "bBuU"); Opt (set "rR"); lit dquote;
              Star (ncls [nl; dquote; bsl]);
              Star (seq [lit bsl; dot; Star (ncls [nl; dquote; bsl])]);
              group [lit dquote; backslash_nl]]].
Definition pseudo_extras : regex := group [backslash_nl; comment; triple].

(** [pseudo_token = group(whitespace) + group(pseudo_extras, number, funny,
    cont_str, name)]: the two capturing groups the tokenizer reads. *)
Definition pseudo_group1 : regex := whitespace.
Definition pseudo_group2 : regex :=
  group [pseudo_extras; number; funny; cont_str; name].
Definition pseudo_token : regex := Cat pseudo_group1 pseudo_group2.

(** The match object of [pseudoprog.match(line, pos)], reduced to what the
    tokenizer reads from it: [group(1)] and [span(2)]. *)
Record PseudoMatch : Type := mkPseudoMatch {
  group1 : text;
  span2 : nat * nat
}.

Definition pseudoprog_match (line : text) (pos : nat) : option PseudoMatch :=
  let s := skipn pos line in
  match exec pseudo_group1 s (fun s1 =>
          exec pseudo_group2 s1 (fun s2 => Some (s1, s2))) with
  | Some (s1, s2) =>
      let start := length line - length s1 in
      Some (mkPseudoMatch (slice line pos start)
                          (start, length line - length s2))
  | None => None
  end.

Definition dict_get (V : Type) (d : list (text * V)) (key : text) : option V :=
  match find (fun kv => text_eqb key (fst kv)) d with
  | Some kv => Some (snd kv)
  | None => None
  end.

Definition q3 (p : string) : text := str p ++ [squote; squote; squote].
Definition d3 (p : string) : text := str p ++ [dquote; dquote; dquote].
Definition q1 (p : string) : text := str p ++ [squote].
Definition d1 (p : string) : text := str p ++ [dquote].

(** A value [None] is the Python [None] stored under the key. *)
Definition endprogs : list (text * option regex) :=
  [ (q1 "", Some single); (d1 "", Some double);
    (q3 "", Some single3); (d3 "", Some double3);
    (q3 "r", Some single3); (d3 "r", Some double3);
    (q3 "b", Some single3); (d3 "b", Some double3);
    (q3 "u", Some single3); (d3 "u", Some double3);
    (q3 "br", Some single3); (d3 "br", Some double3);
    (q3 "R", Some single3); (d3 "R", Some double3);
    (q3 "B", Some single3); (d3 "B", Some double3);
    (q3 "U", Some single3); (d3 "U", Some double3);
    (q3 "bR", Some single3); (d3 "bR", Some double3);
    (q3 "Br", Some single3); (d3 "Br", Some double3);
    (q3 "BR", Some single3); (d3 "BR", Some double3);
    (str "r", None); (str "R", None); (str "b", None); (str "B", None) ].

(** Keys of [triple_quoted]. *)
Definition triple_quoted : list text :=
  [ q3 ""; d3 "";
    q3 "r"; d3 "r"; q3 "R"; d3 "R";
    q3 "b"; d3 "b"; q3 "B"; d3 "B";
    q3 "u"; d3 "u"; q3 "U"; d3 "U";
    q3 "br"; d3 "br"; q3 "Br"; d3 "Br";
    q3 "bR"; d3 "bR"; q3 "BR"; d3 "BR" ].

(** Keys of [single_quoted]; the source spells one key [u] followed by two
    double quotes. *)
Definition single_quoted : list text :=
  [ q1 ""; d1 "";
    q1 "r"; d1 "r"; q1 "R"; d1 "R";
    q1 "b"; d1 "b"; q1 "B"; d1 "B";
    q1 "u"; str "u" ++ [dquote; dquote]; q1 "U"; d1 "U";
    q1 "br"; d1 "br"; q1 "Br"; d1 "Br";
    q1 "bR"; d1 "bR"; q1 "BR"; d1 "BR" ].

Definition ALWAYS_BREAK_TOKEN : list text :=
  map str [";"; "import"; "from"; "class"; "def"; "try"; "except";
           "finally"; "while"; "return"]%string.

Definition namechars : text :=
  str "abcdefghijklmnopqrstuvwxyzABCDEFGHIJKLMNOPQRSTUVWXYZ_".
Definition numchars : text := str "0123456789".


(** ** Outcomes of fallible code *)

Inductive Exn : Type :=
| IndexError | KeyError | AttributeError | TypeError | AssertionError
| UnboundLocalError.

(** [Raise e]: the Python code raises; [Timeout]: the model ran out of the
    fuel that bounds its loops. *)
Inductive Result (A : Type) : Type :=
| Ok : A -> Result A
| Raise : Exn -> Result A
| Timeout : Result A.

Arguments Ok {A} _.
Arguments Raise {A} _.
Arguments Timeout {A}.

Definition bind (A B : Type) (m : Result A) (f : A -> Result B) : Result B :=
  match m with
  | Ok a => f a
  | Raise e => Raise e
  | Timeout => Timeout
  end.

Notation "x <- m ;; k" := (bind m (fun x => k))
  (at level 61, m at next level, right associativity).
Notation "' p <- m ;; k" := (bind m (fun x => let p := x in k))
  (at level 61, p pattern, m at next level, right associativity).

(** [o], or [e] raised when the value is missing. *)
Definition get_or (A : Type) (o : option A) (e : Exn) : Result A :=
  match o with
  | Some a => Ok a
  | None => Raise e
  end.

(** ** The token entity *)

Inductive TokenType : Type :=
| ENDMARKER | NAME | NUMBER | STRING | NEWLINE | INDENT | DEDENT | OP
| ERRORTOKEN | COMMENT.

Definition TokenType_eqb (a b : TokenType) : bool :=
  match a, b with
  | ENDMARKER, ENDMARKER | NAME, NAME | NUMBER, NUMBER | STRING, STRING
  | NEWLINE, NEWLINE | INDENT, INDENT | DEDENT, DEDENT | OP, OP
  | ERRORTOKEN, ERRORTOKEN | COMMENT, COMMENT => true
  | _, _ => false
  end.

(** [s.split(sep)] for a one-character separator. *)
Fixpoint split (sep : ascii) (s : text) : list text :=
  match s with
  | [] => [[]]
  | c :: s' =>
      if Ascii.eqb c sep then [] :: split sep s'
      else match split sep s' with
           | l :: ls => (c :: l) :: ls
           | [] => [[c]]
           end
  end.

Definition endswith (s suffix : text) : bool :=
  startswith (rev s) (rev suffix).

(** [l[-1]] *)
Definition last_item (A : Type) (l : list A) : Result A :=
  match rev l with
  | x :: _ => Ok x
  | [] => Raise IndexError
  end.

Definition len (s : text) : Z := Z.of_nat (length s).

Module Token.

Record t : Type := Make {
  type : TokenType;
  value : text;
  _start_pos_line : Z;
  _start_pos_col : Z;
  prefix : text
}.

(** [Token(type, value, start_pos, prefix)] *)
Definition new (type : TokenType) (value : text) (start_pos : Z * Z)
  (prefix : text) : t :=
  Make type value (fst start_pos) (snd start_pos) prefix.

Definition start_pos (self : t) : Z * Z :=
  (_start_pos_line self, _start_pos_col self).

(** Returns end position respecting multiline tokens. *)
Definition end_pos (self : t) : Result (Z * Z) :=
  let end_pos_line := _start_pos_line self in
  let lines := split nl (value self) in
  lines <- (if endswith (value self) [nl] then
              let lines := removelast lines in            (* lines[:-1] *)
              l <- last_item lines ;;                     (* lines[-1] += '\n' *)
              Ok (removelast lines ++ [l ++ [nl]])
            else Ok lines) ;;
  let end_pos_line := (end_pos_line + Z.of_nat (length lines) - 1)%Z in
  let end_pos_col := _start_pos_col self in
  l <- last_item lines ;;
  (* Check for multiline token *)
  if (_start_pos_line self =? end_pos_line)%Z then
    Ok (end_pos_line, (end_pos_col + len l)%Z)
  else
    Ok (end_pos_line, len l).

(** The pickled state: the five slots, in the order of [__slots__]. *)
Definition State : Type := TokenType * text * Z * Z * text.

Definition __getstate__ (self : t) : State :=
  (type self, value self, _start_pos_line self, _start_pos_col self,
   prefix self).

(** Every slot of [self] is assigned from [state], in order: [state[0]] to
    [state[4]]. *)
Definition __setstate__ (self : t) (state : State) : t :=
  let '(state0, state1, state2, state3, state4) := state in
  let self := Make state0 (value self) (_start_pos_line self)
                   (_start_pos_col self) (prefix self) in
  let self := Make (type self) state1 (_start_pos_line self)
                   (_start_pos_col self) (prefix self) in
  let self := Make (type self) (value self) state2
                   (_start_pos_col self) (prefix self) in
  let self := Make (type self) (value self) (_start_pos_line self)
                   state3 (prefix self) in
  Make (type self) (value self) (_start_pos_line self)
       (_start_pos_col self) state4.

End Token.

Abbreviation Token := Token.t.

(** ** The tokenizer *)

(** The local variables of [generate_tokens].  [indents] is kept with its top
    at the head: [indents[-1]] is the head, [append] is a cons, [pop] removes
    the head, and the sentinel is the last element.  An unbound or [None]
    variable is [None]. *)
Record Locals : Type := mkLocals {
  paren_level : Z;
  indents : list nat;
  lnum : Z;
  contstr : text;
  contline : option text;
  new_line : bool;
  prefix : text;
  contstr_start : option (Z * Z);
  endprog : option regex
}.

Definition set_paren_level (v : Z) (st : Locals) : Locals :=
  mkLocals v (indents st) (lnum st) (contstr st) (contline st) (new_line st)
           (prefix st) (contstr_start st) (endprog st).
Definition set_indents (v : list nat) (st : Locals) : Locals :=
  mkLocals (paren_level st) v (lnum st) (contstr st) (contline st) (new_line st)
           (prefix st) (contstr_start st) (endprog st).
Definition set_lnum (v : Z) (st : Locals) : Locals :=
  mkLocals (paren_level st) (indents st) v (contstr st) (contline st)
           (new_line st) (prefix st) (contstr_start st) (endprog st).
Definition set_new_line (v : bool) (st : Locals) : Locals :=
  mkLocals (paren_level st) (indents st) (lnum st) (contstr st) (contline st) v
           (prefix st) (contstr_start st) (endprog st).
Definition set_prefix (v : text) (st : Locals) : Locals :=
  mkLocals (paren_level st) (indents st) (lnum st) (contstr st) (contline st)
           (new_line st) v (contstr_start st) (endprog st).
Definition set_endprog (v : option regex) (st : Locals) : Locals :=
  mkLocals (paren_level st) (indents st) (lnum st) (contstr st) (contline st)
           (new_line st) (prefix st) (contstr_start st) v.
(** [contstr_start], [contstr] and [contline] are assigned together. *)
Definition set_cont (start : option (Z * Z)) (s : text) (l : option text)
  (st : Locals) : Locals :=
  mkLocals (paren_level st) (indents st) (lnum st) s l (new_line st)
           (prefix st) start (endprog st).

(** The initial values assigned before the loop over lines. *)
Definition initial_locals (line_offset : Z) : Locals :=
  mkLocals 0 [0] line_offset [] None false [] None None.

(** [while start < indents[-1]: yield Token(DEDENT, '', spos, ''); indents.pop()] *)
Fixpoint dedent_loop (spos : Z * Z) (start : nat) (indents : list nat)
  : Result (list Token * list nat) :=
  match indents with
  | [] => Raise IndexError
  | top :: below =>
      if start <? top then
        '(toks, indents') <- dedent_loop spos start below ;;
        Ok (Token.new DEDENT [] spos [] :: toks, indents')
      else Ok ([], indents)
  end.

(** The loop under [if token in ALWAYS_BREAK_TOKEN], which pops while the
    popped level is to the right of [start] and pushes the last one back. *)
Fixpoint break_loop (lnum : Z) (start : nat) (indents : list nat)
  : Result (list Token * list nat) :=
  match indents with
  | [] => Raise IndexError
  | indent :: below =>
      if start <? indent then
        '(toks, indents') <- break_loop lnum start below ;;
        Ok (Token.new DEDENT [] (lnum, 0%Z) [] :: toks, indents')
      else Ok ([], indent :: below)
  end.

(** [endprogs.get(key)], as a truth value: a missing key and a stored [None]
    are both falsy. *)
Definition endprogs_get (key : text) : option regex :=
  match dict_get endprogs key with
  | Some v => v
  | None => None
  end.

(** [endprogs.get(initial) or endprogs.get(token[1]) or endprogs.get(token[2])]:
    the operands to the right are evaluated only after a falsy one. *)
Definition lookup_endprog (initial : ascii) (token : text)
  : Result (option regex) :=
  match endprogs_get [initial] with
  | Some p => Ok (Some p)
  | None =>
      c1 <- get_or (nth_error token 1) IndexError ;;
      match endprogs_get [c1] with
      | Some p => Ok (Some p)
      | None =>
          c2 <- get_or (nth_error token 2) IndexError ;;
          Ok (endprogs_get [c2])
      end
  end.

(** How one pass through the body of [while pos < max] ends. *)
Inductive Ctl : Type :=
| Again (pos : nat)      (* back to the loop test with this [pos] *)
| Break.                 (* leave the loop over the line *)

(** The block under [if new_line and initial not in '\r\n#']. *)
Definition check_indent (spos : Z * Z) (start : nat) (initial : ascii)
  (st : Locals) : Result (list Token * Locals) :=
  if new_line st && negb (char_in initial [cr; nl; "#"%char]) then
    let st := set_new_line false st in
    if (paren_level st =? 0)%Z then
      top <- get_or (hd_error (indents st)) IndexError ;;
      let '(toks_in, st) :=
        if top <? start
        then ([Token.new INDENT [] spos []],
              set_indents (start :: indents st) st)
        else ([], st) in
      '(toks_de, indents') <- dedent_loop spos start (indents st) ;;
      Ok (toks_in ++ toks_de, set_indents indents' st)
    else Ok ([], st)
  else Ok ([], st).

(** One pass through the body of [while pos < max]. *)
Definition scan (line : text) (pos : nat) (st : Locals)
  : Result (list Token * Locals * Ctl) :=
  match pseudoprog_match line pos with
  | None =>                                                (* scan for tokens *)
      c <- get_or (nth_error line pos) IndexError ;;
      let txt := if char_in c [dquote; squote] then skipn pos line else [c] in
      Ok ([Token.new ERRORTOKEN txt (lnum st, Z.of_nat pos) []], st,
          Again (pos + 1))
  | Some pseudomatch =>
      let st := set_prefix (group1 pseudomatch) st in
      let '(start, pos) := span2 pseudomatch in
      let spos := (lnum st, Z.of_nat start) in
      let token := slice line start pos in
      initial <- get_or (nth_error line start) IndexError ;;
      '(toks1, st) <- check_indent spos start initial st ;;
      if char_in initial numchars ||                       (* ordinary number *)
         (Ascii.eqb initial "." && negb (text_eqb token (str "."))
          && negb (text_eqb token (str "..."))) then
        Ok (toks1 ++ [Token.new NUMBER token spos (prefix st)], st, Again pos)
      else if char_in initial [cr; nl] then
        let toks2 :=
          if negb (new_line st) && (paren_level st =? 0)%Z
          then [Token.new NEWLINE token spos (prefix st)] else [] in
        Ok (toks1 ++ toks2, set_new_line true st, Again pos)
      else if Ascii.eqb initial "#" then
        if endswith token [nl] then Raise AssertionError
        else Ok (toks1, st, Again pos)
      else if mem token triple_quoted then
        prog <- get_or (dict_get endprogs token) KeyError ;;
        let st := set_endprog prog st in
        p <- get_or prog AttributeError ;;
        match match_end p line pos with
        | Some pos =>                                      (* all on one line *)
            let token := slice line start pos in
            Ok (toks1 ++ [Token.new STRING token spos (prefix st)], st,
                Again pos)
        | None =>                                          (* multiple lines *)
            Ok (toks1,
                set_cont (Some (lnum st, Z.of_nat start)) (skipn start line)
                         (Some line) st,
                Break)
        end
      else if mem [initial] single_quoted
              || mem (firstn 2 token) single_quoted
              || mem (firstn 3 token) single_quoted then
        final <- last_item token ;;
        if Ascii.eqb final nl then                         (* continued string *)
          prog <- lookup_endprog initial token ;;
          Ok (toks1,
              set_cont (Some (lnum st, Z.of_nat start)) (skipn start line)
                       (Some line) (set_endprog prog st),
              Break)
        else                                               (* ordinary string *)
          Ok (toks1 ++ [Token.new STRING token spos (prefix st)], st, Again pos)
      else if char_in initial namechars then               (* ordinary name *)
        '(toks2, st) <-
          (if mem token ALWAYS_BREAK_TOKEN then
             let st := set_paren_level 0 st in
             '(toks, indents') <- break_loop (lnum st) start (indents st) ;;
             Ok (toks, set_indents indents' st)
           else Ok ([], st)) ;;
        Ok (toks1 ++ toks2 ++ [Token.new NAME token spos (prefix st)], st,
            Again pos)
      else if Ascii.eqb initial bsl
              && text_eqb (skipn start line) [bsl; nl] then (* continued stmt *)
        Ok (toks1, st, Again pos)
      else
        let st :=
          if str_in token (str "([{") then
            set_paren_level (paren_level st + 1) st
          else if str_in token (str ")]}") then
            set_paren_level (paren_level st - 1) st
          else st in
        Ok (toks1 ++ [Token.new OP token spos (prefix st)], st, Again pos)
  end.

(** Where the generator stands between two passes: about to call [readline],
    at the test of [while pos < max] on a line, or past its last [yield]. *)
Inductive Loc : Type :=
| AtReadline
| AtScan (line : text) (pos : nat)
| Finished.

(** [input] is what [readline] has yet to return, line by line; an exhausted
    [readline] returns the empty string. *)
Record Config : Type := mkConfig {
  locals : Locals;
  loc : Loc;
  input : list text
}.

Definition nonempty (s : text) : bool :=
  match s with
  | [] => false
  | _ :: _ => true
  end.

(** What follows [if not line:]: the pending string, the closing dedents and
    the end marker. *)
Definition finish (st : Locals) : Result (list Token) :=
  toks_err <-
    (if nonempty (contstr st) then
       start <- get_or (contstr_start st) UnboundLocalError ;;
       Ok [Token.new ERRORTOKEN (contstr st) start (prefix st)]
     else Ok []) ;;
  Ok (toks_err
      ++ map (fun _ => Token.new DEDENT [] (lnum st, 0%Z) [])
             (removelast (indents st))                     (* indents[1:] *)
      ++ [Token.new ENDMARKER [] (lnum st, 0%Z) (prefix st)]).

(** The head of the loop over lines, for a non-empty [line]. *)
Definition begin_line (line : text) (rest : list text) (st : Locals)
  : Result (list Token * Config) :=
  let st := set_lnum (lnum st + 1) st in
  if nonempty (contstr st) then                            (* continued string *)
    p <- get_or (endprog st) AttributeError ;;
    match match_end p line 0 with
    | Some pos =>
        start <- get_or (contstr_start st) UnboundLocalError ;;
        Ok ([Token.new STRING (contstr st ++ firstn pos line) start (prefix st)],
            mkConfig (set_cont (contstr_start st) [] None st)
                     (AtScan line pos) rest)
    | None =>
        cl <- get_or (contline st) TypeError ;;
        Ok ([], mkConfig (set_cont (contstr_start st) (contstr st ++ line)
                                   (Some (cl ++ line)) st)
                         AtReadline rest)
    end
  else Ok ([], mkConfig st (AtScan line 0) rest).

(** One transition of the generator, with the tokens it yields. *)
Definition step (c : Config) : Result (list Token * Config) :=
  match loc c with
  | Finished => Ok ([], c)
  | AtReadline =>
      match input c with
      | [] | [] :: _ =>
          toks <- finish (locals c) ;;
          Ok (toks, mkConfig (locals c) Finished (input c))
      | line :: rest => begin_line line rest (locals c)
      end
  | AtScan line pos =>
      if pos <? length line then
        '(toks, st, ctl) <- scan line pos (locals c) ;;
        Ok (toks, mkConfig st
                    (match ctl with
                     | Again pos' => AtScan line pos'
                     | Break => AtReadline
                     end)
                    (input c))
      else Ok ([], mkConfig (locals c) AtReadline (input c))
  end.

(** Transitions until [Finished], at most [fuel] of them. *)
Fixpoint run (fuel : nat) (c : Config) : Result (list Token) :=
  match loc c with
  | Finished => Ok []
  | _ =>
      match fuel with
      | O => Timeout
      | S fuel' =>
          '(toks, c') <- step c ;;
          rest <- run fuel' c' ;;
          Ok (toks ++ rest)
      end
  end.

(** A bound on the number of transitions: it decreases at every one. *)
Fixpoint lines_budget (lines : list text) : nat :=
  match lines with
  | [] => 1
  | l :: ls => length l + 2 + lines_budget ls
  end.

Definition budget (c : Config) : nat :=
  match loc c with
  | Finished => 0
  | AtReadline => lines_budget (input c)
  | AtScan line pos => (length line - pos) + 1 + lines_budget (input c)
  end.

Definition initial_config (lines : list text) (line_offset : Z) : Config :=
  mkConfig (initial_locals line_offset) AtReadline lines.

(** [generate_tokens(readline, line_offset)], where [lines] are the lines
    [readline] returns, in order. *)
Definition generate_tokens (lines : list text) (line_offset : Z)
  : Result (list Token) :=
  let c := initial_config lines line_offset in
  run (budget c) c.

(** The lines [StringIO(source).readline] returns: each ends after its
    ['\n'], the last one at the end of the text. *)
Fixpoint StringIO (source : text) : list text :=
  match source with
  | [] => []
  | c :: source' =>
      if Ascii.eqb c nl then [c] :: StringIO source'
      else match StringIO source' with
           | l :: ls => (c :: l) :: ls
           | [] => [[c]]
           end
  end.

(** Generate tokens from a the source code (string). *)
Definition source_tokens (source : text) (line_offset : Z)
  : Result (list Token) :=
  let source := source ++ [nl] in     (* end with \n, because the parser needs it *)
  generate_tokens (StringIO source) line_offset.

(** *** The nesting depth at each yield *)

(** Tokens yielded while the locals are [st], each with the value that
    [paren_level] has at its [yield]. *)
Definition at_depth (st : Locals) (toks : list Token) : list (Token * Z) :=
  map (fun t => (t, paren_level st)) toks.

(** [scan], with every token paired with the value of [paren_level] at its
    [yield].  The indentation check assigns nothing to [paren_level]; the
    recovery assigns 0 to it before its loop yields; a bracket changes it
    before the operator is yielded. *)
Definition scan_depths (line : text) (pos : nat) (st : Locals)
  : Result (list (Token * Z) * Locals * Ctl) :=
  match pseudoprog_match line pos with
  | None =>
      c <- get_or (nth_error line pos) IndexError ;;
      let txt := if char_in c [dquote; squote] then skipn pos line else [c] in
      Ok (at_depth st [Token.new ERRORTOKEN txt (lnum st, Z.of_nat pos) []], st,
          Again (pos + 1))
  | Some pseudomatch =>
      let st := set_prefix (group1 pseudomatch) st in
      let '(start, pos) := span2 pseudomatch in
      let spos := (lnum st, Z.of_nat start) in
      let token := slice line start pos in
      initial <- get_or (nth_error line start) IndexError ;;
      '(toks1, st) <- check_indent spos start initial st ;;
      let seen1 := at_depth st toks1 in
      if char_in initial numchars ||
         (Ascii.eqb initial "." && negb (text_eqb token (str "."))
          && negb (text_eqb token (str "..."))) then
        Ok (seen1 ++ at_depth st [Token.new NUMBER token spos (prefix st)], st,
            Again pos)
      else if char_in initial [cr; nl] then
        let toks2 :=
          if negb (new_line st) && (paren_level st =? 0)%Z
          then [Token.new NEWLINE token spos (prefix st)] else [] in
        Ok (seen1 ++ at_depth st toks2, set_new_line true st, Again pos)
      else if Ascii.eqb initial "#" then
        if endswith token [nl] then Raise AssertionError
        else Ok (seen1, st, Again pos)
      else if mem token triple_quoted then
        prog <- get_or (dict_get endprogs token) KeyError ;;
        let st := set_endprog prog st in
        p <- get_or prog AttributeError ;;
        match match_end p line pos with
        | Some pos =>
            let token := slice line start pos in
            Ok (seen1 ++ at_depth st [Token.new STRING token spos (prefix st)],
                st, Again pos)
        | None =>
            Ok (seen1,
                set_cont (Some (lnum st, Z.of_nat start)) (skipn start line)
                         (Some line) st,
                Break)
        end
      else if mem [initial] single_quoted
              || mem (firstn 2 token) single_quoted
              || mem (firstn 3 token) single_quoted then
        final <- last_item token ;;
        if Ascii.eqb final nl then
          prog <- lookup_endprog initial token ;;
          Ok (seen1,
              set_cont (Some (lnum st, Z.of_nat start)) (skipn start line)
                       (Some line) (set_endprog prog st),
              Break)
        else
          Ok (seen1 ++ at_depth st [Token.new STRING token spos (prefix st)],
              st, Again pos)
      else if char_in initial namechars then
        '(seen2, st) <-
          (if mem token ALWAYS_BREAK_TOKEN then
             let st := set_paren_level 0 st in
             '(toks, indents') <- break_loop (lnum st) start (indents st) ;;
             Ok (at_depth st toks, set_indents indents' st)
           else Ok ([], st)) ;;
        Ok (seen1 ++ seen2
            ++ at_depth st [Token.new NAME token spos (prefix st)], st,
            Again pos)
      else if Ascii.eqb initial bsl
              && text_eqb (skipn start line) [bsl; nl] then
        Ok (seen1, st, Again pos)
      else
        let st :=
          if str_in token (str "([{") then
            set_paren_level (paren_level st + 1) st
          else if str_in token (str ")]}") then
            set_paren_level (paren_level st - 1) st
          else st in
        Ok (seen1 ++ at_depth st [Token.new OP token spos (prefix st)], st,
            Again pos)
  end.

(** [step], with every token paired with the value of [paren_level] at its
    [yield]; outside the scanning loop nothing is assigned to
    [paren_level]. *)
Definition step_depths (c : Config) : Result (list (Token * Z) * Config) :=
  match loc c with
  | AtScan line pos =>
      if pos <? length line then
        '(seen, st, ctl) <- scan_depths line pos (locals c) ;;
        Ok (seen, mkConfig st
                    (match ctl with
                     | Again pos' => AtScan line pos'
                     | Break => AtReadline
                     end)
                    (input c))
      else Ok ([], mkConfig (locals c) AtReadline (input c))
  | _ =>
      '(toks, c') <- step c ;;
      Ok (at_depth (locals c) toks, c')
  end.

Unset Implicit Arguments.

(** ** Vocabulary of the properties *)

(** *** Patterns *)

(** The texts a pattern can match, read off the pattern; a lookahead is read
    as the empty text, so this over-approximates what [exec] accepts. *)
Fixpoint matches (r : regex) (s : text) : Prop :=
  match r with
  | Eps => s = []
  | Chr p => exists c, s = [c] /\ p c = true
  | Cat a b => exists s1 s2, s = s1 ++ s2 /\ matches a s1 /\ matches b s2
  | Alt a b => matches a s \/ matches b s
  | Star a => exists ss, s = concat ss /\ Forall (matches a) ss
  | NotAhead _ => s = []
  end.

(** Can the pattern match the empty text / a text starting with [c]? *)
Fixpoint nullable (r : regex) : bool :=
  match r with
  | Eps => true
  | Chr _ => false
  | Cat a b => nullable a && nullable b
  | Alt a b => nullable a || nullable b
  | Star _ => true
  | NotAhead _ => true
  end.

Fixpoint firstb (r : regex) (c : ascii) : bool :=
  match r with
  | Eps => false
  | Chr p => p c
  | Cat a b => firstb a c || (nullable a && firstb b c)
  | Alt a b => firstb a c || firstb b c
  | Star a => firstb a c
  | NotAhead _ => false
  end.

(** *** Passes of the scanning loop *)

Definition dedent_at (spos : Z * Z) : Token := Token.new DEDENT [] spos [].
Definition indent_at (spos : Z * Z) : Token := Token.new INDENT [] spos [].

(** The nesting depth after a bracket token. *)
Definition adjust_paren (token : text) (st : Locals) : Locals :=
  if str_in token (str "([{") then set_paren_level (paren_level st + 1) st
  else if str_in token (str ")]}") then set_paren_level (paren_level st - 1) st
  else st.

(** The ways one pass of the scanning loop handles a matched token [c :: tok]
    that starts at column [start], is preceded by the whitespace [ws] and
    followed on its line by [rest]: the tokens it yields after the indentation
    tokens, the locals it leaves, and where the loop continues. *)
Inductive token_outcome (line : text) (start : nat) (c : ascii)
  (tok rest : text) (st : Locals) : list Token -> Locals -> Ctl -> Prop :=
| to_number :
    token_outcome line start c tok rest st
      [Token.new NUMBER (c :: tok) (lnum st, Z.of_nat start) (prefix st)]
      st (Again (start + S (length tok)))
| to_newline :
    (c :: tok = [nl] \/ c :: tok = [cr; nl]) ->
    new_line st = false -> paren_level st = 0%Z ->
    token_outcome line start c tok rest st
      [Token.new NEWLINE (c :: tok) (lnum st, Z.of_nat start) (prefix st)]
      (set_new_line true st) (Again (start + S (length tok)))
| to_newline_silent :
    (c :: tok = [nl] \/ c :: tok = [cr; nl]) ->
    (new_line st = true \/ paren_level st <> 0%Z) ->
    token_outcome line start c tok rest st
      [] (set_new_line true st) (Again (start + S (length tok)))
| to_comment :
    c = "#"%char -> Forall (fun x => char_in x [cr; nl] = false) tok ->
    token_outcome line start c tok rest st
      [] st (Again (start + S (length tok)))
| to_triple_line p m rest' :
    rest = m ++ rest' ->
    token_outcome line start c tok rest st
      [Token.new STRING ((c :: tok) ++ m) (lnum st, Z.of_nat start) (prefix st)]
      (set_endprog (Some p) st) (Again (start + S (length tok) + length m))
| to_triple_open p :
    token_outcome line start c tok rest st
      []
      (set_cont (Some (lnum st, Z.of_nat start)) ((c :: tok) ++ rest)
                (Some line) (set_endprog (Some p) st))
      Break
| to_string :
    token_outcome line start c tok rest st
      [Token.new STRING (c :: tok) (lnum st, Z.of_nat start) (prefix st)]
      st (Again (start + S (length tok)))
| to_string_open p :
    token_outcome line start c tok rest st
      []
      (set_cont (Some (lnum st, Z.of_nat start)) ((c :: tok) ++ rest)
                (Some line) (set_endprog (Some p) st))
      Break
| to_name :
    mem (c :: tok) ALWAYS_BREAK_TOKEN = false ->
    token_outcome line start c tok rest st
      [Token.new NAME (c :: tok) (lnum st, Z.of_nat start) (prefix st)]
      st (Again (start + S (length tok)))
| to_name_break n up up' :
    mem (c :: tok) ALWAYS_BREAK_TOKEN = true ->
    indents st = up ++ [0] -> n + length up' = length up ->
    token_outcome line start c tok rest st
      (repeat (dedent_at (lnum st, 0%Z)) n
       ++ [Token.new NAME (c :: tok) (lnum st, Z.of_nat start) (prefix st)])
      (set_indents (up' ++ [0]) (set_paren_level 0 st))
      (Again (start + S (length tok)))
| to_continuation :
    c :: tok = [bsl; nl] -> rest = [] ->
    token_outcome line start c tok rest st
      [] st (Again (start + S (length tok)))
| to_op :
    token_outcome line start c tok rest st
      [Token.new OP (c :: tok) (lnum st, Z.of_nat start)
                 (prefix (adjust_paren (c :: tok) st))]
      (adjust_paren (c :: tok) st) (Again (start + S (length tok))).

(** The ways one pass of the scanning loop ends. *)
Inductive scan_outcome (line : text) (pos : nat) (st : Locals)
  : list Token -> Locals -> Ctl -> Prop :=
| so_error c :
    nth_error line pos = Some c ->
    scan_outcome line pos st
      [Token.new ERRORTOKEN
         (if char_in c [dquote; squote] then skipn pos line else [c])
         (lnum st, Z.of_nat pos) []]
      st (Again (pos + 1))
| so_token ws c tok rest i n up up' b main st' ctl :
    skipn pos line = ws ++ (c :: tok) ++ rest ->
    matches whitespace ws ->
    indents st = up ++ [0] ->
    i + length up = n + length up' ->
    (new_line st = false -> i = 0 /\ n = 0 /\ up' = up /\ b = false) ->
    (b = true -> new_line st = true /\ i = 0 /\ n = 0 /\ up' = up) ->
    token_outcome line (pos + length ws) c tok rest
      (set_indents (up' ++ [0]) (set_new_line b (set_prefix ws st)))
      main st' ctl ->
    scan_outcome line pos st
      (repeat (indent_at (lnum st, Z.of_nat (pos + length ws))) i
       ++ repeat (dedent_at (lnum st, Z.of_nat (pos + length ws))) n
       ++ main)
      st' ctl.

(** *** Runs of the generator *)

(** [reaches c0 toks c]: from [c0] the generator gets to [c], having yielded
    [toks] on the way. *)
Inductive reaches (c0 : Config) : list Token -> Config -> Prop :=
| reaches_here : reaches c0 [] c0
| reaches_step toks c t c' :
    reaches c0 toks c -> loc c <> Finished -> step c = Ok (t, c') ->
    reaches c0 (toks ++ t) c'.

(** [completes c toks]: from [c] the generator runs to its end and yields
    [toks]. *)
Inductive completes : Config -> list Token -> Prop :=
| completes_done c : loc c = Finished -> completes c []
| completes_step c t c' toks :
    loc c <> Finished -> step c = Ok (t, c') -> completes c' toks ->
    completes c (t ++ toks).

(** [readline] has nothing more to return. *)
Definition exhausted (input : list text) : Prop :=
  input = [] \/ exists rest, input = [] :: rest.

Definition next_loc (line : text) (ctl : Ctl) : Loc :=
  match ctl with
  | Again pos' => AtScan line pos'
  | Break => AtReadline
  end.

(** The transitions of the generator, case by case. *)
Inductive step_outcome (c : Config) : list Token -> Config -> Prop :=
| st_finish up :
    loc c = AtReadline -> exhausted (input c) ->
    contstr (locals c) = [] -> indents (locals c) = up ++ [0] ->
    step_outcome c
      (repeat (dedent_at (lnum (locals c), 0%Z)) (length up)
       ++ [Token.new ENDMARKER [] (lnum (locals c), 0%Z) (prefix (locals c))])
      (mkConfig (locals c) Finished (input c))
| st_flush up sp :
    loc c = AtReadline -> exhausted (input c) ->
    contstr (locals c) <> [] -> indents (locals c) = up ++ [0] ->
    contstr_start (locals c) = Some sp ->
    step_outcome c
      ([Token.new ERRORTOKEN (contstr (locals c)) sp (prefix (locals c))]
       ++ repeat (dedent_at (lnum (locals c), 0%Z)) (length up)
       ++ [Token.new ENDMARKER [] (lnum (locals c), 0%Z) (prefix (locals c))])
      (mkConfig (locals c) Finished (input c))
| st_line line rest :
    loc c = AtReadline -> input c = line :: rest -> line <> [] ->
    contstr (locals c) = [] ->
    step_outcome c []
      (mkConfig (set_lnum (lnum (locals c) + 1) (locals c)) (AtScan line 0) rest)
| st_close line rest p sp m tail :
    loc c = AtReadline -> input c = line :: rest -> line <> [] ->
    contstr (locals c) <> [] ->
    endprog (locals c) = Some p -> contstr_start (locals c) = Some sp ->
    line = m ++ tail -> matches p m ->
    step_outcome c
      [Token.new STRING (contstr (locals c) ++ m) sp (prefix (locals c))]
      (mkConfig (set_cont (Some sp) [] None
                   (set_lnum (lnum (locals c) + 1) (locals c)))
                (AtScan line (length m)) rest)
| st_more line rest l :
    loc c = AtReadline -> input c = line :: rest -> line <> [] ->
    contstr (locals c) <> [] -> contline (locals c) = Some l ->
    step_outcome c []
      (mkConfig (set_cont (contstr_start (locals c))
                   (contstr (locals c) ++ line) (Some (l ++ line))
                   (set_lnum (lnum (locals c) + 1) (locals c)))
                AtReadline rest)
| st_scan line pos toks st' ctl :
    loc c = AtScan line pos -> pos < length line ->
    scan_outcome line pos (locals c) toks st' ctl ->
    step_outcome c toks (mkConfig st' (next_loc line ctl) (input c))
| st_eol line pos :
    loc c = AtScan line pos -> length line <= pos ->
    step_outcome c [] (mkConfig (locals c) AtReadline (input c)).

(** What holds of the locals between any two passes: the stack ends with its
    sentinel, a pending string has its closing pattern, its start and its
    line, and no string is pending while a line is scanned. *)
Record Inv (c : Config) : Prop := mkInv {
  inv_sentinel : exists up, indents (locals c) = up ++ [0];
  inv_cont :
    contstr (locals c) <> [] ->
    (exists p, endprog (locals c) = Some p)
    /\ (exists l, contline (locals c) = Some l)
    /\ (exists sp, contstr_start (locals c) = Some sp);
  inv_scan :
    forall line pos, loc c = AtScan line pos ->
    contstr (locals c) = [] /\ pos <= length line
}.

(** *** Positions *)

(** The number of line terminators in a text. *)
Definition count_nl (s : text) : nat :=
  length (filter (Ascii.eqb nl) s).

Fixpoint until_nl (s : text) : text :=
  match s with
  | [] => []
  | c :: s' => if Ascii.eqb c nl then [] else c :: until_nl s'
  end.

(** The text after the last line terminator (all of it when there is none). *)
Definition after_last_nl (s : text) : text :=
  rev (until_nl (rev s)).

(** The end position as the code derives it: a final line terminator belongs
    to the line it ends and opens no new one. *)
Definition derived_end (line col : Z) (v : text) : Z * Z :=
  let N := count_nl v in
  if endswith v [nl] then
    if N =? 1 then (line, (col + len v)%Z)
    else ((line + Z.of_nat N - 1)%Z, (len (after_last_nl (removelast v)) + 1)%Z)
  else
    if N =? 0 then (line, (col + len v)%Z)
    else ((line + Z.of_nat N)%Z, len (after_last_nl v)).

(** *** Token streams *)

Definition is_type (ty : TokenType) (t : Token) : bool :=
  TokenType_eqb (Token.type t) ty.

Definition count_type (ty : TokenType) (toks : list Token) : nat :=
  length (filter (is_type ty) toks).

(** The type and text of each token. *)
Definition summary (toks : list Token) : list (TokenType * text) :=
  map (fun t => (Token.type t, Token.value t)) toks.

(** The badly indented example: an indented [pass], then [class] at column 0. *)
Definition bad_indent_source : text :=
  str "  pass" ++ [nl] ++ str "class X: pass" ++ [nl].

(** *** Indentation and nesting *)

(** The indentation levels open above the sentinel; none once the closing
    dedents are out. *)
Definition open_levels (c : Config) : nat :=
  match loc c with
  | Finished => 0
  | _ => length (indents (locals c)) - 1
  end.

(** The nesting depth read off the tokens yielded so far: an opening bracket
    adds one, a closing bracket takes one off, a keyword of
    [ALWAYS_BREAK_TOKEN] resets it. *)
Definition depth_step (d : Z) (t : Token) : Z :=
  match Token.type t with
  | OP =>
      if str_in (Token.value t) (str "([{") then (d + 1)%Z
      else if str_in (Token.value t) (str ")]}") then (d - 1)%Z
      else d
  | NAME => if mem (Token.value t) ALWAYS_BREAK_TOKEN then 0%Z else d
  | _ => d
  end.

Definition depth_of (toks : list Token) : Z :=
  fold_left depth_step toks 0%Z.

(** A token that is neither an operator nor a name leaves the depth read off
    the tokens as it is. *)
Definition depth_neutral (t : Token) : Prop :=
  Token.type t <> OP /\ Token.type t <> NAME.

(** A block left open inside a bracket, then a keyword of the recovery
    heuristic at column 0. *)
Definition recovery_lines : list text :=
  [str "if x:" ++ [nl]; str "  y = (" ++ [nl]; str "def f" ++ [nl]].

(** *** Structural tokens *)

(** The characters of the [whitespace] pattern. *)
Definition is_blank (c : ascii) : bool := char_in c [" "%char; ff; tab].


(** *** The first line *)

(** A physical line: a line terminator, if any, is its last character. *)
Definition physical (line : text) : Prop :=
  forall a b, line = a ++ nl :: b -> b = [].

(** The first token of a stream is neither an [Indent] nor a [Dedent]. *)
Definition first_ok (toks : list Token) : Prop :=
  match toks with
  | [] => True
  | t :: _ => Token.type t <> INDENT /\ Token.type t <> DEDENT
  end.

(** No token has been yielded and nothing asks for an indentation check. *)
Definition pristine (st : Locals) : Prop :=
  new_line st = false /\ indents st = [0] /\ paren_level st = 0%Z.

(** Where a run stands with respect to its first line: before it, on it
    (then the fresh-line flag is down until the end of the line), past it, or
    at its end. *)
Definition first_line_phase (lines : list text) (line_offset : Z) (c : Config)
  : Prop :=
  (loc c = AtReadline /\ locals c = initial_locals line_offset
   /\ input c = lines)
  \/ (exists line pos,
        loc c = AtScan line pos
        /\ lnum (locals c) = (line_offset + 1)%Z
        /\ hd_error lines = Some line
        /\ (new_line (locals c) = false \/ length line <= pos))
  \/ ((line_offset + 1 <= lnum (locals c))%Z
      /\ forall line pos,
           loc c = AtScan line pos -> (line_offset + 2 <= lnum (locals c))%Z)
  \/ loc c = Finished.

(** No [Indent] stands on the first line. *)
Definition no_indent_on_first_line (line_offset : Z) (toks : list Token) : Prop :=
  forall t, In t toks -> Token.type t = INDENT ->
            Token._start_pos_line t <> (line_offset + 1)%Z.

(** *** The pending string *)


(** *** Round trip *)

(** The zero-width tokens. *)
Definition structural (t : Token) : bool :=
  match Token.type t with
  | INDENT | DEDENT | ENDMARKER => true
  | _ => false
  end.

(** [prefix + value] of every token but the structural ones, in order. *)
Definition joined (toks : list Token) : text :=
  flat_map (fun t => Token.prefix t ++ Token.value t)
           (filter (fun t => negb (structural t)) toks).

(** The matched texts for which the scanner yields no token: a comment, a
    line terminator (when the line is blank, continues a bracket, or follows
    a line already ended), a backslash that continues the statement. *)
Inductive silent : text -> Prop :=
| silent_comment body :
    Forall (fun x => char_in x [cr; nl] = false) body ->
    silent ("#"%char :: body)
| silent_line_end seg : seg = [nl] \/ seg = [cr; nl] -> silent seg
| silent_continuation : silent [bsl; nl].

(** [covers toks s]: the tokens account for the text [s], in order.  A
    structural token accounts for nothing, any other token for its prefix and
    value; whitespace followed by a silent text is accounted for by no token.
    An [ErrorToken] without prefix whose value starts with a quote is the one
    for a quote that opens no literal: its value is the rest of its line, it
    accounts for the quote alone, and the tokens after it account for the
    text from the character after the quote on. *)
Inductive covers : list Token -> text -> Prop :=
| covers_nil : covers [] []
| covers_structural t toks s :
    structural t = true -> covers toks s -> covers (t :: toks) s
| covers_token t toks s :
    structural t = false -> covers toks s ->
    covers (t :: toks) (Token.prefix t ++ Token.value t ++ s)
| covers_open_quote t q rest toks s :
    Token.type t = ERRORTOKEN -> Token.prefix t = [] ->
    Token.value t = q :: rest -> char_in q [dquote; squote] = true ->
    covers toks (rest ++ s) ->
    covers (t :: toks) (q :: rest ++ s)
| covers_silent ws seg toks s :
    Forall (fun c => is_blank c = true) ws -> silent seg ->
    covers toks s -> covers toks (ws ++ seg ++ s).

(** The text [readline] has yet to return. *)
Fixpoint unread (input : list text) : text :=
  match input with
  | [] => []
  | [] :: _ => []
  | l :: rest => l ++ unread rest
  end.

(** The text that the tokens still to come have to account for: the pending
    string with its prefix or the rest of the line, then the text [u] still
    to be read. *)
Definition remaining_at (st : Locals) (l : Loc) (u : text) : text :=
  match l with
  | AtReadline =>
      (if nonempty (contstr st) then prefix st ++ contstr st else []) ++ u
  | AtScan line pos => skipn pos line ++ u
  | Finished => []
  end.

Definition remaining (c : Config) : text :=
  remaining_at (locals c) (loc c) (unread (input c)).

(** *** Shapes of tokens *)

Definition blank_text (s : text) : Prop := Forall (fun c => is_blank c = true) s.

(** A token of the stream is never a [COMMENT], and it has an empty value
    exactly when it is structural. *)
Definition shaped (t : Token) : Prop :=
  Token.type t <> COMMENT
  /\ (Token.value t = [] <-> structural t = true).

(** *** Lines read and positions in them *)

(** The lines [readline] returns before it is exhausted. *)
Fixpoint lines_read (input : list text) : list text :=
  match input with
  | [] => []
  | [] :: _ => []
  | l :: rest => l :: lines_read rest
  end.

(** How the locals stand to the lines read so far: [lnum] counts them, the
    line being scanned is the last of them, and a pending string starts at a
    column [col] of one of them, after the text of the prefix, and runs to the
    end of what was read. *)
Definition reading (lines : list text) (line_offset : Z) (c : Config) : Prop :=
  exists consumed,
    lines = consumed ++ input c
    /\ Forall (fun l => l <> []) consumed
    /\ lnum (locals c) = (line_offset + Z.of_nat (length consumed))%Z
    /\ (forall line pos, loc c = AtScan line pos ->
         exists before, consumed = before ++ [line])
    /\ (contstr (locals c) <> [] ->
        exists pre l later col a,
          consumed = pre ++ l :: later
          /\ col < length l
          /\ contstr (locals c) = skipn col l ++ concat later
          /\ contstr_start (locals c)
             = Some ((line_offset + Z.of_nat (length pre) + 1)%Z, Z.of_nat col)
          /\ firstn col l = a ++ prefix (locals c)).

(** [at_column l after t]: the token [t] starts at a column of the line [l],
    right after the text of its prefix, and its value is the text from there
    on, [after] being the text that follows the line. *)
Definition at_column (l after : text) (t : Token) : Prop :=
  exists col a rest,
    Token._start_pos_col t = Z.of_nat col
    /\ col < length l
    /\ firstn col l = a ++ Token.prefix t
    /\ skipn col l ++ after = Token.value t ++ rest.

(** A token that is not structural stands where its start position says:
    lines are counted from [line_offset + 1], columns from 0. *)
Definition located (lines : list text) (line_offset : Z) (t : Token) : Prop :=
  structural t = false ->
  exists pre l post,
    lines_read lines = pre ++ l :: post
    /\ Token._start_pos_line t = (line_offset + Z.of_nat (length pre) + 1)%Z
    /\ at_column l (concat post) t.


(** *** Moving the line offset *)

Definition map_result (A B : Type) (f : A -> B) (r : Result A) : Result B :=
  match r with
  | Ok a => Ok (f a)
  | Raise e => Raise e
  | Timeout => Timeout
  end.

Arguments map_result {A B} f r.

Definition shift_pos (k : Z) (sp : Z * Z) : Z * Z := ((fst sp + k)%Z, snd sp).

(** The token [k] lines further down. *)
Definition shift_token (k : Z) (t : Token) : Token :=
  Token.Make (Token.type t) (Token.value t) (Token._start_pos_line t + k)%Z
             (Token._start_pos_col t) (Token.prefix t).

Definition shift_locals (k : Z) (st : Locals) : Locals :=
  mkLocals (paren_level st) (indents st) (lnum st + k)%Z (contstr st)
           (contline st) (new_line st) (prefix st)
           (option_map (shift_pos k) (contstr_start st)) (endprog st).

Definition shift_config (k : Z) (c : Config) : Config :=
  mkConfig (shift_locals k (locals c)) (loc c) (input c).

(** *** The lines that count *)

(** Two states of the generator that differ at most in what [readline] would
    return after it has returned the empty string. *)
Definition same_reading (c1 c2 : Config) : Prop :=
  locals c1 = locals c2 /\ loc c1 = loc c2
  /\ lines_read (input c1) = lines_read (input c2).

(** *** The stack and the depth along a run *)

(** The levels of the stack grow strictly from the sentinel to the top (the
    top is the head). *)
Definition ordered_stack (ind : list nat) : Prop :=
  StronglySorted (fun above below => below < above) ind.

(** [calm d toks]: reading [toks] from the nesting depth [d], no [NewLine]
    and no [Indent] comes while the depth is not 0. *)
Fixpoint calm (d : Z) (toks : list Token) : Prop :=
  match toks with
  | [] => True
  | t :: rest =>
      (d <> 0%Z -> Token.type t <> NEWLINE /\ Token.type t <> INDENT)
      /\ calm (depth_step d t) rest
  end.

(** [n] transitions from [c], none of them from [Finished]. *)
Fixpoint steps (n : nat) (c : Config) : option (list Token * Config) :=
  match n with
  | O => Some ([], c)
  | S n' =>
      match loc c, step c with
      | Finished, _ => None
      | _, Ok (t, c') =>
          match steps n' c' with
          | Some (toks, c'') => Some (t ++ toks, c'')
          | None => None
          end
      | _, _ => None
      end
  end.

(** *** Patterns without lookahead *)

Fixpoint plain (r : regex) : bool :=
  match r with
  | Eps | Chr _ => true
  | Cat a b | Alt a b => plain a && plain b
  | Star a => plain a
  | NotAhead _ => false
  end.

(** *** Text without error tokens *)

(** The characters that are a token, or the start of a comment, on their
    own: a word character, an operator character other than [!], a bracket,
    a separator, [#], the line terminator. *)
Definition starts_token (c : ascii) : bool :=
  is_word c || char_in c (str "+-*/%&|^=<>") || Ascii.eqb c "~"
  || char_in c (str "][(){}") || char_in c (str ":;.,@") || Ascii.eqb c "#"
  || Ascii.eqb c nl.

(** Plain text: whitespace and the characters of [starts_token]; so no quote,
    no backslash, no [!], no carriage return. *)
Definition plain_text (s : text) : Prop :=
  Forall (fun c => is_blank c || starts_token c = true) s.

(** A line of plain text: plain text, then the line terminator. *)
Definition plain_line (l : text) : Prop :=
  exists body, l = body ++ [nl] /\ plain_text body.

(** What a run on lines of plain text keeps: no error token so far, no
    string pending, and plain lines ahead and under the scanner. *)
Definition plain_run (toks : list Token) (c : Config) : Prop :=
  Forall (fun t => Token.type t <> ERRORTOKEN) toks
  /\ contstr (locals c) = []
  /\ Forall plain_line (input c)
  /\ (forall line pos, loc c = AtScan line pos -> plain_line line).

(** *** Closed strings *)

Definition is_quote (c : ascii) : bool := char_in c [squote; dquote].

(** Every match of the pattern ends with the character [q]. *)
Definition closes (p : regex) (q : ascii) : Prop :=
  forall m, matches p m -> exists body, m = body ++ [q].

(** A text that opens with a quote, after letters at most, and ends with the
    same quote. *)
Definition quoted (v : text) : Prop :=
  exists pre q mid,
    v = pre ++ q :: mid ++ [q]
    /\ is_quote q = true
    /\ Forall (fun x => is_quote x = false) pre.

(** The pending string opens with a quote, and the closing pattern that was
    looked up for it closes with the same quote. *)
Definition pending_quote (st : Locals) : Prop :=
  exists pre q rest p,
    contstr st = pre ++ q :: rest
    /\ is_quote q = true
    /\ Forall (fun x => is_quote x = false) pre
    /\ endprog st = Some p
    /\ closes p q.

(** *** Classes of tokens *)

(** The continuation that accepts the end of the text only. *)
Definition full (rest : text) : option unit :=
  match rest with
  | [] => Some tt
  | _ :: _ => None
  end.

(** Does the matcher find a match of the whole text? *)
Definition full_match (r : regex) (s : text) : bool :=
  match exec r s full with
  | Some _ => true
  | None => false
  end.

(** A text that begins with an opener of a string: a key of [triple_quoted]
    or of [single_quoted]. *)
Definition opened (s : text) : Prop :=
  exists o rest,
    s = o ++ rest
    /\ (mem o triple_quoted = true \/ mem o single_quoted = true).

(** The letter e with an acute accent, a word character outside ASCII. *)
Definition e_acute : ascii := ascii_of_nat 233.

(** A word whose first character is alphanumeric and lies outside ASCII: the
    [name] pattern matches it, and neither [namechars] nor [numchars] holds
    its first character. *)
Definition foreign_word (s : text) : Prop :=
  matches name s /\ exists c rest, s = c :: rest /\ latin1_alnum c = true.

(** The value of a token is of the kind its type says. *)
Definition classified (t : Token) : Prop :=
  match Token.type t with
  | NUMBER => matches number (Token.value t)
  | OP =>
      matches funny (Token.value t) \/ matches backslash_nl (Token.value t)
      \/ foreign_word (Token.value t)
  | NAME =>
      (exists c rest,
         Token.value t = c :: rest /\ char_in c namechars = true)
      /\ (matches name (Token.value t) \/ matches cont_str (Token.value t))
  | STRING => opened (Token.value t) /\ quoted (Token.value t)
  | ERRORTOKEN => (exists c, Token.value t = [c]) \/ opened (Token.value t)
  | _ => True
  end.

(** *** Fresh lines *)

(** A stream that ends with a [NewLine], error tokens aside. *)
Definition after_newline (toks : list Token) : Prop :=
  exists before n errs,
    toks = before ++ n :: errs
    /\ Token.type n = NEWLINE
    /\ Forall (fun t => Token.type t = ERRORTOKEN) errs.

(** What a run keeps of its line ends: every [Indent] so far follows a
    [NewLine]; on a fresh line at depth 0 the stream ends with a [NewLine];
    and no line is fresh while a string is pending. *)
Definition line_ends (toks : list Token) (c : Config) : Prop :=
  (forall before tk after,
     toks = before ++ tk :: after -> Token.type tk = INDENT ->
     after_newline before)
  /\ (loc c <> Finished -> new_line (locals c) = true ->
      paren_level (locals c) = 0%Z -> after_newline toks)
  /\ (contstr (locals c) <> [] -> new_line (locals c) = false).

(** *** Lines that follow *)


(** *** The order of the positions *)

(** The order of positions: by line, then by column. *)
Definition pos_lt (a b : Z * Z) : Prop :=
  (fst a < fst b)%Z \/ (fst a = fst b /\ (snd a < snd b)%Z).

Definition pos_le (a b : Z * Z) : Prop := a = b \/ pos_lt a b.

(** The start positions of the tokens with a text. *)
Definition text_positions (toks : list Token) : list (Z * Z) :=
  map Token.start_pos (filter (fun t => negb (structural t)) toks).

(** Where the next token with a text starts, at least: at the position of
    the scanner in its line, at the start of the pending string, or on the
    next line. *)
Definition cursor (c : Config) : Z * Z :=
  match loc c with
  | AtScan _ pos => (lnum (locals c), Z.of_nat pos)
  | AtReadline =>
      match contstr (locals c), contstr_start (locals c) with
      | _ :: _, Some sp => sp
      | _, _ => ((lnum (locals c) + 1)%Z, 0%Z)
      end
  | Finished => ((lnum (locals c) + 1)%Z, 0%Z)
  end.

(** ** The matcher against the patterns *)

Lemma matches_nil_nullable (r : regex) : matches r [] -> nullable r = true.
Proof.
  induction r as [|p|a IHa b IHb|a IHa b IHb|a IHa|a IHa]; simpl; intros H;
    try reflexivity.
  - destruct H as (c & Hc & _); discriminate.
  - destruct H as (s1 & s2 & Hs & H1 & H2).
    symmetry in Hs; apply app_eq_nil in Hs; destruct Hs; subst.
    rewrite IHa, IHb by assumption; reflexivity.
  - destruct H as [H|H]; [rewrite IHa | rewrite IHb]; auto using orb_true_r.
Qed.

Lemma matches_cons_first (r : regex) (c : ascii) (s : text) :
  matches r (c :: s) -> firstb r c = true.
Proof.
  revert c s.
  induction r as [|p|a IHa b IHb|a IHa b IHb|a IHa|a IHa]; simpl; intros c s H;
    try discriminate.
  - destruct H as (c' & Hc & Hp); inversion Hc; subst; assumption.
  - destruct H as (s1 & s2 & Hs & H1 & H2).
    destruct s1 as [|c1 s1]; simpl in Hs.
    + subst s2. rewrite (matches_nil_nullable _ H1), (IHb _ _ H2).
      apply orb_true_r.
    + inversion Hs; subst. rewrite (IHa _ _ H1); reflexivity.
  - destruct H as [H|H]; [rewrite (IHa _ _ H) | rewrite (IHb _ _ H)];
      auto using orb_true_r.
  - destruct H as (ss & Hs & Hall).
    induction Hall as [|x ss Hx Hall IH]; simpl in Hs; [discriminate|].
    destruct x as [|c1 x]; simpl in Hs; [auto|].
    inversion Hs; subst. eapply IHa; eassumption.
Qed.

(** Whatever [exec] returns comes from its continuation, called on the rest
    of the text after a match of the pattern. *)
Lemma exec_sound (r : regex) :
  forall (A : Type) (s : text) (k : text -> option A) (x : A),
    exec r s k = Some x ->
    exists s1 s2, s = s1 ++ s2 /\ matches r s1 /\ k s2 = Some x.
Proof.
  induction r as [|p|a IHa b IHb|a IHa b IHb|a IHa|a IHa]; simpl; intros A s k x H.
  - exists [], s; auto.
  - destruct s as [|c s']; [discriminate|].
    destruct (p c) eqn:Hp; [|discriminate].
    exists [c], s'; repeat split; eauto.
  - apply IHa in H; destruct H as (s1 & s2 & Hs & H1 & H).
    apply IHb in H; destruct H as (t1 & t2 & Ht & H2 & H).
    exists (s1 ++ t1), t2; subst; rewrite app_assoc; repeat split; eauto.
  - destruct (exec a s k) eqn:E.
    + injection H as ->. apply IHa in E; destruct E as (s1 & s2 & ? & ? & ?).
      exists s1, s2; auto.
    + apply IHb in H; destruct H as (s1 & s2 & ? & ? & ?).
      exists s1, s2; auto.
  - revert H; generalize (length s) at 1; intros n; revert s.
    induction n as [|n IHn]; intros s H.
    + exists [], s; repeat split; auto. exists []; auto.
    + match type of H with
      | match ?e with _ => _ end = _ => destruct e eqn:E
      end.
      * injection H as ->. apply IHa in E.
        destruct E as (s1 & s2 & Hs & H1 & E).
        destruct (length s2 <? length s); [|discriminate].
        apply IHn in E; destruct E as (t1 & t2 & Ht & (ss & Hss & Hall) & Hk).
        exists (s1 ++ t1), t2; subst; rewrite app_assoc; repeat split; auto.
        exists (s1 :: ss); auto.
      * exists [], s; repeat split; auto. exists []; auto.
  - destruct (exec a s (fun _ => Some tt)); [discriminate|].
    exists [], s; auto.
Qed.

Arguments exec : simpl never.
Arguments matches : simpl never.
Arguments Ascii.eqb : simpl never.

Lemma skipn_add (A : Type) (n m : nat) (l : list A) :
  skipn (n + m) l = skipn m (skipn n l).
Proof.
  revert l; induction n as [|n IH]; intros l; simpl; [reflexivity|].
  destruct l; [now rewrite skipn_nil|apply IH].
Qed.

Lemma skipn_decompose (A : Type) (n : nat) (l pre post : list A) :
  skipn n l = pre ++ post -> n <= length l ->
  skipn (n + length pre) l = post /\ length l = n + length pre + length post.
Proof.
  intros H Hn. split.
  - rewrite skipn_add, H, skipn_app, skipn_all, Nat.sub_diag; reflexivity.
  - assert (length (skipn n l) = length l - n) by apply length_skipn.
    rewrite H, length_app in H0. lia.
Qed.

Lemma match_end_spec (r : regex) (line : text) (pos e : nat) :
  match_end r line pos = Some e -> pos <= length line ->
  exists m rest,
    skipn pos line = m ++ rest /\ e = pos + length m /\ matches r m /\
    skipn e line = rest.
Proof.
  unfold match_end; intros H Hpos.
  destruct (exec r (skipn pos line) (fun rest => Some rest)) as [rest|] eqn:E;
    [|discriminate].
  injection H as <-.
  apply exec_sound in E; destruct E as (m & rest' & Hs & Hm & [= ->]).
  destruct (skipn_decompose _ _ _ _ _ Hs Hpos) as [Hsk Hlen].
  exists m, rest. replace (length line - length rest) with (pos + length m) by lia.
  auto.
Qed.

Lemma pseudo_group2_not_nullable : nullable pseudo_group2 = false.
Proof. reflexivity. Qed.

(** What a successful [pseudoprog.match(line, pos)] says about the line: the
    text from [pos] is the whitespace [group(1)], then the token, then the
    rest. *)
Lemma pseudoprog_match_spec (line : text) (pos : nat) (m : PseudoMatch) :
  pseudoprog_match line pos = Some m -> pos <= length line ->
  exists ws c tok rest,
    skipn pos line = ws ++ (c :: tok) ++ rest /\
    group1 m = ws /\
    span2 m = (pos + length ws, pos + length ws + S (length tok)) /\
    matches whitespace ws /\ matches pseudo_group2 (c :: tok) /\
    exec pseudo_group2 ((c :: tok) ++ rest)
         (fun s2 => Some ((c :: tok) ++ rest, s2))
      = Some ((c :: tok) ++ rest, rest).
Proof.
  unfold pseudoprog_match; intros H Hpos.
  match type of H with
  | match ?e with _ => _ end = _ => destruct e as [[s1 s2]|] eqn:E
  end; [|discriminate].
  injection H as <-.
  apply exec_sound in E; destruct E as (ws & s1' & Hs & Hws & E).
  pose proof E as E'.
  apply exec_sound in E; destruct E as (tok & s2' & Ht & Htok & [= -> ->]).
  destruct tok as [|c tok].
  { apply matches_nil_nullable in Htok.
    rewrite pseudo_group2_not_nullable in Htok; discriminate. }
  subst s1.
  destruct (skipn_decompose _ _ _ _ _ Hs Hpos) as [Hsk Hlen].
  rewrite length_app in Hlen; simpl in Hlen.
  exists ws, c, tok, s2.
  rewrite length_app; cbn [length group1 span2].
  replace (length line - (S (length tok) + length s2))
    with (pos + length ws) by lia.
  replace (length line - length s2)
    with (pos + length ws + S (length tok)) by lia.
  repeat split; auto.
  unfold slice. replace (pos + length ws - pos) with (length ws) by lia.
  rewrite Hs, firstn_app, firstn_all, Nat.sub_diag; cbn [firstn].
  apply app_nil_r.
Qed.

Lemma matches_star_chr (p : ascii -> bool) (s : text) :
  matches (Star (Chr p)) s -> Forall (fun c => p c = true) s.
Proof.
  intros (ss & -> & Hall).
  induction Hall as [|x ss Hx Hall IH]; simpl; [constructor|].
  destruct Hx as (c & -> & Hc). constructor; assumption.
Qed.

Lemma char_in_cons (c x : ascii) (s : text) :
  char_in c (x :: s) = true -> c = x \/ char_in c s = true.
Proof.
  unfold char_in; simpl; intros H.
  apply orb_true_iff in H; destruct H as [H|H]; auto.
  left; apply Ascii.eqb_eq; assumption.
Qed.

Ltac first_excludes H :=
  apply matches_cons_first in H; vm_compute in H; discriminate H.

Lemma matches_line_end (s : text) :
  matches line_end s -> s = [nl] \/ s = [cr; nl].
Proof.
  intros (s1 & s2 & -> & H1 & (c & -> & Hc)).
  apply Ascii.eqb_eq in Hc; subst c.
  destruct H1 as [(c & -> & Hc)| ->]; [|left; reflexivity].
  apply Ascii.eqb_eq in Hc; subst c. right; reflexivity.
Qed.

(** A token that starts with a line terminator is a line terminator. *)
Lemma newline_token_shape (c : ascii) (tok : text) :
  matches pseudo_group2 (c :: tok) -> char_in c [cr; nl] = true ->
  c :: tok = [nl] \/ c :: tok = [cr; nl].
Proof.
  intros H Hc.
  assert (Hcases : c = cr \/ c = nl).
  { apply char_in_cons in Hc; destruct Hc as [Hc|Hc]; auto.
    apply char_in_cons in Hc; destruct Hc as [Hc|Hc]; auto; discriminate. }
  destruct H as [H|[H|[H|[H|H]]]].
  - destruct Hcases; subst c; first_excludes H.
  - destruct Hcases; subst c; first_excludes H.
  - destruct H as [H|[H|H]].
    + destruct Hcases; subst c; first_excludes H.
    + destruct Hcases; subst c; first_excludes H.
    + destruct H as [H|[H|H]].
      * apply matches_line_end; assumption.
      * destruct Hcases; subst c; first_excludes H.
      * destruct Hcases; subst c; first_excludes H.
  - destruct Hcases; subst c; first_excludes H.
  - destruct Hcases; subst c; first_excludes H.
Qed.

(** A token that starts with [#] is a comment: it holds no line terminator. *)
Lemma comment_token_shape (tok : text) :
  matches pseudo_group2 ("#"%char :: tok) ->
  Forall (fun c => char_in c [cr; nl] = false) tok.
Proof.
  intros H.
  destruct H as [H|[H|[H|[H|H]]]]; try first_excludes H.
  destruct H as [H|[H|H]]; try first_excludes H.
  destruct H as (s1 & s2 & Hs & (c & -> & Hc) & H2).
  inversion Hs; subst.
  apply matches_star_chr in H2.
  eapply Forall_impl; [|exact H2].
  intros a Ha; apply negb_true_iff in Ha; exact Ha.
Qed.

(** ** The lookup tables *)

Lemma text_eqb_eq (a b : text) : text_eqb a b = true <-> a = b.
Proof.
  revert b; induction a as [|x a IH]; intros [|y b]; simpl; split; intros H;
    try discriminate; try reflexivity.
  - apply andb_true_iff in H; destruct H as [Hx Hab].
    apply Ascii.eqb_eq in Hx; apply IH in Hab; subst; reflexivity.
  - injection H as -> ->. rewrite Ascii.eqb_refl; simpl. apply IH; reflexivity.
Qed.

Lemma mem_In (t : text) (keys : list text) : mem t keys = true -> In t keys.
Proof.
  unfold mem; intros H. apply existsb_exists in H.
  destruct H as (k & Hin & Hk). apply text_eqb_eq in Hk; subst; assumption.
Qed.

(** Every key of [triple_quoted] has a closing pattern in [endprogs]. *)
Lemma triple_quoted_endprog (token : text) :
  mem token triple_quoted = true ->
  exists p, dict_get endprogs token = Some (Some p).
Proof.
  intros H; apply mem_In in H.
  repeat (destruct H as [H|H]; [subst token; vm_compute; eauto|]).
  destruct H.
Qed.

(** In the branch of the one-line strings the closing pattern is found among
    the first three characters of the token, and none of the indexings is out
    of range. *)
Lemma single_quoted_endprog (c : ascii) (tok : text) :
  mem [c] single_quoted || mem (firstn 2 (c :: tok)) single_quoted
    || mem (firstn 3 (c :: tok)) single_quoted = true ->
  exists p, lookup_endprog c (c :: tok) = Ok (Some p).
Proof.
  intros H.
  apply orb_true_iff in H; destruct H as [H|H];
    [apply orb_true_iff in H; destruct H as [H|H]|];
    apply mem_In in H;
    destruct tok as [|c1 [|c2 tok]]; vm_compute in H;
    repeat (destruct H as [H|H];
            [try discriminate H; inversion H; subst; vm_compute; eauto|]);
    destruct H.
Qed.

(** ** The indentation stack *)

Ltac simpl_locals :=
  cbn [paren_level indents lnum contstr contline new_line prefix contstr_start
       endprog set_paren_level set_indents set_lnum set_new_line set_prefix
       set_endprog set_cont] in *.

(** Case analysis on the tests of a computation that a hypothesis equates
    with its result, innermost test first. *)
Ltac case_hyp H :=
  repeat match type of H with
         | context [match ?x with _ => _ end] =>
             lazymatch x with
             | context [match _ with _ => _ end] => fail
             | _ => destruct x eqn:?
             end
         end.

(** On a stack that ends with the sentinel the loop pops [n] levels, yields
    [n] dedents and leaves the sentinel in place. *)
Lemma dedent_loop_spec (spos : Z * Z) (start : nat) (up : list nat) :
  exists n up',
    dedent_loop spos start (up ++ [0]) = Ok (repeat (dedent_at spos) n, up' ++ [0])
    /\ n + length up' = length up.
Proof.
  induction up as [|a up IH]; simpl.
  - exists 0, []; auto.
  - destruct (start <? a).
    + destruct IH as (n & up' & -> & Hlen); simpl.
      exists (S n), up'; split; [reflexivity | lia].
    + exists 0, (a :: up); auto.
Qed.

Lemma break_loop_dedent_loop (lnum : Z) (start : nat) (ind : list nat) :
  break_loop lnum start ind = dedent_loop (lnum, 0%Z) start ind.
Proof.
  induction ind as [|a ind IH]; simpl; [reflexivity|].
  rewrite IH; reflexivity.
Qed.

(** The indentation check yields at most one indent, then dedents, and the
    stack keeps its sentinel; levels pushed and popped are all accounted for
    by the tokens. *)
Lemma check_indent_spec (spos : Z * Z) (start : nat) (c : ascii) (st : Locals)
  (up : list nat) :
  indents st = up ++ [0] ->
  exists i n up' b,
    check_indent spos start c st
      = Ok (repeat (indent_at spos) i ++ repeat (dedent_at spos) n,
            set_indents (up' ++ [0]) (set_new_line b st))
    /\ i + length up = n + length up'
    /\ (new_line st = false -> i = 0 /\ n = 0 /\ up' = up /\ b = false)
    /\ (b = true -> new_line st = true /\ i = 0 /\ n = 0 /\ up' = up).
Proof.
  intros Hup. unfold check_indent.
  assert (Hsame : forall b, b = new_line st ->
            set_indents (up ++ [0]) (set_new_line b st) = st).
  { intros b ->; rewrite <- Hup; destruct st; reflexivity. }
  destruct (new_line st) eqn:Hnl; cbn [andb].
  2: { exists 0, 0, up, false; rewrite Hsame by reflexivity.
       split; [reflexivity | split; [reflexivity | split]];
         [auto | discriminate]. }
  destruct (negb (char_in c [cr; nl; "#"%char])) eqn:Hc.
  2: { exists 0, 0, up, true; rewrite Hsame by reflexivity.
       split; [reflexivity | split; [reflexivity | split]];
         [discriminate | auto]. }
  assert (Hfalse : forall (i n : nat) (up' : list nat),
            (true = false -> i = 0 /\ n = 0 /\ up' = up /\ false = false)
            /\ (false = true -> true = true /\ i = 0 /\ n = 0 /\ up' = up)).
  { intros; split; discriminate. }
  simpl_locals.
  destruct (paren_level st =? 0)%Z.
  2: { exists 0, 0, up, false; simpl.
       split; [rewrite <- Hup; destruct st; reflexivity|].
       split; [reflexivity | apply Hfalse]. }
  rewrite Hup.
  destruct up as [|top up]; cbn [hd_error get_or bind app].
  - destruct (0 <? start) eqn:Hs; simpl_locals; rewrite ?Hup; simpl.
    + rewrite Nat.ltb_irrefl; simpl.
      exists 1, 0, [start], false.
      split; [reflexivity | split; [reflexivity | apply Hfalse]].
    + exists 0, 0, [], false.
      split; [reflexivity | split; [reflexivity | apply Hfalse]].
  - destruct (top <? start) eqn:Hs; simpl_locals; rewrite ?Hup; simpl.
    + rewrite Nat.ltb_irrefl; simpl.
      exists 1, 0, (start :: top :: up), false.
      split; [reflexivity | split; [reflexivity | apply Hfalse]].
    + destruct (start <? top) eqn:Hd; simpl.
      * destruct (dedent_loop_spec spos start up) as (n & up' & -> & Hlen); simpl.
        exists 0, (S n), up'; exists false.
        split; [reflexivity | split; [simpl; lia | apply Hfalse]].
      * exists 0, 0, (top :: up), false.
        split; [reflexivity | split; [reflexivity | apply Hfalse]].
Qed.

(** ** One pass of the scanning loop *)

Lemma nth_error_skipn_hd (A : Type) (n : nat) (l : list A) (x : A) (r : list A) :
  skipn n l = x :: r -> nth_error l n = Some x.
Proof.
  revert l; induction n as [|n IH]; intros [|y l]; simpl; intros H;
    try discriminate.
  - injection H as -> _; reflexivity.
  - apply IH; assumption.
Qed.

Lemma slice_skipn (s t r : text) (a : nat) :
  skipn a s = t ++ r -> slice s a (a + length t) = t.
Proof.
  intros H; unfold slice.
  replace (a + length t - a) with (length t) by lia.
  rewrite H, firstn_app, firstn_all, Nat.sub_diag; simpl. apply app_nil_r.
Qed.

Lemma last_item_cons (A : Type) (x : A) (l : list A) :
  exists y l', x :: l = l' ++ [y] /\ last_item (x :: l) = Ok y.
Proof.
  destruct (exists_last (l := x :: l)) as (l' & y & E); [discriminate|].
  exists y, l'; split; [assumption|].
  unfold last_item; rewrite E, rev_app_distr; reflexivity.
Qed.

Lemma endswith_last (l : text) (y z : ascii) :
  endswith (l ++ [y]) [z] = Ascii.eqb z y.
Proof.
  unfold endswith; rewrite rev_app_distr; simpl.
  destruct (rev l); apply andb_true_r.
Qed.

Lemma comment_not_endswith_nl (tok : text) :
  Forall (fun x => char_in x [cr; nl] = false) tok ->
  endswith ("#"%char :: tok) [nl] = false.
Proof.
  intros Hall.
  destruct (last_item_cons _ "#"%char tok) as (y & l' & E & _).
  rewrite E, endswith_last.
  destruct (Ascii.eqb nl y) eqn:Hy; [|reflexivity].
  apply Ascii.eqb_eq in Hy; subst y.
  assert (Hin : In nl ("#"%char :: tok)).
  { rewrite E; apply in_or_app; right; left; reflexivity. }
  destruct Hin as [Hin|Hin]; [discriminate|].
  rewrite Forall_forall in Hall. apply Hall in Hin. discriminate.
Qed.

Lemma scan_outcome_token (line : text) (pos : nat) (st : Locals)
  ws c tok rest i n up up' b main st' ctl toks :
  skipn pos line = ws ++ (c :: tok) ++ rest ->
  matches whitespace ws ->
  indents st = up ++ [0] ->
  i + length up = n + length up' ->
  (new_line st = false -> i = 0 /\ n = 0 /\ up' = up /\ b = false) ->
  (b = true -> new_line st = true /\ i = 0 /\ n = 0 /\ up' = up) ->
  token_outcome line (pos + length ws) c tok rest
    (set_indents (up' ++ [0]) (set_new_line b (set_prefix ws st)))
    main st' ctl ->
  toks = (repeat (indent_at (lnum st, Z.of_nat (pos + length ws))) i
          ++ repeat (dedent_at (lnum st, Z.of_nat (pos + length ws))) n)
         ++ main ->
  scan_outcome line pos st toks st' ctl.
Proof.
  intros; subst toks; rewrite <- app_assoc; econstructor; eassumption.
Qed.

(** From a stack that ends with the sentinel a pass of the loop raises
    nothing, and it ends in one of the ways of [scan_outcome]. *)
Lemma scan_spec (line : text) (pos : nat) (st : Locals) (up : list nat) :
  pos < length line -> indents st = up ++ [0] ->
  exists toks st' ctl,
    scan line pos st = Ok (toks, st', ctl) /\
    scan_outcome line pos st toks st' ctl.
Proof.
  intros Hpos Hup. unfold scan.
  destruct (pseudoprog_match line pos) as [m|] eqn:Hm.
  2: { destruct (nth_error line pos) as [c|] eqn:Hc.
       - simpl. do 3 eexists; split; [reflexivity|]. constructor; assumption.
       - apply nth_error_None in Hc; lia. }
  assert (Hle : pos <= length line) by lia.
  destruct (pseudoprog_match_spec _ _ _ Hm Hle) as
    (ws & c & tok & rest & Hs & Hg1 & Hsp & Hws & Htok & Hexec).
  rewrite Hg1, Hsp; clear Hg1 Hsp Hm m.
  destruct (skipn_decompose _ _ _ _ _ Hs Hle) as [Hsk Hlen].
  set (start := pos + length ws) in *.
  assert (Hle' : start <= length line) by lia.
  destruct (skipn_decompose _ _ _ _ _ Hsk Hle') as [Hrest _].
  rewrite (nth_error_skipn_hd _ _ _ _ _ Hsk); cbn [get_or bind].
  replace (start + S (length tok)) with (start + length (c :: tok)) by reflexivity.
  rewrite (slice_skipn _ _ _ _ Hsk).
  simpl_locals.
  destruct (check_indent_spec (lnum st, Z.of_nat start) start c
              (set_prefix ws st) _ Hup) as (i & n & up' & b & -> & Hcnt & Hn0 & Hb).
  simpl_locals. cbn [bind].
  set (st1 := set_indents (up' ++ [0]) (set_new_line b (set_prefix ws st))).
  set (itoks := repeat (indent_at (lnum st, Z.of_nat start)) i
                ++ repeat (dedent_at (lnum st, Z.of_nat start)) n).
  assert (Hout : forall main st' ctl,
            token_outcome line start c tok rest st1 main st' ctl ->
            scan_outcome line pos st (itoks ++ main) st' ctl).
  { intros; eapply scan_outcome_token; eauto. }
  assert (Hout0 : forall st' ctl,
            token_outcome line start c tok rest st1 [] st' ctl ->
            scan_outcome line pos st itoks st' ctl).
  { intros st' ctl H. apply Hout in H. rewrite app_nil_r in H; exact H. }
  assert (Hl1 : lnum st1 = lnum st) by reflexivity.
  assert (Hi1 : indents st1 = up' ++ [0]) by reflexivity.
  clearbody st1 itoks. rewrite <- Hl1.
  (* ordinary number *)
  match goal with |- context [if ?b then Ok (_ ++ [Token.new NUMBER _ _ _], _, _) else _] =>
    destruct b end.
  { do 3 eexists; split; [reflexivity|]. apply Hout; constructor. }
  (* line terminator *)
  destruct (char_in c [cr; nl]) eqn:Hnlc.
  { pose proof (newline_token_shape _ _ Htok Hnlc) as Hshape.
    destruct (new_line st1) eqn:Hnl1; cbn [negb andb].
    - do 3 eexists; split; [reflexivity|]. apply Hout; constructor; auto.
    - destruct (paren_level st1 =? 0)%Z eqn:Hpar.
      + do 3 eexists; split; [reflexivity|].
        apply Hout; constructor; auto. apply Z.eqb_eq; assumption.
      + do 3 eexists; split; [reflexivity|].
        apply Hout; apply to_newline_silent; auto.
        right; apply Z.eqb_neq; assumption. }
  (* comment *)
  destruct (Ascii.eqb c "#") eqn:Hhash.
  { apply Ascii.eqb_eq in Hhash; subst c.
    pose proof (comment_token_shape _ Htok) as Hshape.
    rewrite (comment_not_endswith_nl _ Hshape).
    do 3 eexists; split; [reflexivity|]. apply Hout0; constructor; auto. }
  (* triple-quoted string *)
  destruct (mem (c :: tok) triple_quoted) eqn:Htriple.
  { destruct (triple_quoted_endprog _ Htriple) as (p & ->). cbn [get_or bind].
    destruct (match_end p line (start + length (c :: tok))) as [e|] eqn:Hend.
    - assert (Hle'' : start + length (c :: tok) <= length line).
      { rewrite Hlen, length_app; lia. }
      destruct (match_end_spec _ _ _ _ Hend Hle'') as (m & rest' & Hm & -> & _ & _).
      rewrite Hrest in Hm; clear Hrest; subst rest.
      rewrite app_assoc in Hsk.
      replace (start + length (c :: tok) + length m)
        with (start + length ((c :: tok) ++ m)) by (rewrite length_app; lia).
      rewrite (slice_skipn _ _ _ _ Hsk).
      do 3 eexists; split; [reflexivity|].
      rewrite length_app, Nat.add_assoc.
      apply Hout; eapply to_triple_line; reflexivity.
    - rewrite Hsk.
      do 3 eexists; split; [reflexivity|]. apply Hout0; apply to_triple_open. }
  (* one-line string *)
  match goal with |- context [if ?b then bind (last_item _) _ else _] =>
    destruct b eqn:Hsingle end.
  { destruct (last_item_cons _ c tok) as (y & l' & _ & ->). cbn [bind].
    destruct (Ascii.eqb y nl).
    - destruct (single_quoted_endprog _ _ Hsingle) as (p & ->). cbn [bind].
      rewrite Hsk.
      do 3 eexists; split; [reflexivity|]. apply Hout0; apply to_string_open.
    - do 3 eexists; split; [reflexivity|]. apply Hout; apply to_string. }
  (* ordinary name *)
  destruct (char_in c namechars).
  { destruct (mem (c :: tok) ALWAYS_BREAK_TOKEN) eqn:Hbreak.
    - rewrite break_loop_dedent_loop, Hi1.
      destruct (dedent_loop_spec (lnum st1, 0%Z) start up')
        as (k & up'' & -> & Hk).
      cbn [bind]. simpl_locals.
      do 3 eexists; split; [reflexivity|].
      apply Hout; eapply to_name_break; eauto.
    - cbn [bind].
      do 3 eexists; split; [reflexivity|]. apply Hout; apply to_name; auto. }
  (* continued statement *)
  match goal with |- context [if ?b then Ok (itoks, st1, _) else _] =>
    destruct b eqn:Hcont end.
  { apply andb_true_iff in Hcont; destruct Hcont as [_ Hcont].
    apply text_eqb_eq in Hcont. rewrite Hsk in Hcont.
    rewrite Hcont in Hexec. vm_compute in Hexec.
    injection Hexec as <-. rewrite app_nil_r in Hcont.
    do 3 eexists; split; [reflexivity|]. apply Hout0; apply to_continuation; auto. }
  do 3 eexists; split; [reflexivity|]. apply Hout; apply to_op.
Qed.

(** Where a pass of the loop continues, and what it leaves pending. *)
Lemma token_outcome_frame line start c tok rest st main st' ctl up :
  token_outcome line start c tok rest st main st' ctl ->
  indents st = up ++ [0] -> contstr st = [] ->
  (exists up', indents st' = up' ++ [0])
  /\ lnum st' = lnum st /\ prefix st' = prefix st
  /\ match ctl with
     | Again pos' =>
         start < pos' <= start + S (length tok) + length rest
         /\ contstr st' = []
     | Break =>
         contstr st' = (c :: tok) ++ rest
         /\ (exists p, endprog st' = Some p)
         /\ contline st' = Some line
         /\ contstr_start st' = Some (lnum st, Z.of_nat start)
     end.
Proof.
  intros H Hup Hc.
  destruct H; simpl_locals;
    try (split; [eauto|]; split; [reflexivity|]; split; [reflexivity|];
         first [ split; [lia | assumption]
               | split; [reflexivity|]; split; [eauto|]; split; reflexivity ]).
  - subst rest. rewrite length_app.
    split; [eauto|]. repeat split; auto; lia.
  - unfold adjust_paren.
    destruct (str_in (c :: tok) (str "([{"));
      [|destruct (str_in (c :: tok) (str ")]}"))]; simpl_locals;
      (split; [eauto|]; repeat split; auto; lia).
Qed.

Lemma scan_outcome_frame line pos st toks st' ctl :
  scan_outcome line pos st toks st' ctl ->
  pos < length line -> contstr st = [] ->
  (exists up, indents st = up ++ [0]) ->
  (exists up', indents st' = up' ++ [0])
  /\ lnum st' = lnum st
  /\ match ctl with
     | Again pos' => pos < pos' <= length line /\ contstr st' = []
     | Break =>
         contstr st' <> []
         /\ (exists p, endprog st' = Some p)
         /\ (exists l, contline st' = Some l)
         /\ (exists sp, contstr_start st' = Some sp)
     end.
Proof.
  intros H Hpos Hc Hsent.
  destruct H as [c Hnth | ws c tok rest i n up up' b main st' ctl
                          Hs Hws Hup Hcnt Hn0 Hb Hout].
  - split; [assumption|split; [reflexivity|split; [lia|assumption]]].
  - assert (Hlen : length line = pos + length ws + S (length tok) + length rest).
    { assert (E : length (skipn pos line) = length line - pos)
        by apply length_skipn.
      rewrite Hs in E. rewrite !length_app in E. simpl in E. lia. }
    eapply token_outcome_frame in Hout; [|reflexivity|exact Hc].
    destruct Hout as (Hup' & Hl & _ & Hctl). simpl_locals.
    split; [assumption|]. split; [assumption|].
    destruct ctl as [pos'|].
    + destruct Hctl; split; [lia|assumption].
    + destruct Hctl as (-> & Hp & -> & ->).
      split; [discriminate|]. eauto.
Qed.

(** ** One transition *)

Lemma nonempty_true (s : text) : nonempty s = true <-> s <> [].
Proof. destruct s; simpl; split; congruence. Qed.

Lemma nonempty_false (s : text) : nonempty s = false <-> s = [].
Proof. destruct s; simpl; split; congruence. Qed.

Lemma removelast_snoc (A : Type) (l : list A) (x : A) :
  removelast (l ++ [x]) = l.
Proof. rewrite removelast_app by discriminate; simpl; apply app_nil_r. Qed.

Lemma map_const_repeat (A B : Type) (b : B) (l : list A) :
  map (fun _ => b) l = repeat b (length l).
Proof. induction l; simpl; congruence. Qed.

Lemma finish_spec (c : Config) :
  Inv c -> loc c = AtReadline -> exhausted (input c) ->
  exists toks,
    finish (locals c) = Ok toks /\
    step_outcome c toks (mkConfig (locals c) Finished (input c)).
Proof.
  intros [[up Hup] Hcont _] Hloc Hex. unfold finish.
  rewrite Hup, removelast_snoc, map_const_repeat.
  destruct (nonempty (contstr (locals c))) eqn:Hne.
  - apply nonempty_true in Hne.
    destruct (Hcont Hne) as (_ & _ & sp & Hsp). rewrite Hsp; simpl.
    eexists; split; [reflexivity|].
    apply (st_flush c up sp); auto.
  - apply nonempty_false in Hne. simpl.
    eexists; split; [reflexivity|].
    apply (st_finish c up); auto.
Qed.

(** A transition raises nothing, and it is one of [step_outcome]. *)
Lemma step_spec (c : Config) :
  Inv c -> loc c <> Finished ->
  exists toks c', step c = Ok (toks, c') /\ step_outcome c toks c'.
Proof.
  intros HI Hloc. unfold step.
  destruct (loc c) as [|line pos|] eqn:Eloc; [| |congruence].
  - destruct (input c) as [|line rest] eqn:Ein.
    { destruct (finish_spec c HI Eloc) as (toks & -> & Hout);
        [left; assumption|].
      rewrite Ein in Hout. simpl. eauto. }
    destruct line as [|ch line].
    { destruct (finish_spec c HI Eloc) as (toks & -> & Hout);
        [right; eauto|].
      rewrite Ein in Hout. simpl. eauto. }
    unfold begin_line. simpl_locals.
    destruct (nonempty (contstr (locals c))) eqn:Hne.
    + apply nonempty_true in Hne.
      destruct (inv_cont c HI Hne) as ((p & Hp) & (l & Hl) & (sp & Hsp)).
      rewrite Hp; cbn [get_or bind].
      destruct (match_end p (ch :: line) 0) as [e|] eqn:Hend.
      * destruct (match_end_spec _ _ _ _ Hend (Nat.le_0_l _))
          as (m & tail & Hm & -> & Hmat & _).
        simpl in Hm. rewrite Hsp; cbn [get_or bind]. rewrite Nat.add_0_l.
        assert (Hf : firstn (length m) (ch :: line) = m).
        { rewrite Hm, firstn_app, firstn_all, Nat.sub_diag; cbn [firstn].
          apply app_nil_r. }
        rewrite Hf.
        do 2 eexists; split; [reflexivity|].
        eapply st_close; eauto. discriminate.
      * rewrite Hl; cbn [get_or bind].
        do 2 eexists; split; [reflexivity|].
        eapply st_more; eauto. discriminate.
    + apply nonempty_false in Hne.
      do 2 eexists; split; [reflexivity|].
      eapply st_line; eauto. discriminate.
  - destruct (pos <? length line) eqn:Hpos.
    + apply Nat.ltb_lt in Hpos.
      destruct (inv_sentinel c HI) as (up & Hup).
      destruct (scan_spec line pos (locals c) up Hpos Hup)
        as (toks & st' & ctl & -> & Hout).
      cbn [bind].
      do 2 eexists; split; [reflexivity|].
      apply (st_scan c line pos toks st' ctl); auto.
    + apply Nat.ltb_ge in Hpos.
      do 2 eexists; split; [reflexivity|].
      eapply st_eol; eauto.
Qed.

Lemma step_outcome_of_step (c : Config) (toks : list Token) (c' : Config) :
  Inv c -> loc c <> Finished -> step c = Ok (toks, c') ->
  step_outcome c toks c'.
Proof.
  intros HI Hloc Hstep.
  destruct (step_spec c HI Hloc) as (toks' & c'' & E & Hout).
  rewrite E in Hstep; injection Hstep as <- <-; assumption.
Qed.

(** A transition keeps the invariant and uses up some of the budget. *)
Lemma step_outcome_progress (c : Config) (toks : list Token) (c' : Config) :
  step_outcome c toks c' -> Inv c -> Inv c' /\ budget c' < budget c.
Proof.
  intros H [Hsent Hcont Hscan].
  destruct H as [up Hloc Hex Hc Hup | up sp Hloc Hex Hc Hup Hsp
                | line rest Hloc Hin Hne Hc
                | line rest p sp m tail Hloc Hin Hne Hc Hp Hsp Hline Hm
                | line rest l Hloc Hin Hne Hc Hl
                | line pos toks st' ctl Hloc Hpos Hout
                | line pos Hloc Hpos];
    unfold budget; cbn [loc locals input]; rewrite Hloc.
  - split; [constructor; cbn [loc locals]; auto; discriminate|].
    destruct (input c); simpl; lia.
  - split; [constructor; cbn [loc locals]; auto; discriminate|].
    destruct (input c); simpl; lia.
  - rewrite Hin; simpl. split; [|lia].
    constructor; cbn [loc locals]; simpl_locals; auto.
    intros ? ? [= <- <-]; split; [assumption|lia].
  - rewrite Hin; simpl. split.
    + constructor; cbn [loc locals]; simpl_locals; auto.
      * intros []; reflexivity.
      * intros ? ? [= <- <-]; split; [reflexivity|].
        subst line; rewrite length_app; lia.
    + lia.
  - rewrite Hin; simpl. split; [|lia].
    constructor; cbn [loc locals]; simpl_locals; auto.
    + intros _. destruct (Hcont Hc) as (Hp & _ & Hsp). eauto.
    + discriminate.
  - destruct (Hscan _ _ Hloc) as [Hc _].
    destruct (scan_outcome_frame _ _ _ _ _ _ Hout Hpos Hc Hsent)
      as (Hsent' & _ & Hctl).
    destruct ctl as [pos'|]; cbn [next_loc].
    + destruct Hctl as [Hlt Hc']. split; [|lia].
      constructor; cbn [loc locals]; auto.
      * rewrite Hc'; intros []; reflexivity.
      * intros ? ? [= <- <-]; split; [assumption|lia].
    + destruct Hctl as (Hne & Hp & Hl & Hsp). split; [|lia].
      constructor; cbn [loc locals]; auto. discriminate.
  - split; [|lia].
    destruct (Hscan _ _ Hloc) as [Hc _].
    constructor; cbn [loc locals]; auto. discriminate.
Qed.

(** ** Whole runs *)

Lemma initial_config_Inv (lines : list text) (line_offset : Z) :
  Inv (initial_config lines line_offset).
Proof.
  constructor; simpl.
  - exists []; reflexivity.
  - intros H; contradiction H; reflexivity.
  - discriminate.
Qed.

(** With its budget as fuel a run does not time out and raises nothing. *)
Lemma run_completes (fuel : nat) :
  forall c, Inv c -> budget c <= fuel ->
  exists toks, run fuel c = Ok toks /\ completes c toks.
Proof.
  induction fuel as [|fuel IH]; intros c HI Hb.
  - destruct (loc c) eqn:Hloc; unfold budget in Hb; rewrite Hloc in Hb.
    + destruct (input c); simpl in Hb; lia.
    + lia.
    + exists []; simpl; rewrite Hloc; split; [reflexivity|].
      constructor; assumption.
  - destruct (loc c) eqn:Hloc.
    3: { exists []; simpl; rewrite Hloc; split; [reflexivity|].
         constructor; assumption. }
    all: assert (Hnf : loc c <> Finished) by (rewrite Hloc; discriminate);
      destruct (step_spec c HI Hnf) as (t & c' & Hstep & Hout);
      destruct (step_outcome_progress c t c' Hout HI) as [HI' Hlt];
      destruct (IH c' HI') as (toks & Hrun & Hcomp); [lia|];
      exists (t ++ toks); simpl; rewrite Hloc, Hstep; simpl; rewrite Hrun;
      split; [reflexivity|];
      eapply completes_step; eauto.
Qed.

Lemma generate_tokens_completes (lines : list text) (line_offset : Z) :
  exists toks,
    generate_tokens lines line_offset = Ok toks /\
    completes (initial_config lines line_offset) toks.
Proof.
  unfold generate_tokens.
  apply run_completes; [apply initial_config_Inv | apply Nat.le_refl].
Qed.

Lemma completes_deterministic (c : Config) (toks1 toks2 : list Token) :
  completes c toks1 -> completes c toks2 -> toks1 = toks2.
Proof.
  intros H1; revert toks2.
  induction H1 as [c Hloc | c t c' toks Hloc Hstep Hc IH]; intros toks2 H2.
  - destruct H2 as [c _ | c t c' toks Hloc' _ _]; [reflexivity | contradiction].
  - destruct H2 as [c Hloc' | c t2 c2 toks' _ Hstep2 Hc2]; [contradiction|].
    rewrite Hstep in Hstep2; injection Hstep2 as <- <-.
    f_equal; apply IH; assumption.
Qed.

Lemma reaches_Inv (c0 : Config) (toks : list Token) (c : Config) :
  reaches c0 toks c -> Inv c0 -> Inv c.
Proof.
  induction 1 as [|toks c t c' Hr IH Hloc Hstep]; intros HI; [assumption|].
  specialize (IH HI).
  apply (step_outcome_progress c t c'); [|assumption].
  apply step_outcome_of_step; assumption.
Qed.

(** Invariants of runs: what holds at the start and is kept by every
    transition holds wherever the generator gets. *)
Lemma reaches_invariant (P : list Token -> Config -> Prop) (c0 : Config) :
  Inv c0 -> P [] c0 ->
  (forall toks c t c',
      Inv c -> P toks c -> step_outcome c t c' -> P (toks ++ t) c') ->
  forall toks c, reaches c0 toks c -> P toks c.
Proof.
  intros HI H0 Hstep toks c Hr.
  induction Hr as [|toks c t c' Hr IH Hloc Hs]; [assumption|].
  assert (HIc : Inv c) by (eapply reaches_Inv; eauto).
  eapply Hstep; eauto. apply step_outcome_of_step; assumption.
Qed.

Lemma reaches_front (c c' : Config) (t : list Token) :
  loc c <> Finished -> step c = Ok (t, c') ->
  forall toks c'', reaches c' toks c'' -> reaches c (t ++ toks) c''.
Proof.
  intros Hloc Hstep toks c'' Hr.
  induction Hr as [|toks c1 t1 c2 Hr IH Hloc1 Hs1].
  - rewrite app_nil_r. rewrite <- (app_nil_l t).
    eapply reaches_step; eauto. constructor.
  - rewrite app_assoc. eapply reaches_step; eauto.
Qed.

Lemma completes_reaches (c : Config) (toks : list Token) :
  completes c toks -> exists c', reaches c toks c' /\ loc c' = Finished.
Proof.
  induction 1 as [c Hloc | c t c' toks Hloc Hstep Hc (c'' & Hr & Hfin)].
  - exists c; split; [constructor | assumption].
  - exists c''; split; [|assumption].
    eapply reaches_front; eauto.
Qed.

(** A run that gets to [c] goes on from [c]: its tokens are those yielded on
    the way to [c], then those of the run from [c]. *)
(** A run of [n] transitions, computed, is a run. *)
Lemma steps_reaches (n : nat) :
  forall c toks c', steps n c = Some (toks, c') -> reaches c toks c'.
Proof.
  induction n as [|n IH]; intros c toks c' H; cbn [steps] in H.
  - injection H as <- <-. constructor.
  - destruct (loc c) eqn:Hloc; try discriminate H;
      (destruct (step c) as [[t c1]| |] eqn:Hstep; try discriminate H;
       destruct (steps n c1) as [[toks1 c2]|] eqn:Hn; try discriminate H;
       injection H as <- <-;
       apply (reaches_front c c1 t); [rewrite Hloc; discriminate | exact Hstep|];
       apply IH; exact Hn).
Qed.

Lemma reaches_completes (c0 : Config) (body : list Token) (c : Config) :
  reaches c0 body c ->
  forall toks, completes c0 toks ->
  exists rest, toks = body ++ rest /\ completes c rest.
Proof.
  induction 1 as [|body c t c' Hr IH Hloc Hstep]; intros toks Hc.
  - exists toks; auto.
  - destruct (IH toks Hc) as (rest & -> & Hrest).
    destruct Hrest as [c Hfin | c t2 c2 rest _ Hstep2 Hrest]; [contradiction|].
    rewrite Hstep in Hstep2; injection Hstep2 as <- <-.
    exists rest; split; [rewrite app_assoc; reflexivity | assumption].
Qed.

(** ** The end position of a token *)

Lemma split_nonempty (sep : ascii) (s : text) : split sep s <> [].
Proof.
  destruct s as [|c s]; simpl; [discriminate|].
  destruct (Ascii.eqb c sep); [discriminate|].
  destruct (split sep s); discriminate.
Qed.

Lemma split_snoc_sep (s : text) : split nl (s ++ [nl]) = split nl s ++ [[]].
Proof.
  induction s as [|c s IH]; simpl; [reflexivity|].
  destruct (Ascii.eqb c nl); [rewrite IH; reflexivity|].
  rewrite IH. destruct (split nl s) eqn:E; [|reflexivity].
  destruct (split_nonempty _ _ E).
Qed.

Lemma split_snoc_other (s : text) (c : ascii) :
  Ascii.eqb c nl = false ->
  split nl (s ++ [c])
  = removelast (split nl s) ++ [last (split nl s) [] ++ [c]].
Proof.
  intros Hc. induction s as [|x s IH]; simpl; [rewrite Hc; reflexivity|].
  rewrite IH.
  destruct (split nl s) as [|l ls] eqn:E; [destruct (split_nonempty _ _ E)|].
  destruct (Ascii.eqb x nl).
  - destruct ls; reflexivity.
  - destruct ls as [|l' ls]; simpl; [reflexivity|].
    destruct (removelast (l' :: ls) ++ [last (l' :: ls) [] ++ [c]]) eqn:E2;
      [destruct (app_cons_not_nil _ _ _ (eq_sym E2))|].
    simpl in E2; rewrite E2; reflexivity.
Qed.

Lemma count_nl_snoc (s : text) (c : ascii) :
  count_nl (s ++ [c]) = count_nl s + (if Ascii.eqb c nl then 1 else 0).
Proof.
  unfold count_nl. rewrite filter_app, length_app; simpl.
  rewrite (Ascii.eqb_sym nl c). destruct (Ascii.eqb c nl); reflexivity.
Qed.

Lemma after_last_nl_snoc (s : text) (c : ascii) :
  after_last_nl (s ++ [c])
  = if Ascii.eqb c nl then [] else after_last_nl s ++ [c].
Proof.
  unfold after_last_nl. rewrite rev_app_distr; simpl.
  destruct (Ascii.eqb c nl); reflexivity.
Qed.

Lemma split_length_last (s : text) :
  length (split nl s) = count_nl s + 1
  /\ last (split nl s) [] = after_last_nl s.
Proof.
  induction s as [|c s [IHl IHa]] using rev_ind; [split; reflexivity|].
  rewrite count_nl_snoc, after_last_nl_snoc.
  destruct (Ascii.eqb c nl) eqn:Hc.
  - apply Ascii.eqb_eq in Hc; subst c. rewrite split_snoc_sep.
    rewrite length_app, last_last; simpl. split; [lia|reflexivity].
  - rewrite (split_snoc_other _ _ Hc), length_app, last_last; simpl.
    split; [|rewrite IHa; reflexivity].
    destruct (exists_last (split_nonempty nl s)) as (l' & x & E).
    rewrite E, removelast_snoc in *. rewrite length_app in IHl; simpl in IHl.
    lia.
Qed.

Lemma after_last_nl_all (s : text) : count_nl s = 0 -> after_last_nl s = s.
Proof.
  induction s as [|c s IH] using rev_ind; [reflexivity|].
  rewrite count_nl_snoc, after_last_nl_snoc.
  destruct (Ascii.eqb c nl); [lia|].
  intros H; rewrite IH by lia; reflexivity.
Qed.

Lemma last_item_snoc (A : Type) (l : list A) (x : A) :
  last_item (l ++ [x]) = Ok x.
Proof. unfold last_item; rewrite rev_app_distr; reflexivity. Qed.

Lemma len_snoc (s : text) (c : ascii) : len (s ++ [c]) = (len s + 1)%Z.
Proof. unfold len; rewrite length_app; simpl; lia. Qed.

(** The end position the code derives, for every token. *)
Lemma end_pos_derived (tok : Token) :
  Token.end_pos tok
  = Ok (derived_end (Token._start_pos_line tok) (Token._start_pos_col tok)
                    (Token.value tok)).
Proof.
  destruct tok as [ty v line col pre]; unfold Token.end_pos, derived_end; simpl.
  destruct v as [|c v] using rev_ind.
  { simpl. replace (line + 1 - 1)%Z with line by lia.
    rewrite Z.eqb_refl; reflexivity. }
  clear IHv. rewrite endswith_last, (Ascii.eqb_sym nl c), count_nl_snoc.
  destruct (split_length_last v) as [Hlen Hlast].
  destruct (Ascii.eqb c nl) eqn:Hc.
  - apply Ascii.eqb_eq in Hc; subst c.
    rewrite split_snoc_sep, !removelast_snoc.
    destruct (exists_last (split_nonempty nl v)) as (l' & x & E).
    rewrite E in *. rewrite last_last in Hlast. subst x.
    rewrite last_item_snoc; cbn [bind]. rewrite removelast_snoc, last_item_snoc.
    cbn [bind]. rewrite !length_app in *; simpl length in *.
    rewrite len_snoc.
    destruct (count_nl v) as [|k] eqn:Hk.
    + replace (line + Z.of_nat (length l' + 1) - 1)%Z with line by lia.
      rewrite Z.eqb_refl; simpl.
      rewrite (after_last_nl_all _ Hk), len_snoc; reflexivity.
    + replace (S k + 1 =? 1) with false by (symmetry; apply Nat.eqb_neq; lia).
      destruct (line =? line + Z.of_nat (length l' + 1) - 1)%Z eqn:Hz;
        [apply Z.eqb_eq in Hz; lia|].
      do 2 f_equal. lia.
  - rewrite Nat.add_0_r.
    assert (Hcnt : count_nl (v ++ [c]) = count_nl v)
      by (rewrite count_nl_snoc, Hc; lia).
    destruct (split_length_last (v ++ [c])) as [Hlen' Hlast'].
    rewrite Hcnt in Hlen'.
    destruct (exists_last (split_nonempty nl (v ++ [c]))) as (l' & x & E).
    rewrite E in *. rewrite last_last in Hlast'. subst x.
    cbn [bind]. rewrite last_item_snoc; cbn [bind].
    rewrite length_app in *; simpl length in *.
    destruct (count_nl v) as [|k] eqn:Hk.
    + replace (line + Z.of_nat (length l' + 1) - 1)%Z with line by lia.
      rewrite Z.eqb_refl; simpl.
      rewrite after_last_nl_all by assumption; reflexivity.
    + replace (S k =? 0) with false by reflexivity.
      destruct (line =? line + Z.of_nat (length l' + 1) - 1)%Z eqn:Hz;
        [apply Z.eqb_eq in Hz; lia|].
      do 2 f_equal. lia.
Qed.

(** C3, as stated, fails: a [NewLine] token ["\n"] at line 3, column 7 ends
    at (3, 8), on its own line, and not at (4, 0). *)
Lemma end_pos_newline_counterexample :
  Token.end_pos (Token.new NEWLINE [nl] (3, 7)%Z []) = Ok (3, 8)%Z
  /\ Token.end_pos (Token.new NEWLINE [nl] (3, 7)%Z []) <> Ok (4, 0)%Z.
Proof. split; [reflexivity | discriminate]. Qed.

(** C3, amended: the end position of every token is derived from its value
    with a final line terminator left out of the count.  With [N] the number
    of line terminators of the value: when the value does not end with one,
    the end is (line, col + length) for [N = 0] and (line + N, length of the
    text after the last terminator) for [N >= 1]; when it ends with one, the
    end is (line, col + length) for [N = 1] and (line + N - 1, length of the
    last physical line with its terminator) for [N >= 2].  A [NewLine]
    ["\n"] at (l, c) ends at (l, c + 1). *)
Theorem end_pos_spec :
  forall tok : Token,
    let v := Token.value tok in
    let line := Token._start_pos_line tok in
    let col := Token._start_pos_col tok in
    (endswith v [nl] = false /\ count_nl v = 0 ->
     Token.end_pos tok = Ok (line, (col + len v)%Z))
    /\ (endswith v [nl] = false /\ 1 <= count_nl v ->
        Token.end_pos tok
        = Ok ((line + Z.of_nat (count_nl v))%Z, len (after_last_nl v)))
    /\ (endswith v [nl] = true /\ count_nl v = 1 ->
        Token.end_pos tok = Ok (line, (col + len v)%Z))
    /\ (endswith v [nl] = true /\ 2 <= count_nl v ->
        Token.end_pos tok
        = Ok ((line + Z.of_nat (count_nl v) - 1)%Z,
              (len (after_last_nl (removelast v)) + 1)%Z))
    /\ (v = [nl] -> Token.end_pos tok = Ok (line, (col + 1)%Z)).
Proof.
  intros tok v line col. subst v line col.
  rewrite end_pos_derived. unfold derived_end.
  repeat split.
  - intros [-> ->]; reflexivity.
  - intros [-> H]. destruct (count_nl (Token.value tok)); [lia|reflexivity].
  - intros [-> ->]; reflexivity.
  - intros [-> H].
    destruct (count_nl (Token.value tok)) as [|[|k]]; [lia|lia|reflexivity].
  - intros ->; reflexivity.
Qed.

(** ** The whole-string entry point *)

Lemma StringIO_concat (s : text) : concat (StringIO s) = s.
Proof.
  induction s as [|c s IH]; simpl; [reflexivity|].
  destruct (Ascii.eqb c nl); simpl; [rewrite IH; reflexivity|].
  destruct (StringIO s) as [|l ls]; simpl in *; subst; reflexivity.
Qed.

Lemma StringIO_snoc_nl (s : text) :
  StringIO ((s ++ [nl]) ++ [nl]) = StringIO (s ++ [nl]) ++ [[nl]].
Proof.
  induction s as [|c s IH]; [reflexivity|].
  simpl. destruct (Ascii.eqb c nl); [simpl in IH; rewrite IH; reflexivity|].
  simpl in IH; rewrite IH.
  destruct (StringIO (s ++ [nl])) eqn:E; [|reflexivity].
  pose proof (StringIO_concat (s ++ [nl])) as Hc. rewrite E in Hc.
  destruct s; discriminate.
Qed.

(** C4, as stated, fails: the source ["\n"] already ends with a line
    terminator, yet the tokenizer is handed the two lines ["\n"], ["\n"],
    and the end marker moves from line 1 to line 2. *)
Lemma source_tokens_appends_counterexample :
  source_tokens [nl] 0 = generate_tokens [[nl]; [nl]] 0
  /\ concat [[nl]; [nl]] <> [nl]
  /\ source_tokens [nl] 0 <> generate_tokens [[nl]] 0.
Proof. repeat split; [discriminate | vm_compute; discriminate]. Qed.

(** C4, amended: [source_tokens] appends one line terminator to every
    source, whether or not the source ends with one: the text handed to the
    line-by-line tokenizer is the source followed by ["\n"], so a source
    that already ends with a terminator gets one more line, ["\n"]. *)
Theorem source_tokens_appends_newline :
  forall (source : text) (line_offset : Z),
    source_tokens source line_offset
    = generate_tokens (StringIO (source ++ [nl])) line_offset
    /\ concat (StringIO (source ++ [nl])) = source ++ [nl]
    /\ (forall body, source = body ++ [nl] ->
        StringIO (source ++ [nl]) = StringIO source ++ [[nl]]).
Proof.
  intros source line_offset. split; [reflexivity|].
  split; [apply StringIO_concat|].
  intros body ->. apply StringIO_snoc_nl.
Qed.

(** ** The badly indented keyword line *)

(** C2, as stated, fails: no token of the run is a [Dedent]. *)
Lemma bad_indent_no_dedent_counterexample :
  exists toks,
    source_tokens bad_indent_source 0 = Ok toks
    /\ Forall (fun t => Token.type t <> DEDENT) toks.
Proof.
  eexists; split; [vm_compute; reflexivity|].
  repeat constructor; discriminate.
Qed.

(** C2, amended: tokenizing ["  pass\nclass X: pass\n"] yields no [Indent]
    and no [Dedent]; the [Name] token of [class] comes right after the
    [NewLine] of the first line.  The first line is never checked for
    indentation, so no level is open when [class] is met. *)
Theorem bad_indent_tokens :
  exists toks,
    source_tokens bad_indent_source 0 = Ok toks
    /\ summary toks
       = [ (NAME, str "pass"); (NEWLINE, [nl]);
           (NAME, str "class"); (NAME, str "X"); (OP, str ":");
           (NAME, str "pass"); (NEWLINE, [nl]);
           (ENDMARKER, []) ].
Proof. eexists; split; vm_compute; reflexivity. Qed.

(** ** Indents and dedents balance *)

Lemma count_type_app (ty : TokenType) (a b : list Token) :
  count_type ty (a ++ b) = count_type ty a + count_type ty b.
Proof. unfold count_type; rewrite filter_app, length_app; reflexivity. Qed.

Lemma count_type_repeat (ty : TokenType) (t : Token) (n : nat) :
  count_type ty (repeat t n) = if is_type ty t then n else 0.
Proof.
  unfold count_type. induction n as [|n IH]; simpl.
  - destruct (is_type ty t); reflexivity.
  - destruct (is_type ty t); simpl; [rewrite IH|]; auto.
Qed.

Ltac count_tokens :=
  repeat rewrite count_type_app; repeat rewrite count_type_repeat;
  cbn [count_type filter is_type Token.type Token.new indent_at dedent_at
       TokenType_eqb length].

Lemma token_outcome_levels line start c tok rest st main st' ctl up :
  token_outcome line start c tok rest st main st' ctl ->
  indents st = up ++ [0] ->
  exists up',
    indents st' = up' ++ [0]
    /\ count_type INDENT main = 0
    /\ count_type DEDENT main + length up' = length up.
Proof.
  intros H Hup.
  destruct H; simpl_locals;
    try (exists up; split; [assumption|]; count_tokens; split; reflexivity).
  - exists up'. rewrite Hup in H0. apply app_inj_tail in H0; destruct H0 as [<- _].
    split; [reflexivity|]. count_tokens. split; [reflexivity|lia].
  - exists up. unfold adjust_paren.
    split; [|count_tokens; split; reflexivity].
    destruct (str_in (c :: tok) (str "([{"));
      [|destruct (str_in (c :: tok) (str ")]}"))]; assumption.
Qed.

Lemma scan_outcome_levels line pos st toks st' ctl up :
  scan_outcome line pos st toks st' ctl ->
  indents st = up ++ [0] ->
  exists up',
    indents st' = up' ++ [0]
    /\ count_type INDENT toks + length up = count_type DEDENT toks + length up'.
Proof.
  intros H Hup.
  destruct H as [c Hnth | ws c tok rest i n up0 up1 b main st' ctl
                          Hs Hws Hup0 Hcnt Hn0 Hb Hout].
  - exists up; split; [assumption|]. count_tokens. reflexivity.
  - rewrite Hup in Hup0. apply app_inj_tail in Hup0; destruct Hup0 as [<- _].
    eapply token_outcome_levels in Hout; [|reflexivity].
    destruct Hout as (up' & Hup' & Hi & Hd).
    exists up'; split; [assumption|]. count_tokens. lia.
Qed.

Lemma length_snoc_sentinel (up : list nat) : length (up ++ [0]) - 1 = length up.
Proof. rewrite length_app; simpl; lia. Qed.

(** Wherever the generator gets, the indents yielded so far are the dedents
    yielded so far plus the levels still open. *)
Lemma levels_invariant (c0 : Config) (toks : list Token) (c : Config) :
  Inv c0 -> open_levels c0 = 0 -> reaches c0 toks c ->
  count_type INDENT toks = count_type DEDENT toks + open_levels c.
Proof.
  intros HI H0 Hr.
  apply (reaches_invariant
           (fun toks c =>
              count_type INDENT toks = count_type DEDENT toks + open_levels c)
           c0 HI); [simpl; rewrite H0; reflexivity| |assumption].
  clear toks c Hr. intros toks c t c' HIc HP Hstep.
  destruct (inv_sentinel c HIc) as (up0 & Hup0).
  unfold open_levels in *.
  destruct Hstep as [up Hloc Hex Hc Hup | up sp Hloc Hex Hc Hup Hsp
                    | line rest Hloc Hin Hne Hc
                    | line rest p sp m tail Hloc Hin Hne Hc Hp Hsp Hline Hm
                    | line rest l Hloc Hin Hne Hc Hl
                    | line pos t st' ctl Hloc Hpos Hout
                    | line pos Hloc Hpos];
    rewrite Hloc in HP; cbn [loc locals] in *; simpl_locals;
    try (rewrite Hup, length_snoc_sentinel in HP);
    try (rewrite Hup0, length_snoc_sentinel in *);
    count_tokens; try lia.
  destruct (scan_outcome_levels _ _ _ _ _ _ _ Hout Hup0) as (up' & Hup' & Hcnt).
  rewrite Hup', length_snoc_sentinel.
  destruct ctl; cbn [next_loc]; lia.
Qed.

(** At the end of the input the last transition yields the pending string,
    if any, as an error token, then one dedent per open level, then the end
    marker. *)
Lemma end_step (c : Config) :
  Inv c -> loc c = AtReadline -> exhausted (input c) ->
  exists err up,
    indents (locals c) = up ++ [0]
    /\ Forall (fun t => Token.type t = ERRORTOKEN) err
    /\ completes c
         (err ++ repeat (dedent_at (lnum (locals c), 0%Z)) (length up)
              ++ [Token.new ENDMARKER [] (lnum (locals c), 0%Z)
                    (prefix (locals c))]).
Proof.
  intros HI Hloc Hex.
  assert (Hnf : loc c <> Finished) by (rewrite Hloc; discriminate).
  destruct (step_spec c HI Hnf) as (t & c' & Hstep & Hout).
  assert (Hdone : forall l, step c = Ok (l, c') -> loc c' = Finished ->
                            completes c l).
  { intros l Hs Hf. rewrite <- (app_nil_r l).
    eapply completes_step; [exact Hnf | exact Hs |].
    apply completes_done; exact Hf. }
  destruct Hout as [up Hl Hex' Hc' Hup | up sp Hl Hex' Hc' Hup Hsp
                   | line rest Hl Hin Hne | line rest p sp m tail Hl Hin Hne
                   | line rest l Hl Hin Hne | line pos t st' ctl Hl
                   | line pos Hl];
    try congruence;
    try (rewrite Hin in Hex; destruct Hex as [Hex|[r Hex]];
         [discriminate | injection Hex as -> _; contradiction]).
  - exists [], up. split; [assumption|]. split; [constructor|].
    apply Hdone; [exact Hstep | reflexivity].
  - exists [Token.new ERRORTOKEN (contstr (locals c)) sp (prefix (locals c))], up.
    split; [assumption|]. split; [repeat constructor|].
    apply Hdone; [exact Hstep | reflexivity].
Qed.

Lemma count_type_none (ty ty' : TokenType) (toks : list Token) :
  Forall (fun t => Token.type t = ty') toks -> TokenType_eqb ty' ty = false ->
  count_type ty toks = 0.
Proof.
  intros H Hne. induction H as [|t toks Ht Htoks IH]; [reflexivity|].
  unfold count_type in *; simpl. unfold is_type at 1. rewrite Ht, Hne.
  exact IH.
Qed.

(** The two lines ["a\n"] and ["  b\n"]: the second opens a level at
    column 2. *)
Lemma one_level_run :
  exists toks c,
    generate_tokens [str "a" ++ [nl]; str "  b" ++ [nl]] 0 = Ok toks
    /\ reaches (initial_config [str "a" ++ [nl]; str "  b" ++ [nl]] 0) toks c
    /\ loc c = Finished
    /\ summary toks
       = [(NAME, str "a"); (NEWLINE, [nl]); (INDENT, []); (NAME, str "b");
          (NEWLINE, [nl]); (DEDENT, []); (ENDMARKER, [])]
    /\ indents (locals c) = [2; 0].
Proof.
  do 2 eexists. split; [vm_compute; reflexivity|]. split; [|split; [|split]].
  - apply (steps_reaches 9). vm_compute. reflexivity.
  - reflexivity.
  - reflexivity.
  - reflexivity.
Qed.

(** C7, as stated, fails: the indentation stack does not return to [[0]].
    After the lines ["a\n"] and ["  b\n"] the run has yielded one [Indent]
    and one [Dedent], and the stack still holds the level 2 above the
    sentinel (the list has its top at the head). *)
Lemma stack_kept_counterexample :
  exists toks c,
    generate_tokens [str "a" ++ [nl]; str "  b" ++ [nl]] 0 = Ok toks
    /\ reaches (initial_config [str "a" ++ [nl]; str "  b" ++ [nl]] 0) toks c
    /\ loc c = Finished
    /\ count_type INDENT toks = 1
    /\ count_type DEDENT toks = 1
    /\ indents (locals c) = [2; 0]
    /\ indents (locals c) <> [0].
Proof.
  destruct one_level_run as (toks & c & Hgen & Hr & Hfin & Hsum & Hind).
  exists toks, c. repeat (split; [assumption|]).
  assert (Hty : map Token.type toks = map fst (summary toks)).
  { unfold summary. rewrite map_map. reflexivity. }
  assert (Hcount : forall ty,
            count_type ty toks
            = length (filter (fun x => TokenType_eqb x ty) (map Token.type toks))).
  { intros ty. unfold count_type, is_type. clear.
    induction toks as [|t toks IH]; [reflexivity|]. cbn [filter map].
    destruct (TokenType_eqb (Token.type t) ty); cbn [length]; rewrite IH;
      reflexivity. }
  rewrite !Hcount, Hty, Hsum, Hind.
  split; [reflexivity|]. split; [reflexivity|]. split; [reflexivity|].
  discriminate.
Qed.

(** C7, amended: over a complete run of any input the tokenizer yields as
    many [Indent] tokens as [Dedent] tokens, the dedents of the recovery
    heuristic and of the end of the stream included.  The indentation stack
    itself is not brought back to its sentinel: when the line source is
    exhausted, the tokens still to come hold no [Indent] and one [Dedent] for
    each level of the stack above the sentinel, and the run ends with the
    stack as it was at that point. *)
Theorem indents_match_dedents :
  forall (lines : list text) (line_offset : Z),
  exists toks,
    generate_tokens lines line_offset = Ok toks
    /\ count_type INDENT toks = count_type DEDENT toks
    /\ forall body c,
         reaches (initial_config lines line_offset) body c ->
         loc c = AtReadline /\ exhausted (input c) ->
         exists flush c',
           toks = body ++ flush
           /\ count_type INDENT flush = 0
           /\ count_type DEDENT flush = length (indents (locals c)) - 1
           /\ reaches (initial_config lines line_offset) toks c'
           /\ loc c' = Finished
           /\ indents (locals c') = indents (locals c).
Proof.
  intros lines line_offset.
  destruct (generate_tokens_completes lines line_offset) as (toks & Hgen & Hc).
  exists toks; split; [assumption|]. split.
  - destruct (completes_reaches _ _ Hc) as (c' & Hr & Hfin).
    rewrite (levels_invariant _ _ _ (initial_config_Inv _ _) eq_refl Hr).
    unfold open_levels; rewrite Hfin; lia.
  - intros body c Hr [Hloc Hex].
    assert (HI : Inv c)
      by (eapply reaches_Inv; [exact Hr | apply initial_config_Inv]).
    assert (Hnf : loc c <> Finished) by (rewrite Hloc; discriminate).
    destruct (end_step c HI Hloc Hex) as (err & up & Hup & Herr & Hflush).
    destruct (reaches_completes _ _ _ Hr _ Hc) as (rest & -> & Hrest).
    rewrite (completes_deterministic _ _ _ Hrest Hflush).
    destruct (step_spec c HI Hnf) as (t & c' & Hstep & Hout).
    assert (Hend : loc c' = Finished /\ locals c' = locals c).
    { destruct Hout as [up1 Hl Hex' | up1 sp Hl Hex'
                       | line rest1 Hl Hin Hne | line rest1 p sp m tail Hl Hin Hne
                       | line rest1 l Hl Hin Hne | line pos t st' ctl Hl
                       | line pos Hl];
        try congruence; try (split; reflexivity);
        rewrite Hin in Hex; destruct Hex as [Hex|[r Hex]];
        [discriminate | injection Hex as -> _; contradiction
        | discriminate | injection Hex as -> _; contradiction
        | discriminate | injection Hex as -> _; contradiction]. }
    destruct Hend as [Hfin Hloc'].
    assert (Ht : completes c t).
    { rewrite <- (app_nil_r t).
      eapply completes_step; [exact Hnf | exact Hstep |].
      apply completes_done; exact Hfin. }
    rewrite <- (completes_deterministic _ _ _ Ht Hflush).
    exists t, c'. split; [reflexivity|].
    rewrite (completes_deterministic _ _ _ Ht Hflush) at 1 2.
    rewrite Hup, length_snoc_sentinel. count_tokens.
    rewrite (count_type_none INDENT ERRORTOKEN err Herr eq_refl).
    rewrite (count_type_none DEDENT ERRORTOKEN err Herr eq_refl).
    split; [lia|]. split; [lia|].
    split; [eapply reaches_step; eassumption|].
    split; [exact Hfin|]. rewrite Hloc', Hup; reflexivity.
Qed.

(** ** Termination *)





(** ** The bracket-nesting depth *)

Lemma fold_depth_repeat (t : Token) (n : nat) (d : Z) :
  depth_step d t = d -> fold_left depth_step (repeat t n) d = d.
Proof. intros H; induction n as [|n IH]; simpl; [|rewrite H]; auto. Qed.

Lemma token_outcome_depth line start c tok rest st main st' ctl :
  token_outcome line start c tok rest st main st' ctl ->
  fold_left depth_step main (paren_level st) = paren_level st'.
Proof.
  intros H; destruct H; simpl_locals; try reflexivity.
  - cbn [fold_left depth_step Token.type Token.value Token.new].
    rewrite H; reflexivity.
  - rewrite fold_left_app, fold_depth_repeat by reflexivity.
    cbn [fold_left depth_step Token.type Token.value Token.new].
    rewrite H; reflexivity.
  - unfold adjust_paren.
    cbn [fold_left depth_step Token.type Token.value Token.new].
    destruct (str_in (c :: tok) (str "([{"));
      [|destruct (str_in (c :: tok) (str ")]}"))]; reflexivity.
Qed.

Lemma scan_outcome_depth line pos st toks st' ctl :
  scan_outcome line pos st toks st' ctl ->
  fold_left depth_step toks (paren_level st) = paren_level st'.
Proof.
  intros H.
  destruct H as [c Hnth | ws c tok rest i n up0 up1 b main st' ctl
                          Hs Hws Hup0 Hcnt Hn0 Hb Hout].
  - reflexivity.
  - rewrite !fold_left_app, !fold_depth_repeat by reflexivity.
    apply (token_outcome_depth _ _ _ _ _ _ _ _ _ Hout).
Qed.

Lemma step_outcome_depth (c : Config) (t : list Token) (c' : Config) :
  step_outcome c t c' ->
  fold_left depth_step t (paren_level (locals c)) = paren_level (locals c').
Proof.
  intros H.
  destruct H as [up Hloc Hex Hc Hup | up sp Hloc Hex Hc Hup Hsp
                | line rest Hloc Hin Hne Hc
                | line rest p sp m tail Hloc Hin Hne Hc Hp Hsp Hline Hm
                | line rest l Hloc Hin Hne Hc Hl
                | line pos t st' ctl Hloc Hpos Hout
                | line pos Hloc Hpos];
    cbn [locals]; simpl_locals; try reflexivity.
  - rewrite fold_left_app, fold_depth_repeat by reflexivity. reflexivity.
  - cbn [app fold_left]. rewrite fold_left_app, fold_depth_repeat by reflexivity.
    reflexivity.
  - apply scan_outcome_depth with (1 := Hout).
Qed.

(** ** What the structural tokens carry *)

Lemma Forall_repeat (A : Type) (P : A -> Prop) (x : A) (n : nat) :
  P x -> Forall P (repeat x n).
Proof. intros H; induction n; simpl; constructor; auto. Qed.

Lemma whitespace_blank (ws : text) :
  matches whitespace ws -> Forall (fun c => is_blank c = true) ws.
Proof. intros H; apply matches_star_chr in H; exact H. Qed.








(** ** The first line and the first token *)

Lemma token_outcome_first line start c tok rest st main st' ctl :
  token_outcome line start c tok rest st main st' ctl ->
  pristine st ->
  first_ok main /\ (main = [] -> pristine st').
Proof.
  intros H (Hnl & Hind & Hpar).
  destruct H; unfold pristine; simpl_locals;
    try solve [split; [split; discriminate | discriminate]];
    try solve [split; [exact I | intros _; auto]].
  - destruct H0 as [H0|H0]; [congruence | contradiction].
  - rewrite Hind in H0. destruct up as [|x up]; [|destruct up; discriminate].
    destruct n; [|simpl in H1; lia].
    split; [split; discriminate | discriminate].
Qed.

Lemma scan_outcome_first line pos st toks st' ctl :
  scan_outcome line pos st toks st' ctl ->
  pristine st ->
  first_ok toks /\ (toks = [] -> pristine st').
Proof.
  intros H Hp. pose proof Hp as (Hnl & Hind & Hpar).
  destruct H as [c Hnth | ws c tok rest i n up0 up1 b main st' ctl
                          Hs Hws Hup0 Hcnt Hn0 Hb Hout].
  - split; [split; discriminate | discriminate].
  - destruct (Hn0 Hnl) as (-> & -> & -> & ->). cbn [repeat app].
    apply token_outcome_first in Hout; [assumption|].
    unfold pristine; simpl_locals. rewrite <- Hup0. auto.
Qed.

Lemma first_ok_app (toks t : list Token) :
  first_ok toks -> (toks = [] -> first_ok t) -> first_ok (toks ++ t).
Proof. destruct toks; simpl; auto. Qed.

(** Until the first token is out the locals ask for no indentation check,
    and the first token is no [Indent] and no [Dedent]. *)
Lemma first_token_invariant (c0 : Config) (toks : list Token) (c : Config) :
  Inv c0 -> pristine (locals c0) -> reaches c0 toks c ->
  first_ok toks /\ (toks = [] -> pristine (locals c)).
Proof.
  intros HI H0 Hr.
  apply (reaches_invariant
           (fun toks c => first_ok toks /\ (toks = [] -> pristine (locals c)))
           c0 HI); [split; [exact I | auto] | | assumption].
  clear toks c Hr. intros toks c t c' _ [Hfirst Hpr] Hstep.
  assert (Hgoal : toks = [] -> first_ok t /\ (t = [] -> pristine (locals c'))).
  { intros ->. specialize (Hpr eq_refl). pose proof Hpr as (Hnl & Hind & Hpar).
    destruct Hstep as [up Hloc Hex Hc Hup | up sp Hloc Hex Hc Hup Hsp
                      | line rest Hloc Hin Hne Hc
                      | line rest p sp m tail Hloc Hin Hne Hc Hp Hsp Hline Hm
                      | line rest l Hloc Hin Hne Hc Hl
                      | line pos t st' ctl Hloc Hpos Hout
                      | line pos Hloc Hpos];
      cbn [locals]; unfold pristine; simpl_locals;
      try solve [split; [exact I | intros _; auto]];
      try solve [split; [split; discriminate | discriminate]].
    - rewrite Hind in Hup. destruct up as [|x up]; [|destruct up; discriminate].
      split; [split; discriminate | discriminate].
    - apply (scan_outcome_first _ _ _ _ _ _ Hout Hpr). }
  split.
  - apply first_ok_app; [assumption | intros E; apply Hgoal; assumption].
  - intros E. apply app_eq_nil in E. destruct E as [E1 E2].
    apply Hgoal; assumption.
Qed.

Lemma token_outcome_no_indent line start c tok rest st main st' ctl :
  token_outcome line start c tok rest st main st' ctl ->
  Forall (fun t => Token.type t <> INDENT) main.
Proof.
  intros H; destruct H;
    try solve [repeat (constructor; try discriminate)].
  apply Forall_app; split; [|repeat (constructor; try discriminate)].
  apply Forall_repeat; discriminate.
Qed.

(** Every [Indent] of a pass carries the number of the line being scanned,
    and a pass that starts with the fresh-line flag down yields none. *)
Lemma scan_outcome_indent_line line pos st toks st' ctl :
  scan_outcome line pos st toks st' ctl ->
  Forall (fun t => Token.type t = INDENT -> Token._start_pos_line t = lnum st)
         toks
  /\ (new_line st = false -> Forall (fun t => Token.type t <> INDENT) toks).
Proof.
  intros H.
  destruct H as [c Hnth | ws c tok rest i n up0 up1 b main st' ctl
                          Hs Hws Hup0 Hcnt Hn0 Hb Hout].
  - split; [|intros _]; repeat constructor; discriminate.
  - pose proof (token_outcome_no_indent _ _ _ _ _ _ _ _ _ Hout) as Hmain.
    split.
    + apply Forall_app; split; [apply Forall_repeat; reflexivity|].
      apply Forall_app; split; [apply Forall_repeat; discriminate|].
      eapply Forall_impl; [|exact Hmain]. intros t Ht E; contradiction.
    + intros Hnl. destruct (Hn0 Hnl) as (-> & -> & _). exact Hmain.
Qed.

(** After a pass the fresh-line flag is up only if it was up before or the
    pass has matched a line terminator. *)
Lemma token_outcome_new_line line start c tok rest st main st' ctl :
  token_outcome line start c tok rest st main st' ctl ->
  new_line st = false ->
  new_line st' = false
  \/ ((c :: tok = [nl] \/ c :: tok = [cr; nl])
      /\ ctl = Again (start + S (length tok))).
Proof.
  intros H Hnl; destruct H; simpl_locals; auto.
  unfold adjust_paren.
  destruct (str_in (c :: tok) (str "([{"));
    [|destruct (str_in (c :: tok) (str ")]}"))]; auto.
Qed.

Lemma physical_rest (line : text) (pos : nat) (ws tok rest : text) :
  physical line -> skipn pos line = ws ++ tok ++ rest ->
  (tok = [nl] \/ tok = [cr; nl]) -> rest = [].
Proof.
  intros Hphys Hs Htok.
  rewrite <- (firstn_skipn pos line) in Hphys. rewrite Hs in Hphys.
  destruct Htok as [-> | ->].
  - apply (Hphys (firstn pos line ++ ws) rest).
    rewrite <- app_assoc; reflexivity.
  - apply (Hphys (firstn pos line ++ ws ++ [cr]) rest).
    rewrite <- !app_assoc; reflexivity.
Qed.

Lemma scan_outcome_new_line line pos st toks st' ctl :
  scan_outcome line pos st toks st' ctl ->
  pos <= length line -> physical line -> new_line st = false ->
  new_line st' = false
  \/ exists pos', ctl = Again pos' /\ length line <= pos'.
Proof.
  intros H Hpos Hphys Hnl.
  destruct H as [c Hnth | ws c tok rest i n up0 up1 b main st' ctl
                          Hs Hws Hup0 Hcnt Hn0 Hb Hout].
  - left; assumption.
  - destruct (Hn0 Hnl) as (_ & _ & _ & ->).
    apply token_outcome_new_line in Hout; [|reflexivity].
    destruct Hout as [Hout | [Hshape ->]]; [left; assumption|].
    right; eexists; split; [reflexivity|].
    pose proof (physical_rest _ _ _ _ _ Hphys Hs Hshape) as ->.
    assert (E : length (skipn pos line) = length line - pos)
      by apply length_skipn.
    rewrite Hs, !length_app in E; simpl in E. lia.
Qed.

Lemma no_indent_app (off : Z) (a b : list Token) :
  no_indent_on_first_line off a -> no_indent_on_first_line off b ->
  no_indent_on_first_line off (a ++ b).
Proof.
  intros Ha Hb t Hin. apply in_app_or in Hin. destruct Hin; auto.
Qed.

Lemma no_indent_of_Forall (off : Z) (toks : list Token) :
  Forall (fun t => Token.type t <> INDENT) toks ->
  no_indent_on_first_line off toks.
Proof.
  intros H t Hin Hty. rewrite Forall_forall in H. destruct (H t Hin Hty).
Qed.

(** With a physical first line, no [Indent] is yielded for it. *)
Lemma first_line_invariant (lines : list text) (off : Z)
  (toks : list Token) (c : Config) :
  (forall line, hd_error lines = Some line -> physical line) ->
  reaches (initial_config lines off) toks c ->
  no_indent_on_first_line off toks /\ first_line_phase lines off c.
Proof.
  intros Hphys Hr.
  apply (reaches_invariant
           (fun toks c =>
              no_indent_on_first_line off toks /\ first_line_phase lines off c)
           (initial_config lines off) (initial_config_Inv _ _));
    [split; [intros t [] | left; auto] | | assumption].
  clear toks c Hr. intros toks c t c' HI [Htoks Hphase] Hstep.
  assert (Hgoal : no_indent_on_first_line off t /\ first_line_phase lines off c');
    [|destruct Hgoal; split; [apply no_indent_app|]; assumption].
  unfold first_line_phase in *.
  destruct Hstep as [up Hloc Hex Hc Hup | up sp Hloc Hex Hc Hup Hsp
                    | line rest Hloc Hin Hne Hc
                    | line rest p sp m tail Hloc Hin Hne Hc Hp Hsp Hline Hm
                    | line rest l Hloc Hin Hne Hc Hl
                    | line pos t st' ctl Hloc Hpos Hout
                    | line pos Hloc Hpos];
    cbn [locals loc input]; simpl_locals.
  - split; [|right; right; right; reflexivity].
    apply no_indent_of_Forall, Forall_app; split;
      [apply Forall_repeat; discriminate | repeat constructor; discriminate].
  - split; [|right; right; right; reflexivity].
    apply no_indent_of_Forall. constructor; [discriminate|].
    apply Forall_app; split;
      [apply Forall_repeat; discriminate | repeat constructor; discriminate].
  - split; [intros x []|].
    destruct Hphase as [(_ & Hinit & Hlines) | [(l0 & p0 & Hl0 & _)
                       | [(Hge & _) | Hfin]]]; try congruence.
    + right; left. exists line, 0. rewrite Hinit; simpl.
      rewrite <- Hlines, Hin. auto.
    + right; right; left. split; [lia|]. intros; lia.
  - split; [apply no_indent_of_Forall; repeat constructor; discriminate|].
    destruct Hphase as [(_ & Hinit & _) | [(l0 & p0 & Hl0 & _)
                       | [(Hge & _) | Hfin]]]; try congruence.
    + rewrite Hinit in Hc; contradiction Hc; reflexivity.
    + right; right; left. split; [lia|]. intros; lia.
  - split; [intros x []|].
    destruct Hphase as [(_ & Hinit & _) | [(l0 & p0 & Hl0 & _)
                       | [(Hge & _) | Hfin]]]; try congruence.
    + rewrite Hinit in Hc; contradiction Hc; reflexivity.
    + right; right; left. split; [lia|]. discriminate.
  - destruct (inv_scan c HI _ _ Hloc) as [Hc Hle].
    destruct (scan_outcome_frame _ _ _ _ _ _ Hout Hpos Hc (inv_sentinel c HI))
      as (_ & Hlnum & _).
    destruct (scan_outcome_indent_line _ _ _ _ _ _ Hout) as [Hline Hnone].
    destruct Hphase as [(Hl0 & _) | [(l0 & p0 & Hl0 & Hl1 & Hhd & Hnl)
                       | [(Hge & Hge2) | Hfin]]]; try congruence.
    + rewrite Hloc in Hl0; injection Hl0 as <- <-.
      destruct Hnl as [Hnl|Hnl]; [|lia].
      split; [apply no_indent_of_Forall; auto|].
      destruct ctl as [pos'|]; cbn [next_loc].
      * right; left. exists line, pos'.
        split; [reflexivity|]. split; [congruence|]. split; [assumption|].
        destruct (scan_outcome_new_line _ _ _ _ _ _ Hout Hle (Hphys _ Hhd) Hnl)
          as [H|(p' & [= <-] & H)]; auto.
      * right; right; left. split; [lia|]. discriminate.
    + specialize (Hge2 _ _ Hloc).
      split.
      * intros x Hx Hty. rewrite Forall_forall in Hline.
        rewrite (Hline x Hx Hty). lia.
      * right; right; left. split; [lia|]. intros; lia.
  - split; [intros x []|].
    destruct Hphase as [(Hl0 & _) | [(l0 & p0 & Hl0 & Hl1 & _)
                       | [(Hge & _) | Hfin]]]; try congruence;
      right; right; left; (split; [lia | discriminate]).
Qed.

Lemma StringIO_physical (s : text) : Forall physical (StringIO s).
Proof.
  induction s as [|c s IH]; simpl; [constructor|].
  destruct (Ascii.eqb c nl) eqn:Hc.
  - apply Ascii.eqb_eq in Hc; subst c. constructor; [|assumption].
    intros a b E. destruct a as [|x a]; [injection E as <-; reflexivity|].
    injection E as _ E. destruct a; discriminate.
  - assert (Hne : c <> nl) by (intros ->; rewrite Ascii.eqb_refl in Hc; discriminate).
    destruct (StringIO s) as [|l ls].
    + constructor; [|constructor].
      intros a b E. destruct a as [|x a]; [injection E as ->; contradiction|].
      injection E as _ E. destruct a; discriminate.
    + inversion IH as [|? ? Hl Hls]; subst. constructor; [|assumption].
      intros a b E. destruct a as [|x a]; [injection E as ->; contradiction|].
      injection E as _ E. apply (Hl a b E).
Qed.

Lemma completes_nonempty (c : Config) (toks : list Token) :
  completes c toks -> Inv c -> loc c <> Finished -> toks <> [].
Proof.
  induction 1 as [c Hl | c t c' toks Hl Hs Hc IH]; intros HI Hnf;
    [contradiction|].
  pose proof (step_outcome_of_step c t c' HI Hnf Hs) as Hout.
  destruct (step_outcome_progress c t c' Hout HI) as [HI' _].
  intros E; apply app_eq_nil in E; destruct E as [Et Etoks].
  destruct (loc c') eqn:Hloc'.
  - apply IH; auto; congruence.
  - apply IH; auto; congruence.
  - destruct Hout as [up | up sp | line rest | line rest p sp m tail
                     | line rest l | line pos t st' ctl | line pos];
      cbn [loc] in Hloc'; try discriminate.
    + apply app_eq_nil in Et; destruct Et; discriminate.
    + destruct ctl; discriminate.
Qed.

Lemma generate_tokens_first (lines : list text) (off : Z) :
  exists toks,
    generate_tokens lines off = Ok toks
    /\ (exists t rest,
          toks = t :: rest
          /\ Token.type t <> INDENT /\ Token.type t <> DEDENT)
    /\ ((forall line, hd_error lines = Some line -> physical line) ->
        no_indent_on_first_line off toks).
Proof.
  destruct (generate_tokens_completes lines off) as (toks & Hgen & Hc).
  exists toks; split; [assumption|].
  destruct (completes_reaches _ _ Hc) as (c' & Hr & Hfin).
  split.
  - destruct (first_token_invariant _ _ _ (initial_config_Inv _ _)
                (conj eq_refl (conj eq_refl eq_refl)) Hr) as [Hfirst Hpr].
    destruct toks as [|t rest]; [|exists t, rest; simpl in Hfirst; tauto].
    exfalso.
    apply (completes_nonempty _ _ Hc (initial_config_Inv _ _));
      [discriminate | reflexivity].
  - intros Hphys.
    apply (first_line_invariant lines off toks c' Hphys Hr).
Qed.

(** C10: indentation is never evaluated on the first physical line.  For
    every sequence of lines the first token of the run is neither an [Indent]
    nor a [Dedent] (the fresh-line flag starts false and is raised only by a
    scanned line terminator), and when the first line is a physical line no
    [Indent] token carries its line number, whatever whitespace leads it; the
    whole-string entry point always hands over physical lines. *)
Theorem first_line_never_indented :
  (forall (lines : list text) (line_offset : Z),
    exists toks,
      generate_tokens lines line_offset = Ok toks
      /\ (exists t rest,
            toks = t :: rest
            /\ Token.type t <> INDENT /\ Token.type t <> DEDENT)
      /\ ((forall line, hd_error lines = Some line -> physical line) ->
          forall t, In t toks -> Token.type t = INDENT ->
                    Token._start_pos_line t <> (line_offset + 1)%Z))
  /\ (forall (source : text) (line_offset : Z),
       exists toks,
         source_tokens source line_offset = Ok toks
         /\ (exists t rest,
               toks = t :: rest
               /\ Token.type t <> INDENT /\ Token.type t <> DEDENT)
         /\ forall t, In t toks -> Token.type t = INDENT ->
                      Token._start_pos_line t <> (line_offset + 1)%Z).
Proof.
  split.
  - intros lines line_offset. apply generate_tokens_first.
  - intros source line_offset. unfold source_tokens.
    destruct (generate_tokens_first (StringIO (source ++ [nl])) line_offset)
      as (toks & Hgen & Hfirst & Hline).
    exists toks; split; [assumption|]. split; [assumption|].
    apply Hline. intros line Hhd.
    pose proof (StringIO_physical (source ++ [nl])) as Hall.
    destruct (StringIO (source ++ [nl])) as [|l ls]; [discriminate|].
    injection Hhd as <-. inversion Hall; assumption.
Qed.

(** An indented first line, ["    x"], yields [Name], [NewLine], [EndMarker]. *)
Lemma first_line_never_indented_witness :
  exists toks,
    source_tokens (str "    x") 0 = Ok toks
    /\ summary toks = [(NAME, str "x"); (NEWLINE, [nl]); (ENDMARKER, [])]
    /\ forall t, In t toks -> Token.type t = INDENT ->
                 Token._start_pos_line t <> (0 + 1)%Z.
Proof.
  destruct (proj2 first_line_never_indented (str "    x") 0%Z)
    as (toks & Hgen & _ & Hline).
  exists toks. split; [exact Hgen|]. split; [|exact Hline].
  assert (E : source_tokens (str "    x") 0 =
              Ok [Token.new NAME (str "x") (1, 4)%Z (str "    ");
                  Token.new NEWLINE [nl] (1, 5)%Z [];
                  Token.new ENDMARKER [] (1, 0)%Z []])
    by (vm_compute; reflexivity).
  rewrite E in Hgen. injection Hgen as <-. reflexivity.
Defined.

(** ** The string left open at the end of the input *)







(** ** The round trip *)

Lemma covers_structurals (ts toks : list Token) (s : text) :
  Forall (fun t => structural t = true) ts -> covers toks s ->
  covers (ts ++ toks) s.
Proof.
  induction 1 as [|t ts Ht Hts IH]; intros Hc; simpl; [assumption|].
  apply covers_structural; auto.
Qed.

Lemma covers_token_eq (t : Token) (toks : list Token) (s s' : text) :
  structural t = false -> covers toks s ->
  s' = Token.prefix t ++ Token.value t ++ s ->
  covers (t :: toks) s'.
Proof. intros Ht Hc ->; apply covers_token; assumption. Qed.

Lemma covers_silent_eq (ws seg : text) (toks : list Token) (s s' : text) :
  Forall (fun c => is_blank c = true) ws -> silent seg -> covers toks s ->
  s' = ws ++ seg ++ s ->
  covers toks s'.
Proof. intros Hws Hseg Hc ->; apply covers_silent; assumption. Qed.

Lemma structural_repeat_dedent (spos : Z * Z) (n : nat) :
  Forall (fun t => structural t = true) (repeat (dedent_at spos) n).
Proof. apply Forall_repeat; reflexivity. Qed.

Lemma structural_repeat_indent (spos : Z * Z) (n : nat) :
  Forall (fun t => structural t = true) (repeat (indent_at spos) n).
Proof. apply Forall_repeat; reflexivity. Qed.

(** A matched token and what follows it account for the whitespace, the
    token and the rest of the text. *)
Lemma token_outcome_covers line start c tok rest st main st' ctl :
  token_outcome line start c tok rest st main st' ctl ->
  skipn start line = (c :: tok) ++ rest ->
  start <= length line ->
  Forall (fun x => is_blank x = true) (prefix st) ->
  contstr st = [] ->
  forall toks u,
    covers toks (remaining_at st' (next_loc line ctl) u) ->
    covers (main ++ toks) (prefix st ++ (c :: tok) ++ rest ++ u).
Proof.
  intros H Hsk Hle Hblank Hcs toks u.
  destruct (skipn_decompose _ _ _ _ _ Hsk Hle) as [Hrest _].
  assert (Hagain : remaining_at st (AtScan line (start + S (length tok))) u
                   = rest ++ u).
  { cbn [remaining_at]. cbn [length] in Hrest. rewrite Hrest; reflexivity. }
  destruct H; cbn [next_loc]; simpl_locals;
    try (rewrite Hagain || (cbn [remaining_at]; cbn [length] in Hrest;
                            try rewrite Hrest));
    intros Hc.
  - eapply covers_token_eq; [reflexivity | exact Hc | reflexivity].
  - eapply covers_token_eq; [reflexivity | exact Hc | reflexivity].
  - apply (covers_silent_eq (prefix st) (c :: tok) toks (rest ++ u));
      [exact Hblank | | exact Hc | reflexivity].
    apply silent_line_end; assumption.
  - apply (covers_silent_eq (prefix st) (c :: tok) toks (rest ++ u));
      [exact Hblank | | exact Hc | reflexivity].
    subst c; apply silent_comment; assumption.
  - subst rest.
    assert (E : skipn (start + S (length tok) + length m) line = rest').
    { rewrite skipn_add. cbn [length] in *.
      rewrite Hrest, skipn_app, skipn_all, Nat.sub_diag; reflexivity. }
    rewrite E in Hc.
    eapply covers_token_eq; [reflexivity | exact Hc |].
    cbn [Token.prefix Token.value Token.new]. simpl_locals.
    rewrite <- !app_assoc. reflexivity.
  - simpl_locals. change (nonempty ((c :: tok) ++ rest)) with true in Hc.
    cbv iota in Hc. rewrite <- !app_assoc in Hc. exact Hc.
  - eapply covers_token_eq; [reflexivity | exact Hc | reflexivity].
  - simpl_locals. change (nonempty ((c :: tok) ++ rest)) with true in Hc.
    cbv iota in Hc. rewrite <- !app_assoc in Hc. exact Hc.
  - eapply covers_token_eq; [reflexivity | exact Hc | reflexivity].
  - rewrite <- app_assoc. apply covers_structurals;
      [apply structural_repeat_dedent|].
    eapply covers_token_eq; [reflexivity | exact Hc | reflexivity].
  - subst rest.
    apply (covers_silent_eq (prefix st) (c :: tok) toks ([] ++ u));
      [exact Hblank | | exact Hc | reflexivity].
    rewrite H; apply silent_continuation.
  - assert (Hp : prefix (adjust_paren (c :: tok) st) = prefix st).
    { unfold adjust_paren.
      destruct (str_in (c :: tok) (str "([{"));
        [|destruct (str_in (c :: tok) (str ")]}"))]; reflexivity. }
    eapply covers_token_eq; [reflexivity | exact Hc |].
    cbn [Token.prefix Token.value Token.new]. rewrite Hp. reflexivity.
Qed.

Lemma nth_error_skipn_cons (A : Type) (n : nat) (l : list A) (x : A) :
  nth_error l n = Some x -> skipn n l = x :: skipn (n + 1) l.
Proof.
  revert l; induction n as [|n IH]; intros [|y l]; simpl; intros H;
    try discriminate.
  - injection H as ->; reflexivity.
  - apply IH; assumption.
Qed.

Lemma scan_outcome_covers line pos st toks st' ctl :
  scan_outcome line pos st toks st' ctl ->
  pos <= length line -> contstr st = [] ->
  forall rest_toks u,
    covers rest_toks (remaining_at st' (next_loc line ctl) u) ->
    covers (toks ++ rest_toks) (skipn pos line ++ u).
Proof.
  intros H Hpos Hcs rest_toks u Hc.
  destruct H as [c Hnth | ws c tok rest i n up0 up1 b main st' ctl
                          Hs Hws Hup0 Hcnt Hn0 Hb Hout].
  - cbn [next_loc remaining_at] in Hc.
    rewrite (nth_error_skipn_cons _ _ _ _ Hnth).
    destruct (char_in c [dquote; squote]) eqn:Hq.
    + apply (covers_open_quote _ c (skipn (pos + 1) line) rest_toks u);
        auto; reflexivity.
    + apply (covers_token_eq _ rest_toks (skipn (pos + 1) line ++ u));
        [reflexivity | exact Hc | reflexivity].
  - destruct (skipn_decompose _ _ _ _ _ Hs Hpos) as [Hsk Hlen].
    rewrite Hs, <- !app_assoc.
    apply covers_structurals; [apply structural_repeat_indent|].
    apply covers_structurals; [apply structural_repeat_dedent|].
    apply (token_outcome_covers _ _ _ _ _ _ _ _ _ Hout Hsk);
      [lia | apply whitespace_blank; exact Hws | exact Hcs | exact Hc].
Qed.

Lemma unread_exhausted (input : list text) : exhausted input -> unread input = [].
Proof. intros [-> | [rest ->]]; reflexivity. Qed.

Lemma unread_cons (line : text) (rest : list text) :
  line <> [] -> unread (line :: rest) = line ++ unread rest.
Proof. destruct line; [contradiction|reflexivity]. Qed.

(** The tokens of a run from [c] account for the text that remains at [c]. *)
Lemma completes_covers (c : Config) (toks : list Token) :
  completes c toks -> Inv c -> covers toks (remaining c).
Proof.
  induction 1 as [c Hloc | c t c' toks Hnf Hstep Hc IH]; intros HI.
  - unfold remaining; rewrite Hloc; constructor.
  - pose proof (step_outcome_of_step c t c' HI Hnf Hstep) as Hout.
    destruct (step_outcome_progress c t c' Hout HI) as [HI' _].
    specialize (IH HI'). unfold remaining in *.
    destruct Hout as [up Hloc Hex Hcs Hup | up sp Hloc Hex Hcs Hup Hsp
                     | line rest Hloc Hin Hne Hcs
                     | line rest p sp m tail Hloc Hin Hne Hcs Hp Hsp Hline Hm
                     | line rest l Hloc Hin Hne Hcs Hl
                     | line pos t st' ctl Hloc Hpos Hout
                     | line pos Hloc Hpos];
      rewrite Hloc; cbn [locals loc input remaining_at] in *; simpl_locals.
    + rewrite (unread_exhausted _ Hex), Hcs; simpl.
      rewrite <- app_assoc. apply covers_structurals;
        [apply structural_repeat_dedent|].
      apply covers_structural; [reflexivity | exact IH].
    + rewrite (unread_exhausted _ Hex).
      apply nonempty_true in Hcs; rewrite Hcs.
      rewrite <- !app_assoc.
      eapply covers_token_eq; [reflexivity | | reflexivity].
      apply covers_structurals; [apply structural_repeat_dedent|].
      apply covers_structural; [reflexivity | exact IH].
    + rewrite Hin, (unread_cons _ _ Hne), Hcs. exact IH.
    + rewrite Hin, (unread_cons _ _ Hne).
      apply nonempty_true in Hcs; rewrite Hcs.
      assert (E : skipn (length m) line = tail).
      { subst line. rewrite skipn_app, skipn_all, Nat.sub_diag; reflexivity. }
      rewrite E in IH.
      eapply covers_token_eq; [reflexivity | exact IH |].
      cbn [Token.prefix Token.value Token.new]. subst line.
      rewrite <- !app_assoc. reflexivity.
    + rewrite Hin, (unread_cons _ _ Hne).
      apply nonempty_true in Hcs; rewrite Hcs.
      assert (E : nonempty (contstr (locals c) ++ line) = true).
      { apply nonempty_true. destruct line; [contradiction|].
        apply not_eq_sym, app_cons_not_nil. }
      rewrite E in IH. rewrite <- !app_assoc in *. exact IH.
    + destruct (inv_scan c HI _ _ Hloc) as [Hcs Hle].
      apply (scan_outcome_covers _ _ _ _ _ _ Hout Hle Hcs). exact IH.
    + destruct (inv_scan c HI _ _ Hloc) as [Hcs Hle].
      rewrite Hcs in IH. rewrite skipn_all2 by assumption. exact IH.
Qed.

Lemma StringIO_lines_nonempty (s : text) :
  Forall (fun l => l <> []) (StringIO s).
Proof.
  induction s as [|c s IH]; simpl; [constructor|].
  destruct (Ascii.eqb c nl); [constructor; [discriminate | assumption]|].
  destruct (StringIO s) as [|l ls]; [repeat constructor; discriminate|].
  inversion IH; subst. constructor; [discriminate | assumption].
Qed.

Lemma unread_concat (ls : list text) :
  Forall (fun l => l <> []) ls -> unread ls = concat ls.
Proof.
  induction 1 as [|l ls Hl Hls IH]; [reflexivity|].
  rewrite (unread_cons _ _ Hl), IH; reflexivity.
Qed.

Lemma unread_StringIO (s : text) : unread (StringIO s) = s.
Proof.
  rewrite (unread_concat _ (StringIO_lines_nonempty s)). apply StringIO_concat.
Qed.

(** The prefix variable, and with it every prefix, holds whitespace only. *)
Lemma token_outcome_prefixes line start c tok rest st main st' ctl :
  token_outcome line start c tok rest st main st' ctl ->
  blank_text (prefix st) ->
  Forall (fun t => blank_text (Token.prefix t)) main /\ prefix st' = prefix st.
Proof.
  intros H Hp; destruct H; simpl_locals;
    try solve [split; [repeat (constructor; try exact Hp) | reflexivity]].
  - split; [|reflexivity]. apply Forall_app; split.
    + apply Forall_repeat; constructor.
    + repeat (constructor; try exact Hp).
  - unfold adjust_paren.
    destruct (str_in (c :: tok) (str "([{"));
      [|destruct (str_in (c :: tok) (str ")]}"))];
      (split; [repeat (constructor; try exact Hp) | reflexivity]).
Qed.

Lemma scan_outcome_prefixes line pos st toks st' ctl :
  scan_outcome line pos st toks st' ctl ->
  blank_text (prefix st) ->
  Forall (fun t => blank_text (Token.prefix t)) toks /\ blank_text (prefix st').
Proof.
  intros H Hpre.
  destruct H as [c Hnth | ws c tok rest i n up0 up1 b main st' ctl
                          Hs Hws Hup0 Hcnt Hn0 Hb Hout].
  - split; [repeat constructor | assumption].
  - apply whitespace_blank in Hws.
    apply token_outcome_prefixes in Hout; [|exact Hws].
    destruct Hout as [Hmain Hp]. simpl_locals. split.
    + apply Forall_app; split; [apply Forall_repeat; constructor|].
      apply Forall_app; split; [apply Forall_repeat; constructor|].
      assumption.
    + rewrite Hp; exact Hws.
Qed.

Lemma prefixes_invariant (c0 : Config) (toks : list Token) (c : Config) :
  Inv c0 -> blank_text (prefix (locals c0)) ->
  reaches c0 toks c ->
  Forall (fun t => blank_text (Token.prefix t)) toks
  /\ blank_text (prefix (locals c)).
Proof.
  intros HI H0 Hr.
  apply (reaches_invariant
           (fun toks c =>
              Forall (fun t => blank_text (Token.prefix t)) toks
              /\ blank_text (prefix (locals c)))
           c0 HI); [split; [constructor | assumption] | | assumption].
  clear toks c Hr. intros toks c t c' _ [Htoks Hpre] Hstep.
  rewrite Forall_app.
  destruct Hstep as [up Hloc Hex Hc Hup | up sp Hloc Hex Hc Hup Hsp
                    | line rest Hloc Hin Hne Hc
                    | line rest p sp m tail Hloc Hin Hne Hc Hp Hsp Hline Hm
                    | line rest l Hloc Hin Hne Hc Hl
                    | line pos t st' ctl Hloc Hpos Hout
                    | line pos Hloc Hpos];
    cbn [locals]; simpl_locals;
    try solve [split; [split; [assumption | repeat (constructor; try exact Hpre)]
                      | assumption]].
  - split; [|assumption]. split; [assumption|].
    apply Forall_app; split; [apply Forall_repeat; constructor|].
    repeat (constructor; try exact Hpre).
  - split; [|assumption]. split; [assumption|].
    constructor; [exact Hpre|].
    apply Forall_app; split; [apply Forall_repeat; constructor|].
    repeat (constructor; try exact Hpre).
  - destruct (scan_outcome_prefixes _ _ _ _ _ _ Hout Hpre) as [Ht Hp'].
    split; [split|]; assumption.
Qed.

(** The pass for a character at which the pseudo-token pattern does not
    match: one error token, and the scan goes on one character further. *)
Lemma error_pass (c : Config) (line : text) (pos : nat) :
  loc c = AtScan line pos -> pos < length line ->
  pseudoprog_match line pos = None ->
  exists q,
    nth_error line pos = Some q
    /\ step c
       = Ok ([Token.new ERRORTOKEN
                (if char_in q [dquote; squote] then skipn pos line else [q])
                (lnum (locals c), Z.of_nat pos) []],
             mkConfig (locals c) (AtScan line (pos + 1)) (input c)).
Proof.
  intros Hloc Hpos Hm.
  destruct (nth_error line pos) as [q|] eqn:Hq.
  2: { apply nth_error_None in Hq. lia. }
  exists q. split; [reflexivity|].
  unfold step. rewrite Hloc.
  apply Nat.ltb_lt in Hpos. rewrite Hpos.
  unfold scan. rewrite Hm, Hq. reflexivity.
Qed.

(** C1, as stated, fails.  On the source ["#c"] the only text-bearing token
    is the [NewLine]: the comment is in no prefix.  On the source ["'a"] the
    error token holds the whole rest of the line, which is then scanned
    again, so the concatenation repeats it. *)
Lemma round_trip_counterexample :
  (exists toks,
      source_tokens (str "#c") 0 = Ok toks
      /\ joined toks = [nl]
      /\ joined toks <> str "#c"
      /\ joined toks <> str "#c" ++ [nl])
  /\ (exists toks,
        source_tokens (str "'a") 0 = Ok toks
        /\ joined toks = str "'a" ++ [nl] ++ str "a" ++ [nl]
        /\ joined toks <> str "'a"
        /\ joined toks <> str "'a" ++ [nl]).
Proof.
  split; eexists;
    (split; [vm_compute; reflexivity|]);
    (split; [reflexivity|]); split; discriminate.
Qed.

(** C1, amended: for every input the emitted tokens account, in order, for
    the text handed to the tokenizer (for a source string, the source
    followed by ["\n"]): a structural token ([Indent], [Dedent], [EndMarker])
    accounts for nothing and every other token for its prefix followed by its
    value, except that whitespace followed by a comment, by a line terminator
    for which no [NewLine] is yielded, or by a backslash continuation is
    accounted for by no token; and every prefix holds whitespace only, so
    comment text is in no prefix.  The [ErrorToken] for a quote that opens no
    literal has the rest of its line as its value and accounts for the quote
    alone: the tokens after it account for the text from the character after
    the quote on, the later lines included.  Such is the pass at a character
    where the pseudo-token pattern does not match: its one token is an
    [ErrorToken] without prefix, for a quote with the text from the quote to
    the end of the line and for any other character with that character, and
    the scan goes on at the next character. *)
Theorem round_trip_up_to_silent_text :
  (forall (lines : list text) (line_offset : Z),
    exists toks,
      generate_tokens lines line_offset = Ok toks
      /\ covers toks (unread lines)
      /\ Forall (fun t => blank_text (Token.prefix t)) toks)
  /\ (forall (source : text) (line_offset : Z),
       exists toks,
         source_tokens source line_offset = Ok toks
         /\ covers toks (source ++ [nl])
         /\ Forall (fun t => blank_text (Token.prefix t)) toks)
  /\ (forall (c : Config) (line : text) (pos : nat),
       loc c = AtScan line pos /\ pos < length line
       /\ pseudoprog_match line pos = None ->
       exists q,
         nth_error line pos = Some q
         /\ step c
            = Ok ([Token.new ERRORTOKEN
                     (if char_in q [dquote; squote] then skipn pos line
                      else [q])
                     (lnum (locals c), Z.of_nat pos) []],
                  mkConfig (locals c) (AtScan line (pos + 1)) (input c))).
Proof.
  assert (H : forall lines line_offset,
             exists toks,
               generate_tokens lines line_offset = Ok toks
               /\ covers toks (unread lines)
               /\ Forall (fun t => blank_text (Token.prefix t)) toks).
  { intros lines line_offset.
    destruct (generate_tokens_completes lines line_offset) as (toks & Hgen & Hc).
    exists toks; split; [assumption|]. split.
    - apply (completes_covers _ _ Hc (initial_config_Inv _ _)).
    - destruct (completes_reaches _ _ Hc) as (c' & Hr & _).
      apply (prefixes_invariant _ _ _ (initial_config_Inv _ _)
               (Forall_nil _) Hr). }
  split; [exact H|]. split.
  - intros source line_offset. unfold source_tokens.
    destruct (H (StringIO (source ++ [nl])) line_offset)
      as (toks & Hgen & Hc & Hp).
    rewrite unread_StringIO in Hc. eauto.
  - intros c line pos (Hloc & Hpos & Hm).
    apply error_pass; assumption.
Qed.

(** ** The end marker *)

Lemma token_outcome_no_endmarker line start c tok rest st main st' ctl :
  token_outcome line start c tok rest st main st' ctl ->
  count_type ENDMARKER main = 0.
Proof. intros H; destruct H; count_tokens; reflexivity. Qed.

Lemma scan_outcome_no_endmarker line pos st toks st' ctl :
  scan_outcome line pos st toks st' ctl -> count_type ENDMARKER toks = 0.
Proof.
  intros H.
  destruct H as [c Hnth | ws c tok rest i n up0 up1 b main st' ctl
                          Hs Hws Hup0 Hcnt Hn0 Hb Hout].
  - reflexivity.
  - count_tokens. apply (token_outcome_no_endmarker _ _ _ _ _ _ _ _ _ Hout).
Qed.

Lemma endmarker_invariant (c0 : Config) (toks : list Token) (c : Config) :
  Inv c0 -> loc c0 <> Finished -> reaches c0 toks c ->
  count_type ENDMARKER toks
  = match loc c with Finished => 1 | _ => 0 end.
Proof.
  intros HI H0 Hr.
  apply (reaches_invariant
           (fun toks c => count_type ENDMARKER toks
                          = match loc c with Finished => 1 | _ => 0 end)
           c0 HI); [destruct (loc c0); [reflexivity..|contradiction] | | assumption].
  clear toks c Hr. intros toks c t c' _ HP Hstep.
  rewrite count_type_app, HP.
  destruct Hstep as [up Hloc Hex Hc Hup | up sp Hloc Hex Hc Hup Hsp
                    | line rest Hloc Hin Hne Hc
                    | line rest p sp m tail Hloc Hin Hne Hc Hp Hsp Hline Hm
                    | line rest l Hloc Hin Hne Hc Hl
                    | line pos t st' ctl Hloc Hpos Hout
                    | line pos Hloc Hpos];
    rewrite Hloc; cbn [loc]; count_tokens; try reflexivity.
  rewrite (scan_outcome_no_endmarker _ _ _ _ _ _ Hout).
  destruct ctl; reflexivity.
Qed.

Lemma completes_last (c : Config) (toks : list Token) :
  completes c toks -> Inv c -> loc c <> Finished ->
  exists body t,
    toks = body ++ [t]
    /\ Token.type t = ENDMARKER /\ Token.value t = [].
Proof.
  induction 1 as [c Hl | c t c' toks Hl Hs Hc IH]; intros HI Hnf;
    [contradiction|].
  pose proof (step_outcome_of_step c t c' HI Hnf Hs) as Hout.
  destruct (step_outcome_progress c t c' Hout HI) as [HI' _].
  destruct (loc c') eqn:Hloc'.
  - destruct IH as (body & e & -> & He); [assumption | congruence|].
    exists (t ++ body), e; rewrite app_assoc; auto.
  - destruct IH as (body & e & -> & He); [assumption | congruence|].
    exists (t ++ body), e; rewrite app_assoc; auto.
  - inversion Hc as [c1 _ | c1 t1 c2 toks1 Hl1]; subst; [|contradiction].
    rewrite app_nil_r.
    destruct Hout as [up | up sp | line rest | line rest p sp m tail
                     | line rest l | line pos t st' ctl | line pos];
      cbn [loc] in Hloc'; try discriminate.
    + eexists _, _; split; [reflexivity | split; reflexivity].
    + eexists _, _; split; [rewrite app_assoc; reflexivity|].
      split; reflexivity.
    + destruct ctl; discriminate.
Qed.

(** Every run ends with an [EndMarker], the only one of the run. *)
Theorem ends_with_single_endmarker :
  forall (lines : list text) (line_offset : Z),
  exists body t,
    generate_tokens lines line_offset = Ok (body ++ [t])
    /\ Token.type t = ENDMARKER /\ Token.value t = []
    /\ count_type ENDMARKER (body ++ [t]) = 1.
Proof.
  intros lines line_offset.
  destruct (generate_tokens_completes lines line_offset) as (toks & Hgen & Hc).
  destruct (completes_last _ _ Hc (initial_config_Inv _ _))
    as (body & t & -> & Hty & Hval); [discriminate|].
  exists body, t. split; [assumption|]. split; [assumption|].
  split; [assumption|].
  destruct (completes_reaches _ _ Hc) as (c' & Hr & Hfin).
  rewrite (endmarker_invariant _ _ _ (initial_config_Inv _ _)
             ltac:(discriminate) Hr).
  rewrite Hfin; reflexivity.
Qed.

(** ** Two streams in full *)

(** A function definition with an indented body. *)
Example def_with_body_tokens :
  exists toks,
    source_tokens (str "def f():" ++ [nl] ++ str "    pass" ++ [nl]) 0 = Ok toks
    /\ summary toks
       = [ (NAME, str "def"); (NAME, str "f"); (OP, str "("); (OP, str ")");
           (OP, str ":"); (NEWLINE, [nl]); (INDENT, []); (NAME, str "pass");
           (NEWLINE, [nl]); (DEDENT, []); (ENDMARKER, []) ].
Proof. eexists; split; vm_compute; reflexivity. Qed.

(** An expression that spans lines inside parentheses: one [NewLine], no
    [Indent], no [Dedent]. *)
Example bracketed_lines_tokens :
  exists toks,
    source_tokens (str "(" ++ [nl] ++ str "  1," ++ [nl] ++ str "  2" ++ [nl]
                   ++ str ")" ++ [nl]) 0 = Ok toks
    /\ count_type NEWLINE toks = 1
    /\ count_type INDENT toks = 0
    /\ count_type DEDENT toks = 0.
Proof. eexists; split; [vm_compute; reflexivity|]. repeat split. Qed.

(** ** Prefixes and values of the tokens *)

(** For every input, the prefix of every token holds nothing but the
    characters of the [whitespace] pattern: space, form feed, tab.  No
    comment, line terminator or backslash ever gets into a prefix. *)
Theorem prefixes_are_whitespace :
  forall (lines : list text) (line_offset : Z),
  exists toks,
    generate_tokens lines line_offset = Ok toks
    /\ forall t c,
         In t toks -> In c (Token.prefix t) ->
         c = " "%char \/ c = ff \/ c = tab.
Proof.
  intros lines line_offset.
  destruct (generate_tokens_completes lines line_offset) as (toks & Hgen & Hc).
  exists toks; split; [assumption|].
  destruct (completes_reaches _ _ Hc) as (c' & Hr & _).
  destruct (prefixes_invariant _ _ _ (initial_config_Inv _ _)
              (Forall_nil _) Hr) as [Hall _].
  intros t c Hin Hc'. rewrite Forall_forall in Hall.
  specialize (Hall t Hin). unfold blank_text in Hall.
  rewrite Forall_forall in Hall. specialize (Hall c Hc').
  unfold is_blank, char_in in Hall. cbn [existsb] in Hall.
  rewrite orb_false_r in Hall.
  apply orb_true_iff in Hall; destruct Hall as [H|H];
    [|apply orb_true_iff in H; destruct H as [H|H]];
    apply Ascii.eqb_eq in H; auto.
Qed.

Lemma shaped_dedent (spos : Z * Z) : shaped (dedent_at spos).
Proof. split; [discriminate | split; reflexivity]. Qed.

Lemma shaped_indent (spos : Z * Z) : shaped (indent_at spos).
Proof. split; [discriminate | split; reflexivity]. Qed.

(** A token with the non-empty value [v] and a type that is not structural. *)
Lemma shaped_text (ty : TokenType) (v : text) (spos : Z * Z) (p : text) :
  v <> [] -> ty <> COMMENT ->
  structural (Token.new ty v spos p) = false ->
  shaped (Token.new ty v spos p).
Proof.
  intros Hv Hty Hs; split; [exact Hty|].
  rewrite Hs; cbn [Token.value Token.new]; split; [contradiction | discriminate].
Qed.

Ltac shaped_tokens :=
  repeat first
    [ apply Forall_nil
    | apply Forall_cons
    | apply Forall_app; split
    | apply Forall_repeat
    | apply shaped_dedent
    | apply shaped_indent
    | apply shaped_text; [try discriminate | discriminate | reflexivity] ].

Lemma token_outcome_shaped line start c tok rest st main st' ctl :
  token_outcome line start c tok rest st main st' ctl ->
  Forall shaped main.
Proof. intros H; destruct H; shaped_tokens. Qed.

Lemma scan_outcome_shaped line pos st toks st' ctl :
  scan_outcome line pos st toks st' ctl -> Forall shaped toks.
Proof.
  intros H.
  destruct H as [c Hnth | ws c tok rest i n up0 up1 b main st' ctl
                          Hs Hws Hup0 Hcnt Hn0 Hb Hout].
  - shaped_tokens.
    destruct (char_in c [dquote; squote]); [|discriminate].
    rewrite (nth_error_skipn_cons _ _ _ _ Hnth); discriminate.
  - shaped_tokens. apply (token_outcome_shaped _ _ _ _ _ _ _ _ _ Hout).
Qed.

Lemma shaped_invariant (c0 : Config) (toks : list Token) (c : Config) :
  Inv c0 -> reaches c0 toks c -> Forall shaped toks.
Proof.
  intros HI Hr.
  refine (reaches_invariant (fun toks _ => Forall shaped toks) c0 HI
            _ _ toks c Hr); [constructor|].
  clear toks c Hr. intros toks c t c' _ Htoks Hstep.
  apply Forall_app; split; [assumption|].
  destruct Hstep as [up Hloc Hex Hc Hup | up sp Hloc Hex Hc Hup Hsp
                    | line rest Hloc Hin Hne Hc
                    | line rest p sp m tail Hloc Hin Hne Hc Hp Hsp Hline Hm
                    | line rest l Hloc Hin Hne Hc Hl
                    | line pos t st' ctl Hloc Hpos Hout
                    | line pos Hloc Hpos];
    shaped_tokens.
  - split; [discriminate | split; reflexivity].
  - assumption.
  - split; [discriminate | split; reflexivity].
  - intros E; apply app_eq_nil in E; destruct E; contradiction.
  - apply (scan_outcome_shaped _ _ _ _ _ _ Hout).
Qed.

(** For every input: no [COMMENT] token is yielded, and a token has an empty
    value exactly when it is an [Indent], a [Dedent] or the [EndMarker]. *)
Theorem token_types_and_values :
  forall (lines : list text) (line_offset : Z),
  exists toks,
    generate_tokens lines line_offset = Ok toks
    /\ forall t, In t toks ->
         Token.type t <> COMMENT
         /\ (Token.value t = [] <->
             Token.type t = INDENT \/ Token.type t = DEDENT
             \/ Token.type t = ENDMARKER).
Proof.
  intros lines line_offset.
  destruct (generate_tokens_completes lines line_offset) as (toks & Hgen & Hc).
  exists toks; split; [assumption|].
  destruct (completes_reaches _ _ Hc) as (c' & Hr & _).
  pose proof (shaped_invariant _ _ _ (initial_config_Inv _ _) Hr) as Hall.
  intros t Hin. rewrite Forall_forall in Hall.
  destruct (Hall t Hin) as [Hty Hval]. split; [exact Hty|].
  rewrite Hval. unfold structural.
  destruct (Token.type t); split; intros H; try reflexivity; try discriminate;
    auto; destruct H as [H|[H|H]]; discriminate.
Qed.

(** ** The lines read *)

Lemma lines_read_app (consumed input : list text) :
  Forall (fun l => l <> []) consumed ->
  lines_read (consumed ++ input) = consumed ++ lines_read input.
Proof.
  induction 1 as [|l ls Hl Hls IH]; [reflexivity|].
  destruct l; [contradiction|]. simpl. rewrite IH; reflexivity.
Qed.

Lemma lines_read_exhausted (input : list text) :
  exhausted input -> lines_read input = [].
Proof. intros [-> | [rest ->]]; reflexivity. Qed.

Lemma firstn_skipn_add (A : Type) (n : nat) (l pre post : list A) :
  skipn n l = pre ++ post -> firstn (n + length pre) l = firstn n l ++ pre.
Proof.
  revert l; induction n as [|n IH]; intros l H; simpl in *.
  - subst l. rewrite firstn_app, firstn_all, Nat.sub_diag; simpl.
    apply app_nil_r.
  - destruct l as [|x l].
    + symmetry in H; apply app_eq_nil in H; destruct H as [-> _]. reflexivity.
    + simpl. f_equal. apply IH; assumption.
Qed.

(** A pass that leaves a string pending: where the string starts. *)
Lemma scan_outcome_pending line pos st toks st' :
  scan_outcome line pos st toks st' Break ->
  pos <= length line -> contstr st = [] ->
  exists start a,
    start < length line
    /\ contstr st' = skipn start line
    /\ contstr_start st' = Some (lnum st, Z.of_nat start)
    /\ firstn start line = a ++ prefix st'.
Proof.
  intros H Hpos Hc.
  inversion H as [| ws c tok rest i n up0 up1 b main st2 ctl
                    Hs Hws Hup0 Hcnt Hn0 Hb Hout]; subst.
  destruct (skipn_decompose _ _ _ _ _ Hs Hpos) as [Hsk Hlen].
  eapply token_outcome_frame in Hout; [|reflexivity|exact Hc].
  destruct Hout as (_ & _ & Hpre & Hcs & _ & _ & Hstart). simpl_locals.
  exists (pos + length ws), (firstn pos line). rewrite Hsk, Hpre.
  repeat split; auto.
  - rewrite length_app in Hlen; simpl in Hlen. lia.
  - apply (firstn_skipn_add _ _ _ _ _ Hs).
Qed.

Lemma reading_initial (lines : list text) (off : Z) :
  reading lines off (initial_config lines off).
Proof.
  exists []; simpl. repeat split; auto; try lia; try discriminate.
  intros H; contradiction H; reflexivity.
Qed.

Lemma reading_step (lines : list text) (off : Z) (c : Config)
  (t : list Token) (c' : Config) :
  Inv c -> reading lines off c -> step_outcome c t c' -> reading lines off c'.
Proof.
  intros HI (consumed & Hlines & Hne0 & Hlnum & Hscan & Hpend) Hstep.
  unfold reading.
  assert (Hsnoc : forall line, line <> [] ->
            Forall (fun l : text => l <> []) (consumed ++ [line])).
  { intros line Hl; apply Forall_app; split; [assumption|].
    constructor; [assumption | constructor]. }
  destruct Hstep as [up Hloc Hex Hc Hup | up sp Hloc Hex Hc Hup Hsp
                    | line rest Hloc Hin Hne Hc
                    | line rest p sp m tail Hloc Hin Hne Hc Hp Hsp Hline Hm
                    | line rest l Hloc Hin Hne Hc Hl
                    | line pos t st' ctl Hloc Hpos Hout
                    | line pos Hloc Hpos];
    cbn [locals loc input]; simpl_locals.
  - exists consumed; repeat split; auto; discriminate.
  - exists consumed; repeat split; auto; discriminate.
  - exists (consumed ++ [line]). rewrite Hin in Hlines.
    rewrite <- app_assoc, length_app; simpl.
    repeat split; auto; try lia.
    + intros ? ? [= <- <-]; eauto.
    + intros H; contradiction.
  - exists (consumed ++ [line]). rewrite Hin in Hlines.
    rewrite <- app_assoc, length_app; simpl.
    repeat split; auto; try lia.
    + intros ? ? [= <- <-]; eauto.
    + intros H; contradiction H; reflexivity.
  - exists (consumed ++ [line]). rewrite Hin in Hlines.
    rewrite <- app_assoc, length_app; simpl.
    repeat split; auto; try lia; try discriminate.
    intros _.
    destruct (Hpend Hc) as (pre & l0 & later & col & a & E & Hcol & Hcs & Hst & Ha).
    exists pre, l0, (later ++ [line]), col, a.
    rewrite E, Hcs, concat_app; simpl. rewrite <- !app_assoc, app_nil_r.
    repeat split; auto.
  - destruct (inv_scan c HI _ _ Hloc) as [Hc Hle].
    destruct (scan_outcome_frame _ _ _ _ _ _ Hout Hpos Hc (inv_sentinel c HI))
      as (_ & Hlnum' & Hctl).
    exists consumed. split; [assumption|]. split; [assumption|].
    split; [congruence|].
    destruct ctl as [pos'|]; cbn [next_loc].
    + destruct Hctl as [_ Hc']. split.
      * intros ? ? [= <- <-]; eauto.
      * intros H; contradiction.
    + split; [discriminate|]. intros _.
      destruct (Hscan _ _ Hloc) as (before & ->).
      destruct (scan_outcome_pending _ _ _ _ _ Hout Hle Hc)
        as (start & a & Hstart & Hcs & Hsp & Ha).
      exists before, line, [], start, a. simpl; rewrite app_nil_r.
      repeat split; auto.
      rewrite Hsp, Hlnum, length_app; simpl. do 2 f_equal. lia.
  - exists consumed; repeat split; auto; discriminate.
Qed.

Lemma reading_invariant (lines : list text) (off : Z)
  (toks : list Token) (c : Config) :
  reaches (initial_config lines off) toks c -> reading lines off c.
Proof.
  intros Hr.
  refine (reaches_invariant (fun _ c => reading lines off c)
            (initial_config lines off) (initial_config_Inv _ _) _ _ toks c Hr).
  - apply reading_initial.
  - intros _ c1 t c2 HI Hc1 Hstep. exact (reading_step _ _ _ _ _ HI Hc1 Hstep).
Qed.

(** The last transition of a run: at the end of the input, after the lines
    read. *)
Lemma reaches_finished (lines : list text) (off : Z) (toks : list Token)
  (c' : Config) :
  reaches (initial_config lines off) toks c' -> loc c' = Finished ->
  exists body p,
    toks = body ++ [Token.new ENDMARKER []
                      ((off + Z.of_nat (length (lines_read lines)))%Z, 0%Z) p].
Proof.
  intros Hr Hfin.
  inversion Hr as [E | toks0 c t c0 Hr0 Hnf Hstep]; subst.
  { discriminate Hfin. }
  assert (HI : Inv c)
    by (eapply reaches_Inv; [exact Hr0 | apply initial_config_Inv]).
  pose proof (step_outcome_of_step c t c' HI Hnf Hstep) as Hout.
  destruct (reading_invariant _ _ _ _ Hr0)
    as (consumed & Hlines & Hne & Hlnum & _ & _).
  assert (Hcount : exhausted (input c) ->
            lnum (locals c) = (off + Z.of_nat (length (lines_read lines)))%Z).
  { intros Hex. rewrite Hlines, (lines_read_app _ _ Hne),
      (lines_read_exhausted _ Hex), app_nil_r. exact Hlnum. }
  destruct Hout as [up Hloc Hex Hc Hup | up sp Hloc Hex Hc Hup Hsp
                   | line rest | line rest p sp m tail
                   | line rest l | line pos t st' ctl | line pos];
    cbn [loc] in Hfin; try discriminate.
  - rewrite (Hcount Hex). eexists _, _. rewrite app_assoc. reflexivity.
  - rewrite (Hcount Hex). eexists _, _. rewrite !app_assoc. reflexivity.
  - destruct ctl; discriminate.
Qed.

(** For every input, the [EndMarker] that ends the stream starts at column 0
    of the line [line_offset + n], where [n] is the number of lines [readline]
    returned before it was exhausted. *)
Theorem endmarker_position :
  forall (lines : list text) (line_offset : Z),
  exists body p,
    generate_tokens lines line_offset
    = Ok (body ++ [Token.new ENDMARKER []
                     ((line_offset + Z.of_nat (length (lines_read lines)))%Z, 0%Z)
                     p]).
Proof.
  intros lines line_offset.
  destruct (generate_tokens_completes lines line_offset) as (toks & Hgen & Hc).
  destruct (completes_reaches _ _ Hc) as (c' & Hr & Hfin).
  destruct (reaches_finished _ _ _ _ Hr Hfin) as (body & p & ->).
  exists body, p; exact Hgen.
Qed.

Lemma StringIO_length (s : text) :
  length (StringIO (s ++ [nl])) = count_nl s + 1.
Proof.
  induction s as [|c s IH]; [reflexivity|].
  unfold count_nl in *. cbn [app StringIO filter].
  rewrite (Ascii.eqb_sym c nl).
  destruct (Ascii.eqb nl c); cbn [length]; [rewrite IH; reflexivity|].
  destruct (StringIO (s ++ [nl])) as [|l ls]; simpl in *; lia.
Qed.

Lemma lines_read_all (ls : list text) :
  Forall (fun l => l <> []) ls -> lines_read ls = ls.
Proof.
  intros H. rewrite <- (app_nil_r ls) at 1.
  rewrite (lines_read_app _ _ H). apply app_nil_r.
Qed.

(** For every source text, the [EndMarker] of [source_tokens] starts at column
    0 of the line after the last line terminator of the text with the line
    terminator appended: line [line_offset + k + 1] for a text with [k] line
    terminators. *)
Theorem source_tokens_endmarker_line :
  forall (source : text) (line_offset : Z),
  exists body p,
    source_tokens source line_offset
    = Ok (body ++ [Token.new ENDMARKER []
                     ((line_offset + Z.of_nat (count_nl source) + 1)%Z, 0%Z) p]).
Proof.
  intros source line_offset. unfold source_tokens.
  destruct (generate_tokens_completes (StringIO (source ++ [nl])) line_offset)
    as (toks & Hgen & Hc).
  destruct (completes_reaches _ _ Hc) as (c' & Hr & Hfin).
  destruct (reaches_finished _ _ _ _ Hr Hfin) as (body & p & ->).
  exists body, p. rewrite Hgen.
  rewrite (lines_read_all _ (StringIO_lines_nonempty _)), StringIO_length.
  replace (line_offset + Z.of_nat (count_nl source + 1))%Z
    with (line_offset + Z.of_nat (count_nl source) + 1)%Z by lia.
  reflexivity.
Qed.

(** ** The order of the tokens *)


Lemma sorted_repeat (x : Z) (n : nat) : StronglySorted Z.le (repeat x n).
Proof.
  induction n; simpl; constructor; [assumption|].
  apply Forall_repeat; lia.
Qed.










(** ** Where the tokens stand *)

Lemma skipn_cons_lt (A : Type) (n : nat) (l : list A) (x : A) (r : list A) :
  skipn n l = x :: r -> n < length l.
Proof.
  intros H. apply nth_error_skipn_hd in H.
  apply nth_error_Some. congruence.
Qed.

Ltac each_token := repeat first [apply Forall_nil | apply Forall_cons].

Lemma token_outcome_at_column line start c tok rest st main st' ctl
  (a after : text) :
  token_outcome line start c tok rest st main st' ctl ->
  skipn start line = (c :: tok) ++ rest ->
  firstn start line = a ++ prefix st ->
  Forall (fun t => structural t = false ->
                   Token._start_pos_line t = lnum st
                   /\ at_column line after t) main.
Proof.
  intros H Hsk Hpre.
  pose proof (skipn_cons_lt _ _ _ _ _ Hsk) as Hlt.
  assert (Hone : forall ty p,
            p = prefix st ->
            structural (Token.new ty (c :: tok) (lnum st, Z.of_nat start) p)
            = false ->
            Token._start_pos_line
              (Token.new ty (c :: tok) (lnum st, Z.of_nat start) p) = lnum st
            /\ at_column line after
                 (Token.new ty (c :: tok) (lnum st, Z.of_nat start) p)).
  { intros ty p -> _. split; [reflexivity|].
    exists start, a, (rest ++ after).
    cbn [Token._start_pos_col Token.prefix Token.value Token.new snd].
    rewrite Hsk, <- app_assoc. auto. }
  destruct H; each_token; try (apply Hone; reflexivity).
  - intros _. split; [reflexivity|].
    exists start, a, (rest' ++ after).
    cbn [Token._start_pos_col Token.prefix Token.value Token.new snd].
    rewrite Hsk. subst rest. rewrite <- !app_assoc. auto.
  - apply Forall_app; split.
    + apply Forall_repeat. intros Hs; discriminate Hs.
    + each_token. apply Hone; reflexivity.
  - apply Hone. unfold adjust_paren.
    destruct (str_in (c :: tok) (str "([{"));
      [|destruct (str_in (c :: tok) (str ")]}"))]; reflexivity.
Qed.

Lemma scan_outcome_at_column line pos st toks st' ctl (after : text) :
  scan_outcome line pos st toks st' ctl -> pos <= length line ->
  Forall (fun t => structural t = false ->
                   Token._start_pos_line t = lnum st
                   /\ at_column line after t) toks.
Proof.
  intros H Hpos.
  destruct H as [c Hnth | ws c tok rest i n up0 up1 b main st' ctl
                          Hs Hws Hup0 Hcnt Hn0 Hb Hout].
  - each_token. intros _. split; [reflexivity|].
    assert (Hlt : pos < length line) by (apply nth_error_Some; congruence).
    pose proof (nth_error_skipn_cons _ _ _ _ Hnth) as Hsk.
    destruct (char_in c [dquote; squote]).
    + exists pos, (firstn pos line), after.
      cbn [Token._start_pos_col Token.prefix Token.value Token.new snd].
      rewrite app_nil_r. auto.
    + exists pos, (firstn pos line), (skipn (pos + 1) line ++ after).
      cbn [Token._start_pos_col Token.prefix Token.value Token.new snd].
      rewrite app_nil_r, Hsk. auto.
  - destruct (skipn_decompose _ _ _ _ _ Hs Hpos) as [Hsk _].
    apply Forall_app; split;
      [apply Forall_repeat; intros Hst; discriminate Hst|].
    apply Forall_app; split;
      [apply Forall_repeat; intros Hst; discriminate Hst|].
    apply (token_outcome_at_column _ _ _ _ _ _ _ _ _ (firstn pos line) after
             Hout Hsk).
    simpl_locals. apply (firstn_skipn_add _ _ _ _ _ Hs).
Qed.

Lemma lines_read_cons (line : text) (rest : list text) :
  line <> [] -> lines_read (line :: rest) = line :: lines_read rest.
Proof. destruct line; [contradiction|reflexivity]. Qed.

Lemma step_outcome_located (lines : list text) (off : Z) (c : Config)
  (t : list Token) (c' : Config) :
  Inv c -> reading lines off c -> step_outcome c t c' ->
  Forall (located lines off) t.
Proof.
  intros HI (consumed & Hlines & Hne0 & Hlnum & Hscan & Hpend) Hstep.
  assert (Hread : lines_read lines = consumed ++ lines_read (input c)).
  { rewrite Hlines; apply lines_read_app; assumption. }
  assert (Hstruct : forall sp n,
            Forall (located lines off) (repeat (dedent_at sp) n)).
  { intros; apply Forall_repeat. intros Hs; discriminate Hs. }
  assert (Hend : forall sp p,
            located lines off (Token.new ENDMARKER [] sp p)).
  { intros sp p Hs; discriminate Hs. }
  destruct Hstep as [up Hloc Hex Hc Hup | up sp Hloc Hex Hc Hup Hsp
                    | line rest Hloc Hin Hne Hc
                    | line rest p sp m tail Hloc Hin Hne Hc Hp Hsp Hline Hm
                    | line rest l Hloc Hin Hne Hc Hl
                    | line pos t st' ctl Hloc Hpos Hout
                    | line pos Hloc Hpos];
    try solve [constructor].
  - apply Forall_app; split; [apply Hstruct | each_token; apply Hend].
  - destruct (Hpend Hc)
      as (pre & l & later & col & a & E & Hcol & Hcs & Hst & Ha).
    rewrite Hsp in Hst; injection Hst as ->.
    constructor;
      [|apply Forall_app; split; [apply Hstruct | each_token; apply Hend]].
    intros _. exists pre, l, later.
    rewrite Hread, (lines_read_exhausted _ Hex), app_nil_r.
    split; [assumption|]. split; [reflexivity|].
    exists col, a, [].
    cbn [Token._start_pos_col Token.prefix Token.value Token.new snd].
    rewrite app_nil_r. auto.
  - destruct (Hpend Hc)
      as (pre & l & later & col & a & E & Hcol & Hcs & Hst & Ha).
    rewrite Hsp in Hst; injection Hst as ->.
    each_token.
    intros _. exists pre, l, (later ++ line :: lines_read rest).
    rewrite Hread, Hin, (lines_read_cons _ _ Hne), E, <- app_assoc.
    split; [reflexivity|]. split; [reflexivity|].
    exists col, a, (tail ++ concat (lines_read rest)).
    cbn [Token._start_pos_col Token.prefix Token.value Token.new snd].
    rewrite Hcs, concat_app, Hline. cbn [concat].
    rewrite <- !app_assoc. auto.
  - destruct (Hscan _ _ Hloc) as (before & Eb).
    pose proof (scan_outcome_at_column _ _ _ _ _ _
                  (concat (lines_read (input c))) Hout
                  (Nat.lt_le_incl _ _ Hpos)) as Hall.
    eapply Forall_impl; [|exact Hall].
    intros tk Htk Hs. destruct (Htk Hs) as [Hline Hcol].
    exists before, line, (lines_read (input c)).
    rewrite Hread, Eb, <- app_assoc.
    split; [reflexivity|]. split; [|assumption].
    rewrite Hline, Hlnum, Eb, length_app; simpl. lia.
Qed.

Lemma located_invariant (lines : list text) (off : Z)
  (toks : list Token) (c : Config) :
  reaches (initial_config lines off) toks c ->
  reading lines off c /\ Forall (located lines off) toks.
Proof.
  intros Hr.
  refine (reaches_invariant
            (fun toks c =>
               reading lines off c /\ Forall (located lines off) toks)
            (initial_config lines off) (initial_config_Inv _ _) _ _ toks c Hr).
  { split; [apply reading_initial | constructor]. }
  clear toks c Hr. intros toks c t c' HI (Hrd & Hall) Hstep.
  split; [exact (reading_step _ _ _ _ _ HI Hrd Hstep)|].
  apply Forall_app; split; [assumption|].
  exact (step_outcome_located _ _ _ _ _ HI Hrd Hstep).
Qed.

(** For every input, every token with a text (every token but [Indent],
    [Dedent] and [EndMarker]) stands in the lines read where its start
    position says: the line [start_pos[0] - line_offset] exists, counting
    from 1, the column [start_pos[1]] lies inside it, the token's prefix is
    the text right before that column, and the token's value is the text from
    that column on, running into the following lines for a string continued
    over lines. *)
Theorem tokens_stand_at_their_positions :
  forall (lines : list text) (line_offset : Z),
  exists toks,
    generate_tokens lines line_offset = Ok toks
    /\ forall t, In t toks -> Token.value t <> [] ->
         exists pre l post col a rest,
           lines_read lines = pre ++ l :: post
           /\ Token.start_pos t
              = ((line_offset + Z.of_nat (length pre) + 1)%Z, Z.of_nat col)
           /\ col < length l
           /\ firstn col l = a ++ Token.prefix t
           /\ skipn col l ++ concat post = Token.value t ++ rest.
Proof.
  intros lines line_offset.
  destruct (generate_tokens_completes lines line_offset) as (toks & Hgen & Hc).
  exists toks; split; [assumption|].
  destruct (completes_reaches _ _ Hc) as (c' & Hr & Hfin).
  destruct (located_invariant _ _ _ _ Hr) as (_ & Hall).
  pose proof (shaped_invariant _ _ _ (initial_config_Inv _ _) Hr) as Hshape.
  intros t Hin Hval.
  rewrite Forall_forall in Hall, Hshape.
  destruct (Hshape t Hin) as [_ Hiff].
  assert (Hs : structural t = false).
  { destruct (structural t); [|reflexivity].
    contradiction Hval. apply Hiff; reflexivity. }
  destruct (Hall t Hin Hs)
    as (pre & l & post & Hl & Hline & col & a & rest & Hcol & Hlt & Ha & Hv).
  exists pre, l, post, col, a, rest.
  unfold Token.start_pos. rewrite Hline, Hcol. auto.
Qed.

(** ** Moving the line offset *)

Ltac case_conditions :=
  repeat match goal with
  | |- context [match ?x with _ => _ end] =>
      lazymatch x with
      | context [match _ with _ => _ end] => fail
      | _ => destruct x eqn:?
      end
  end.

Lemma dedent_loop_shift (k : Z) (spos : Z * Z) (start : nat) (ind : list nat) :
  dedent_loop (shift_pos k spos) start ind
  = map_result (fun r => (map (shift_token k) (fst r), snd r))
               (dedent_loop spos start ind).
Proof.
  induction ind as [|top below IH]; cbn [dedent_loop]; [reflexivity|].
  destruct (start <? top); [|reflexivity].
  rewrite IH. destruct (dedent_loop spos start below) as [[toks ind']| |];
    reflexivity.
Qed.

Lemma break_loop_shift (k : Z) (l : Z) (start : nat) (ind : list nat) :
  break_loop (l + k) start ind
  = map_result (fun r => (map (shift_token k) (fst r), snd r))
               (break_loop l start ind).
Proof.
  rewrite !break_loop_dedent_loop.
  apply (dedent_loop_shift k (l, 0%Z)).
Qed.

Lemma check_indent_shift (k : Z) (spos : Z * Z) (start : nat) (c : ascii)
  (st : Locals) :
  check_indent (shift_pos k spos) start c (shift_locals k st)
  = map_result (fun r => (map (shift_token k) (fst r), shift_locals k (snd r)))
               (check_indent spos start c st).
Proof.
  destruct st as [pl ind ln cs cl nwl pre css ep].
  unfold check_indent, shift_locals; simpl_locals.
  destruct (nwl && negb (char_in c [cr; nl; "#"%char])); [|reflexivity].
  destruct (pl =? 0)%Z; [|reflexivity].
  destruct ind as [|top below]; [reflexivity|].
  cbn [hd_error get_or bind].
  destruct (top <? start); simpl_locals;
    rewrite dedent_loop_shift;
    match goal with |- context [dedent_loop spos start ?i] =>
      destruct (dedent_loop spos start i) as [[toks ind']| |] end;
    reflexivity.
Qed.

Lemma scan_shift (k : Z) (line : text) (pos : nat) (st : Locals) :
  scan line pos (shift_locals k st)
  = map_result (fun r => (map (shift_token k) (fst (fst r)),
                          shift_locals k (snd (fst r)), snd r))
               (scan line pos st).
Proof.
  unfold scan.
  destruct (pseudoprog_match line pos) as [m|].
  2: { destruct (nth_error line pos); reflexivity. }
  destruct (span2 m) as [start e].
  destruct (nth_error line start) as [c|]; [|reflexivity].
  cbn [get_or bind].
  change (set_prefix (group1 m) (shift_locals k st))
    with (shift_locals k (set_prefix (group1 m) st)).
  change (lnum (shift_locals k (set_prefix (group1 m) st)), Z.of_nat start)
    with (shift_pos k (lnum (set_prefix (group1 m) st), Z.of_nat start)).
  rewrite check_indent_shift.
  destruct (check_indent (lnum (set_prefix (group1 m) st), Z.of_nat start)
              start c (set_prefix (group1 m) st)) as [[toks1 st1]| |];
    [|reflexivity..].
  cbn [map_result bind fst snd].
  generalize (set_prefix (group1 m) st); intros st0.
  destruct st1 as [pl ind ln cs cl nwl pre css ep].
  destruct st0 as [pl0 ind0 ln0 cs0 cl0 nwl0 pre0 css0 ep0].
  unfold shift_locals, adjust_paren; simpl_locals.
  unfold lookup_endprog; unfold bind, get_or.
  rewrite ?break_loop_shift. unfold map_result.
  case_conditions; cbn [fst snd]; simpl_locals;
    rewrite ?map_app; try reflexivity; try discriminate.
Qed.

Lemma finish_shift (k : Z) (st : Locals) :
  finish (shift_locals k st) = map_result (map (shift_token k)) (finish st).
Proof.
  destruct st as [pl ind ln cs cl nwl pre css ep].
  unfold finish, shift_locals; simpl_locals.
  destruct (nonempty cs); [destruct css as [sp|]|]; cbn [option_map get_or bind];
    try reflexivity;
    cbn [map_result]; rewrite ?map_app, !map_map; reflexivity.
Qed.

Lemma begin_line_shift (k : Z) (line : text) (rest : list text) (st : Locals) :
  begin_line line rest (shift_locals k st)
  = map_result (fun r => (map (shift_token k) (fst r), shift_config k (snd r)))
               (begin_line line rest st).
Proof.
  destruct st as [pl ind ln cs cl nwl pre css ep].
  unfold begin_line, shift_locals, shift_config; simpl_locals.
  replace (ln + k + 1)%Z with (ln + 1 + k)%Z by lia.
  unfold bind, get_or, map_result.
  destruct css as [sp|]; cbn [option_map];
    case_conditions; try reflexivity; try discriminate;
    repeat match goal with H : Ok _ = Ok _ |- _ => injection H as <- end;
    reflexivity.
Qed.

Lemma step_shift (k : Z) (c : Config) :
  step (shift_config k c)
  = map_result (fun r => (map (shift_token k) (fst r), shift_config k (snd r)))
               (step c).
Proof.
  destruct c as [st l inp]. unfold step, shift_config; cbn [loc locals input].
  destruct l as [|line pos|]; [| |reflexivity].
  - destruct inp as [|[|ch line] rest].
    + rewrite finish_shift. destruct (finish st); reflexivity.
    + rewrite finish_shift. destruct (finish st); reflexivity.
    + apply begin_line_shift.
  - destruct (pos <? length line); [|reflexivity].
    rewrite scan_shift.
    destruct (scan line pos st) as [[[toks st'] ctl]| |]; reflexivity.
Qed.

Lemma run_shift (k : Z) (fuel : nat) :
  forall c,
    run fuel (shift_config k c)
    = map_result (map (shift_token k)) (run fuel c).
Proof.
  induction fuel as [|fuel IH]; intros c.
  - destruct c as [st [| |] inp]; reflexivity.
  - cbn [run]. change (loc (shift_config k c)) with (loc c).
    destruct (loc c); [| |reflexivity];
      (rewrite step_shift;
       destruct (step c) as [[t c']| |]; [|reflexivity..];
       cbn [map_result bind fst snd]; rewrite IH;
       destruct (run fuel c') as [rest| |]; cbn [map_result bind];
       rewrite ?map_app; reflexivity).
Qed.

(** For every input, the line offset only moves the tokens: with the offset
    raised by [k], the stream is the same, each token [k] lines further
    down.  Types, values, prefixes and columns do not depend on the offset. *)
Theorem line_offset_shifts_tokens :
  forall (lines : list text) (line_offset k : Z),
  exists toks,
    generate_tokens lines line_offset = Ok toks
    /\ generate_tokens lines (line_offset + k) = Ok (map (shift_token k) toks).
Proof.
  intros lines line_offset k.
  destruct (generate_tokens_completes lines line_offset) as (toks & Hgen & _).
  exists toks; split; [assumption|].
  unfold generate_tokens in *.
  change (initial_config lines (line_offset + k))
    with (shift_config k (initial_config lines line_offset)).
  change (budget (shift_config k (initial_config lines line_offset)))
    with (budget (initial_config lines line_offset)).
  rewrite run_shift, Hgen. reflexivity.
Qed.

(** ** The end of the input *)

Lemma lines_read_idempotent (input : list text) :
  lines_read (lines_read input) = lines_read input.
Proof.
  induction input as [|[|ch l] rest IH]; [reflexivity..|].
  cbn [lines_read]. rewrite IH; reflexivity.
Qed.

Lemma step_same_reading (c1 c2 : Config) (t : list Token) (c1' : Config) :
  same_reading c1 c2 -> step c1 = Ok (t, c1') ->
  exists c2', step c2 = Ok (t, c2') /\ same_reading c1' c2'.
Proof.
  destruct c1 as [st l inp1], c2 as [st2 l2 inp2].
  unfold same_reading; cbn [locals loc input]. intros (<- & <- & Hin) H.
  unfold step in *; cbn [locals loc input] in *.
  destruct l as [|line pos|].
  - destruct inp1 as [|[|ch1 l1] r1], inp2 as [|[|ch2 l2] r2];
      cbn [lines_read] in Hin; try discriminate Hin.
    1-4: destruct (finish st) as [toks| |]; try discriminate H;
      injection H as <- <-; eexists; split; [reflexivity|];
      repeat split; reflexivity.
    injection Hin as <- <- Hin.
    unfold begin_line, bind, get_or in *.
    repeat match type of H with
           | context [match ?x with _ => _ end] =>
               lazymatch x with
               | context [match _ with _ => _ end] => fail
               | _ => destruct x
               end
           end;
      try discriminate H; injection H as <- <-;
      (eexists; split; [reflexivity|]; repeat split; assumption).
  - destruct (pos <? length line).
    + destruct (scan line pos st) as [[[toks st'] ctl]| |];
        try discriminate H.
      injection H as <- <-. eexists; split; [reflexivity|].
      repeat split; assumption.
    + injection H as <- <-. eexists; split; [reflexivity|].
      repeat split; assumption.
  - injection H as <- <-. eexists; split; [reflexivity|].
    repeat split; assumption.
Qed.

Lemma completes_same_reading (c1 : Config) (toks : list Token) :
  completes c1 toks -> forall c2, same_reading c1 c2 -> completes c2 toks.
Proof.
  induction 1 as [c Hloc | c t c' toks Hloc Hstep Hc IH]; intros c2 Hsame.
  - apply completes_done. destruct Hsame as (_ & <- & _); assumption.
  - destruct (step_same_reading _ _ _ _ Hsame Hstep) as (c2' & Hstep2 & Hsame').
    eapply completes_step; [|exact Hstep2|apply IH; exact Hsame'].
    destruct Hsame as (_ & <- & _); assumption.
Qed.

(** [readline] returning the empty string ends the input: whatever it would
    return afterwards is never asked for, and the stream is that of the
    lines returned before. *)
Theorem empty_line_ends_input :
  forall (lines more : list text) (line_offset : Z),
    generate_tokens (lines ++ [] :: more) line_offset
    = generate_tokens lines line_offset.
Proof.
  intros lines more off.
  destruct (generate_tokens_completes (lines ++ [] :: more) off)
    as (toks1 & -> & Hc1).
  destruct (generate_tokens_completes lines off) as (toks2 & -> & Hc2).
  f_equal.
  apply (completes_deterministic (initial_config lines off)); [|assumption].
  apply (completes_same_reading _ _ Hc1).
  repeat split. cbn [input initial_config]. clear.
  induction lines as [|[|ch l] rest IH]; [reflexivity..|].
  cbn [app lines_read]. rewrite IH; reflexivity.
Qed.

(** ** The indentation check and the recovery, pass by pass *)

(** What a pass that matched a token is made of: the indentation check, then
    at most one token with a text, or the recovery: the dedents of
    [break_loop] and the keyword. *)
Lemma scan_inv (line : text) (pos : nat) (st : Locals)
  (toks : list Token) (st' : Locals) (ctl : Ctl) :
  scan line pos st = Ok (toks, st', ctl) ->
  (exists txt, toks = [Token.new ERRORTOKEN txt (lnum st, Z.of_nat pos) []]
               /\ st' = st)
  \/ exists ws start c toks1 st1 main,
       check_indent (lnum st, Z.of_nat start) start c (set_prefix ws st)
       = Ok (toks1, st1)
       /\ toks = toks1 ++ main
       /\ ((indents st' = indents st1
            /\ (main = []
                \/ exists ty v p,
                     main = [Token.new ty v (lnum st, Z.of_nat start) p]
                     /\ ty <> INDENT /\ ty <> DEDENT
                     /\ (ty = NEWLINE -> paren_level st1 = 0%Z)
                     /\ (ty = NAME -> mem v ALWAYS_BREAK_TOKEN = false)))
           \/ (exists v btoks p,
                 mem v ALWAYS_BREAK_TOKEN = true
                 /\ break_loop (lnum st1) start (indents st1)
                    = Ok (btoks, indents st')
                 /\ paren_level st' = 0%Z
                 /\ main = btoks ++ [Token.new NAME v (lnum st, Z.of_nat start) p])).
Proof.
  unfold scan. intros H.
  destruct (pseudoprog_match line pos) as [m|].
  2: { destruct (nth_error line pos); [|discriminate H].
       cbn [get_or bind] in H. injection H as <- <- <-. left; eauto. }
  right.
  destruct (span2 m) as [start e].
  destruct (nth_error line start) as [c|]; [|discriminate H].
  cbn [get_or bind] in H.
  destruct (check_indent (lnum (set_prefix (group1 m) st), Z.of_nat start)
              start c (set_prefix (group1 m) st)) as [[toks1 st1]| |] eqn:Hci;
    try discriminate H.
  exists (group1 m), start, c, toks1, st1. simpl_locals.
  cbn [bind] in H.
  unfold lookup_endprog, adjust_paren in H; unfold bind, get_or in H.
  case_hyp H; try discriminate H; injection H as <- <- <-;
    eexists; (split; [exact Hci|]);
    (split; [first [reflexivity | symmetry; apply app_nil_r]|]);
    simpl_locals;
    try solve
      [ left; split; [reflexivity|]; left; reflexivity
      | left; split; [reflexivity|]; right; do 3 eexists;
        split; [reflexivity|];
        split; [discriminate|]; split; [discriminate|];
        split; intros; try discriminate; try assumption;
        match goal with
        | Hc : _ && (_ =? 0)%Z = true |- _ =>
            apply andb_true_iff in Hc; destruct Hc as [_ Hc];
            apply Z.eqb_eq in Hc; exact Hc
        end
      | right; do 3 eexists; split; [eassumption|];
        split; [reflexivity|]; split; reflexivity ].
Qed.

Lemma dedent_loop_inv (spos : Z * Z) (start : nat) (ind : list nat)
  (toks : list Token) (ind' : list nat) :
  dedent_loop spos start ind = Ok (toks, ind') ->
  exists popped top below,
    ind = popped ++ ind'
    /\ Forall (fun level => start < level) popped
    /\ toks = repeat (dedent_at spos) (length popped)
    /\ ind' = top :: below /\ top <= start.
Proof.
  revert toks ind'; induction ind as [|a ind IH]; intros toks ind' H;
    cbn [dedent_loop] in H; [discriminate H|].
  destruct (start <? a) eqn:Hlt.
  - destruct (dedent_loop spos start ind) as [[toks0 ind0]| |];
      try discriminate H.
    cbn [bind] in H. injection H as <- <-.
    destruct (IH _ _ eq_refl) as (popped & top & below & -> & Hall & -> & E & Hle).
    apply Nat.ltb_lt in Hlt.
    exists (a :: popped), top, below. repeat split; auto.
  - injection H as <- <-. apply Nat.ltb_ge in Hlt.
    exists [], a, ind. repeat split; auto.
Qed.

(** The indentation check leaves the stack as it is, pushes the column of
    the token on a lower top, or pops the levels to the right of it; the
    last two only on a fresh line at depth 0. *)
Lemma check_indent_inv (spos : Z * Z) (start : nat) (c : ascii) (st : Locals)
  (toks : list Token) (st1 : Locals) :
  check_indent spos start c st = Ok (toks, st1) ->
  paren_level st1 = paren_level st
  /\ ((toks = [] /\ indents st1 = indents st)
      \/ (paren_level st = 0%Z
          /\ ((exists top,
                 hd_error (indents st) = Some top /\ top < start
                 /\ toks = [indent_at spos]
                 /\ indents st1 = start :: indents st)
              \/ dedent_loop spos start (indents st)
                 = Ok (toks, indents st1)))).
Proof.
  unfold check_indent. intros H.
  destruct (new_line st && negb (char_in c [cr; nl; "#"%char]));
    [|injection H as <- <-; auto].
  simpl_locals.
  destruct (paren_level st =? 0)%Z eqn:Hp;
    [|injection H as <- <-; auto].
  apply Z.eqb_eq in Hp.
  destruct (hd_error (indents st)) as [top|]; [|discriminate H].
  cbn [get_or bind] in H.
  destruct (top <? start) eqn:Hlt; simpl_locals.
  - cbn [dedent_loop] in H. rewrite Nat.ltb_irrefl in H.
    cbn [bind] in H. injection H as <- <-. simpl_locals.
    apply Nat.ltb_lt in Hlt.
    split; [reflexivity|]. right. split; [assumption|]. left.
    exists top. auto.
  - destruct (dedent_loop spos start (indents st)) as [[toks0 ind0]| |];
      try discriminate H.
    cbn [bind] in H. injection H as <- <-. simpl_locals.
    split; [reflexivity|]. right. split; [assumption|]. right. reflexivity.
Qed.

Lemma ordered_stack_suffix (popped ind : list nat) :
  ordered_stack (popped ++ ind) -> ordered_stack ind.
Proof.
  induction popped as [|a popped IH]; intros H; [assumption|].
  inversion H; subst. apply IH; assumption.
Qed.

Lemma ordered_stack_push (start top : nat) (below : list nat) :
  ordered_stack (top :: below) -> top < start ->
  ordered_stack (start :: top :: below).
Proof.
  intros H Hlt. constructor; [assumption|].
  inversion H as [|? ? _ Hall]; subst.
  constructor; [assumption|].
  eapply Forall_impl; [|exact Hall]. intros x Hx; cbn in Hx; lia.
Qed.

Lemma check_indent_ordered (spos : Z * Z) (start : nat) (c : ascii)
  (st : Locals) (toks : list Token) (st1 : Locals) :
  check_indent spos start c st = Ok (toks, st1) ->
  ordered_stack (indents st) -> ordered_stack (indents st1).
Proof.
  intros H Hord.
  destruct (check_indent_inv _ _ _ _ _ _ H)
    as (_ & [(_ & ->) | (_ & [(top & E & Hlt & _ & ->) | Hd])]).
  - assumption.
  - destruct (indents st) as [|top' below]; [discriminate E|].
    injection E as ->. apply ordered_stack_push; assumption.
  - destruct (dedent_loop_inv _ _ _ _ _ Hd) as (popped & _ & _ & E & _).
    rewrite E in Hord. apply (ordered_stack_suffix _ _ Hord).
Qed.

(** A pass of the loop keeps the stack ordered. *)
Lemma scan_ordered (line : text) (pos : nat) (st : Locals)
  (toks : list Token) (st' : Locals) (ctl : Ctl) :
  scan line pos st = Ok (toks, st', ctl) ->
  ordered_stack (indents st) -> ordered_stack (indents st').
Proof.
  intros H Hord.
  destruct (scan_inv _ _ _ _ _ _ H)
    as [(txt & _ & ->) | (ws & start & c & toks1 & st1 & main & Hci & _ & Hmain)];
    [assumption|].
  apply check_indent_ordered in Hci; [|exact Hord].
  destruct Hmain as [(-> & _) | (v & btoks & p & _ & Hb & _)]; [assumption|].
  rewrite break_loop_dedent_loop in Hb.
  destruct (dedent_loop_inv _ _ _ _ _ Hb) as (popped & _ & _ & E & _).
  rewrite E in Hci. apply (ordered_stack_suffix _ _ Hci).
Qed.

Lemma begin_line_frame (line : text) (rest : list text) (st : Locals)
  (t : list Token) (c' : Config) :
  begin_line line rest st = Ok (t, c') ->
  indents (locals c') = indents st /\ paren_level (locals c') = paren_level st.
Proof.
  unfold begin_line, bind, get_or. intros H.
  case_hyp H; try discriminate H; injection H as <- <-; split; reflexivity.
Qed.

Lemma step_ordered (c : Config) (t : list Token) (c' : Config) :
  step c = Ok (t, c') ->
  ordered_stack (indents (locals c)) -> ordered_stack (indents (locals c')).
Proof.
  unfold step. intros H Hord.
  destruct (loc c) as [|line pos|].
  - destruct (input c) as [|[|ch l] rest].
    1,2: destruct (finish (locals c)); try discriminate H;
      injection H as <- <-; assumption.
    apply begin_line_frame in H. destruct H as [-> _]. assumption.
  - destruct (pos <? length line).
    + destruct (scan line pos (locals c)) as [[[toks st'] ctl]| |] eqn:Hs;
        try discriminate H.
      injection H as <- <-. apply (scan_ordered _ _ _ _ _ _ Hs Hord).
    + injection H as <- <-. assumption.
  - injection H as <- <-. assumption.
Qed.

Lemma reaches_ordered (c0 : Config) (toks : list Token) (c : Config) :
  reaches c0 toks c -> ordered_stack (indents (locals c0)) ->
  ordered_stack (indents (locals c)).
Proof.
  induction 1 as [|toks c t c' Hr IH Hloc Hstep]; intros H0; [assumption|].
  apply (step_ordered _ _ _ Hstep). apply IH; assumption.
Qed.

(** Wherever the generator gets, the indentation stack is ordered: its levels
    grow strictly from the sentinel 0 at the bottom to the top. *)
Theorem indentation_stack_ordered :
  forall (lines : list text) (line_offset : Z) (toks : list Token) (c : Config),
    reaches (initial_config lines line_offset) toks c ->
    exists up,
      indents (locals c) = up ++ [0]
      /\ StronglySorted (fun above below => below < above) (up ++ [0]).
Proof.
  intros lines line_offset toks c Hr.
  assert (HI : Inv c)
    by (eapply reaches_Inv; [exact Hr | apply initial_config_Inv]).
  destruct (inv_sentinel c HI) as (up & Hup).
  exists up; split; [assumption|]. rewrite <- Hup.
  apply (reaches_ordered _ _ _ Hr). repeat constructor.
Qed.

(** Two indented lines, the second one deeper: after the name on the third
    line there are two levels above the sentinel. *)
Lemma nested_blocks_run :
  exists toks c,
    reaches (initial_config
               [str "a" ++ [nl]; str "  b" ++ [nl]; str "    c" ++ [nl]] 0)
            toks c
    /\ indents (locals c) = [4; 2; 0].
Proof.
  do 2 eexists. split.
  - apply (steps_reaches 10). vm_compute. reflexivity.
  - reflexivity.
Qed.

Lemma indentation_stack_ordered_witness :
  exists toks c up,
    reaches (initial_config
               [str "a" ++ [nl]; str "  b" ++ [nl]; str "    c" ++ [nl]] 0)
            toks c
    /\ indents (locals c) = up ++ [0]
    /\ StronglySorted (fun above below => below < above) (up ++ [0])
    /\ up = [4; 2].
Proof.
  destruct nested_blocks_run as (toks & c & Hr & Hind).
  destruct (indentation_stack_ordered _ _ _ _ Hr) as (up & Hup & Hs).
  exists toks, c, up. split; [exact Hr|]. split; [exact Hup|].
  split; [exact Hs|].
  rewrite Hind in Hup. change [4; 2; 0] with ([4; 2] ++ [0]) in Hup.
  apply app_inv_tail in Hup. symmetry; exact Hup.
Defined.

(** A transition is a pass of the scanning loop, or it yields none of the
    tokens of a line's structure and keeps the stack and the depth. *)
Lemma step_scan_or_quiet (c : Config) (t : list Token) (c' : Config) :
  step c = Ok (t, c') ->
  (exists line pos ctl,
     loc c = AtScan line pos
     /\ scan line pos (locals c) = Ok (t, locals c', ctl))
  \/ (Forall (fun tk => Token.type tk = ERRORTOKEN \/ Token.type tk = DEDENT
                        \/ Token.type tk = ENDMARKER \/ Token.type tk = STRING) t
      /\ indents (locals c') = indents (locals c)
      /\ paren_level (locals c') = paren_level (locals c)).
Proof.
  unfold step. intros H.
  assert (Hfin : forall toks,
            finish (locals c) = Ok toks ->
            Forall (fun tk => Token.type tk = ERRORTOKEN \/ Token.type tk = DEDENT
                        \/ Token.type tk = ENDMARKER \/ Token.type tk = STRING)
                   toks).
  { unfold finish, bind, get_or. intros toks Hf.
    case_hyp Hf; try discriminate Hf; injection Hf as <-;
      repeat first [ apply Forall_nil | apply Forall_cons; [cbn; auto|]
                   | apply Forall_app; split ];
      apply Forall_forall; intros tk Hin; apply in_map_iff in Hin;
      destruct Hin as (x & <- & _); cbn; auto. }
  destruct (loc c) as [|line pos|] eqn:Hloc.
  - right. destruct (input c) as [|[|ch l] rest].
    1,2: destruct (finish (locals c)) as [toks| |] eqn:Hf; try discriminate H;
      injection H as <- <-; split; [apply Hfin; reflexivity | split; reflexivity].
    split; [|apply (begin_line_frame _ _ _ _ _ H)].
    unfold begin_line, bind, get_or in H.
    case_hyp H; try discriminate H; injection H as <- <-;
      repeat first [apply Forall_nil | apply Forall_cons]; cbn; auto.
  - destruct (pos <? length line).
    + destruct (scan line pos (locals c)) as [[[toks st'] ctl]| |] eqn:Hs;
        try discriminate H.
      injection H as <- <-. left. exists line, pos, ctl. auto.
    + injection H as <- <-. right. repeat split; constructor.
  - injection H as <- <-. right. repeat split; constructor.
Qed.

Lemma In_repeat_eq (A : Type) (x y : A) (n : nat) : In y (repeat x n) -> y = x.
Proof. intros H; apply repeat_spec in H; assumption. Qed.

(** The tokens of the indentation check are [Indent]s and [Dedent]s. *)
Lemma check_indent_types (spos : Z * Z) (start : nat) (c : ascii) (st : Locals)
  (toks : list Token) (st1 : Locals) :
  check_indent spos start c st = Ok (toks, st1) ->
  Forall (fun tk => Token.type tk = INDENT \/ Token.type tk = DEDENT) toks.
Proof.
  intros H.
  destruct (check_indent_inv _ _ _ _ _ _ H)
    as (_ & [(-> & _) | (_ & [(top & _ & _ & -> & _) | Hd])]).
  - constructor.
  - repeat constructor.
  - destruct (dedent_loop_inv _ _ _ _ _ Hd) as (popped & _ & _ & _ & _ & -> & _).
    apply Forall_repeat. right; reflexivity.
Qed.

(** After a keyword of the recovery heuristic the depth is 0 and the levels
    left on the stack are not to the right of the keyword. *)
Lemma scan_recovery (line : text) (pos : nat) (st : Locals)
  (toks : list Token) (st' : Locals) (ctl : Ctl) (tk : Token) :
  scan line pos st = Ok (toks, st', ctl) ->
  ordered_stack (indents st) ->
  In tk toks -> Token.type tk = NAME ->
  mem (Token.value tk) ALWAYS_BREAK_TOKEN = true ->
  paren_level st' = 0%Z
  /\ Forall (fun level => (Z.of_nat level <= Token._start_pos_col tk)%Z)
            (indents st').
Proof.
  intros H Hord Hin Hty Hmem.
  pose proof (scan_ordered _ _ _ _ _ _ H Hord) as Hord'.
  destruct (scan_inv _ _ _ _ _ _ H)
    as [(txt & -> & _) | (ws & start & c & toks1 & st1 & main & Hci & -> & Hmain)].
  { destruct Hin as [<-|[]]. discriminate Hty. }
  apply in_app_or in Hin. destruct Hin as [Hin|Hin].
  { pose proof (check_indent_types _ _ _ _ _ _ Hci) as Hall.
    rewrite Forall_forall in Hall.
    destruct (Hall _ Hin) as [E|E]; rewrite E in Hty; discriminate Hty. }
  destruct Hmain as [(_ & [-> | (ty & v & p & -> & _ & _ & _ & Hname)])
                    | (v & btoks & p & _ & Hb & Hp & ->)].
  - destruct Hin.
  - destruct Hin as [<-|[]].
    cbn [Token.type Token.value Token.new] in Hty, Hmem.
    rewrite (Hname Hty) in Hmem. discriminate Hmem.
  - rewrite break_loop_dedent_loop in Hb.
    destruct (dedent_loop_inv _ _ _ _ _ Hb)
      as (popped & top & below & _ & _ & -> & E & Hle).
    apply in_app_or in Hin. destruct Hin as [Hin|[<-|[]]].
    { apply In_repeat_eq in Hin. subst tk. discriminate Hty. }
    split; [assumption|].
    cbn [Token._start_pos_col Token.new snd].
    rewrite E in *. inversion Hord' as [|? ? _ Hall]; subst.
    constructor; [lia|].
    eapply Forall_impl; [|exact Hall]. intros x Hx; cbn in Hx; lia.
Qed.

(** Wherever the generator gets: when a transition yields a name that is a
    keyword of [ALWAYS_BREAK_TOKEN], it leaves the nesting depth at 0 and no
    indentation level to the right of the keyword's column.  (The [;] of
    [ALWAYS_BREAK_TOKEN] is never a name.) *)
Theorem recovery_keyword_resets :
  forall (lines : list text) (line_offset : Z) (body : list Token)
    (c : Config) (t : list Token) (c' : Config) (tk : Token),
    reaches (initial_config lines line_offset) body c ->
    step c = Ok (t, c') ->
    In tk t -> Token.type tk = NAME ->
    mem (Token.value tk) ALWAYS_BREAK_TOKEN = true ->
    paren_level (locals c') = 0%Z
    /\ Forall (fun level => (Z.of_nat level <= Token._start_pos_col tk)%Z)
              (indents (locals c')).
Proof.
  intros lines line_offset body c t c' tk Hr Hstep Hin Hty Hmem.
  assert (Hord : ordered_stack (indents (locals c))).
  { apply (reaches_ordered _ _ _ Hr). repeat constructor. }
  destruct (step_scan_or_quiet _ _ _ Hstep)
    as [(line & pos & ctl & _ & Hscan) | (Hall & _)].
  - apply (scan_recovery _ _ _ _ _ _ _ Hscan Hord Hin Hty Hmem).
  - rewrite Forall_forall in Hall.
    destruct (Hall _ Hin) as [E|[E|[E|E]]]; rewrite E in Hty; discriminate Hty.
Qed.

(** An indented line that opens a bracket, then [def] at column 0: the pass
    over the keyword yields a [Dedent] and the keyword. *)
Lemma open_bracket_run :
  exists body c t c' tk,
    reaches (initial_config
               [str "a" ++ [nl]; str "  (b" ++ [nl]; str "def" ++ [nl]] 0)
            body c
    /\ paren_level (locals c) = 1%Z
    /\ indents (locals c) = [2; 0]
    /\ step c = Ok (t, c')
    /\ summary t = [(DEDENT, []); (NAME, str "def")]
    /\ In tk t /\ Token.type tk = NAME
    /\ mem (Token.value tk) ALWAYS_BREAK_TOKEN = true.
Proof.
  do 5 eexists. split; [|split; [|split; [|split; [|split; [|split; [|split]]]]]].
  - apply (steps_reaches 10). vm_compute. reflexivity.
  - reflexivity.
  - reflexivity.
  - vm_compute. reflexivity.
  - reflexivity.
  - right; left; reflexivity.
  - reflexivity.
  - reflexivity.
Qed.

Lemma recovery_keyword_resets_witness :
  exists body c t c' tk,
    reaches (initial_config
               [str "a" ++ [nl]; str "  (b" ++ [nl]; str "def" ++ [nl]] 0)
            body c
    /\ paren_level (locals c) = 1%Z
    /\ indents (locals c) = [2; 0]
    /\ step c = Ok (t, c')
    /\ In tk t /\ Token.type tk = NAME
    /\ mem (Token.value tk) ALWAYS_BREAK_TOKEN = true
    /\ paren_level (locals c') = 0%Z
    /\ Forall (fun level => (Z.of_nat level <= Token._start_pos_col tk)%Z)
              (indents (locals c')).
Proof.
  destruct open_bracket_run
    as (body & c & t & c' & tk & Hr & Hp & Hind & Hstep & _ & Hin & Hty & Hmem).
  exists body, c, t, c', tk.
  repeat (split; [assumption|]).
  exact (recovery_keyword_resets _ _ _ _ _ _ _ Hr Hstep Hin Hty Hmem).
Defined.

(** ** The nesting depth at every yield *)

Lemma at_depth_tokens (st : Locals) (toks : list Token) :
  map fst (at_depth st toks) = toks.
Proof.
  unfold at_depth. rewrite map_map. cbn [fst]. apply map_id.
Qed.

(** Without the depths, [scan_depths] is [scan]. *)
Lemma scan_depths_tokens (line : text) (pos : nat) (st : Locals) :
  map_result (fun r => (map fst (fst (fst r)), snd (fst r), snd r))
             (scan_depths line pos st)
  = scan line pos st.
Proof.
  unfold scan_depths, scan.
  destruct (pseudoprog_match line pos) as [m|].
  2: { destruct (nth_error line pos); reflexivity. }
  destruct (span2 m) as [start e].
  destruct (nth_error line start) as [c|]; [|reflexivity].
  cbn [get_or bind].
  destruct (check_indent (lnum (set_prefix (group1 m) st), Z.of_nat start)
              start c (set_prefix (group1 m) st)) as [[toks1 st1]| |];
    try reflexivity.
  cbn [bind].
  unfold lookup_endprog; unfold bind, get_or.
  case_conditions; unfold map_result; cbn [fst snd];
    rewrite ?map_app, ?at_depth_tokens; try reflexivity; try congruence.
Qed.

(** Without the depths, [step_depths] is [step]. *)
Lemma step_depths_tokens (c : Config) :
  map_result (fun r => (map fst (fst r), snd r)) (step_depths c) = step c.
Proof.
  unfold step_depths.
  assert (Hother :
            map_result (fun r => (map fst (fst r), snd r))
              ('(toks, c') <- step c ;; Ok (at_depth (locals c) toks, c'))
            = step c).
  { destruct (step c) as [[toks c']| |]; cbn [bind map_result fst snd];
      rewrite ?at_depth_tokens; reflexivity. }
  destruct (loc c) as [|line pos|] eqn:Hloc; try exact Hother.
  unfold step. rewrite Hloc.
  destruct (pos <? length line); [|reflexivity].
  rewrite <- (scan_depths_tokens line pos (locals c)).
  destruct (scan_depths line pos (locals c)) as [[[seen st] ctl]| |];
    reflexivity.
Qed.

Ltac depth_facts Htypes Hpl :=
  cbn [app at_depth map]; simpl_locals; rewrite ?app_nil_r;
  (split; [unfold at_depth; rewrite ?Hpl; reflexivity|]);
  (split; [exact Htypes|]); (split; [constructor|]);
  (split; [intros E; contradiction E; reflexivity|]);
  (split; [cbn; lia|]);
  cbn [fold_left depth_step Token.type Token.value Token.new];
  rewrite ?Hpl;
  repeat match goal with
         | Hm : mem _ ALWAYS_BREAK_TOKEN = _ |- _ => rewrite Hm
         | Hs : str_in _ _ = _ |- _ => rewrite Hs
         end;
  reflexivity.

Ltac quiet_pass Htypes Hpl :=
  match goal with
  | |- exists ind rec main, at_depth _ ?t ++ [] = _ /\ _ =>
      exists t, [], []; depth_facts Htypes Hpl
  | |- exists ind rec main, at_depth _ ?t = _ /\ _ =>
      exists t, [], []; depth_facts Htypes Hpl
  end.

Ltac one_token_pass Htypes Hpl :=
  match goal with
  | |- exists ind rec main, at_depth _ ?t ++ [(?x, _)] = _ /\ _ =>
      exists t, [], [x]; depth_facts Htypes Hpl
  end.

(** What the depth counter is while the tokens of one pass are yielded: the
    tokens of the indentation check come at the depth before the pass, the
    dedents of the recovery and the one token with a text at the depth after
    it; the recovery leaves the depth 0 and ends with its keyword. *)
Lemma scan_depths_inv (line : text) (pos : nat) (st : Locals)
  (seen : list (Token * Z)) (st' : Locals) (ctl : Ctl) :
  scan_depths line pos st = Ok (seen, st', ctl) ->
  exists ind rec main,
    seen = at_depth st ind ++ at_depth st' (rec ++ main)
    /\ Forall (fun t => Token.type t = INDENT \/ Token.type t = DEDENT) ind
    /\ Forall (fun t => Token.type t = DEDENT) rec
    /\ (rec <> [] ->
        paren_level st' = 0%Z
        /\ exists k, main = [k] /\ Token.type k = NAME
                     /\ mem (Token.value k) ALWAYS_BREAK_TOKEN = true)
    /\ length main <= 1
    /\ fold_left depth_step main (paren_level st) = paren_level st'.
Proof.
  unfold scan_depths. intros H.
  destruct (pseudoprog_match line pos) as [m|].
  2: { destruct (nth_error line pos) as [c|]; [|discriminate H].
       cbn [get_or bind] in H. injection H as <- <- <-.
       eexists [], [], [_]. cbn [app at_depth map].
       split; [reflexivity|]. split; [constructor|]. split; [constructor|].
       split; [intros E; contradiction E; reflexivity|].
       split; [cbn; lia | reflexivity]. }
  destruct (span2 m) as [start e].
  destruct (nth_error line start) as [c|]; [|discriminate H].
  cbn [get_or bind] in H.
  destruct (check_indent (lnum (set_prefix (group1 m) st), Z.of_nat start)
              start c (set_prefix (group1 m) st)) as [[toks1 st1]| |] eqn:Hci;
    try discriminate H.
  pose proof (check_indent_types _ _ _ _ _ _ Hci) as Htypes.
  assert (Hpl : paren_level st1 = paren_level st).
  { clear H. unfold check_indent in Hci. unfold bind, get_or in Hci.
    case_hyp Hci; try discriminate Hci; injection Hci as <- <-; reflexivity. }
  assert (Hat : at_depth st1 toks1 = at_depth st toks1).
  { unfold at_depth. rewrite Hpl. reflexivity. }
  cbn [bind] in H. rewrite Hat in H.
  unfold lookup_endprog in H; unfold bind, get_or in H.
  case_hyp H; try discriminate H; injection H as <- <- <-;
    simpl_locals;
    try solve [ quiet_pass Htypes Hpl | one_token_pass Htypes Hpl ].
  match goal with
  | Hb : break_loop _ _ _ = _ |- _ =>
      rewrite break_loop_dedent_loop in Hb;
      destruct (dedent_loop_inv _ _ _ _ _ Hb) as (popped & _ & _ & _ & _ & -> & _)
  end.
  eexists toks1, _, [_]. split; [|split; [exact Htypes|split; [|split; [|split]]]].
  - unfold at_depth. rewrite map_app. reflexivity.
  - apply Forall_repeat. reflexivity.
  - intros _. split; [reflexivity|]. eexists; split; [reflexivity|].
    split; [reflexivity | assumption].
  - cbn; lia.
  - cbn [fold_left depth_step Token.type Token.value Token.new].
    match goal with
    | Hm : mem _ ALWAYS_BREAK_TOKEN = true |- _ => rewrite Hm
    end.
    reflexivity.
Qed.

Lemma fold_depth_neutral (toks : list Token) (d : Z) :
  Forall depth_neutral toks -> fold_left depth_step toks d = d.
Proof.
  induction 1 as [|t toks [Hop Hname] _ IH]; [reflexivity|].
  cbn [fold_left]. rewrite <- IH at 2. f_equal.
  unfold depth_step. destruct (Token.type t); try reflexivity; congruence.
Qed.

Lemma depth_of_neutral (toks more : list Token) :
  Forall depth_neutral more -> depth_of (toks ++ more) = depth_of toks.
Proof.
  intros H. unfold depth_of. rewrite fold_left_app. apply fold_depth_neutral, H.
Qed.

Lemma at_depth_split (st : Locals) (toks : list Token)
  (pre : list (Token * Z)) (t : Token) (d : Z) (post : list (Token * Z)) :
  at_depth st toks = pre ++ (t, d) :: post ->
  d = paren_level st
  /\ exists before after,
       toks = before ++ t :: after
       /\ pre = at_depth st before /\ post = at_depth st after.
Proof.
  unfold at_depth. intros H.
  apply map_eq_app in H. destruct H as (before & rest & -> & <- & H).
  apply map_eq_cons in H. destruct H as (x & after & -> & E & <-).
  injection E as -> <-. split; [reflexivity|].
  exists before, after. auto.
Qed.

Lemma neutral_structural (toks : list Token) :
  Forall (fun t => Token.type t = INDENT \/ Token.type t = DEDENT) toks ->
  Forall depth_neutral toks.
Proof.
  apply Forall_impl. intros t [E|E]; split; rewrite E; discriminate.
Qed.

Lemma neutral_dedents (toks : list Token) :
  Forall (fun t => Token.type t = DEDENT) toks -> Forall depth_neutral toks.
Proof.
  apply Forall_impl. intros t E; split; rewrite E; discriminate.
Qed.

(** The depth at the yields of one pass of the scanning loop. *)
Lemma scan_depths_spec (line : text) (pos : nat) (st : Locals)
  (seen : list (Token * Z)) (st' : Locals) (ctl : Ctl) (toks : list Token) :
  scan_depths line pos st = Ok (seen, st', ctl) ->
  paren_level st = depth_of toks ->
  forall pre t d post,
    seen = pre ++ (t, d) :: post ->
    d = depth_of (toks ++ map fst pre ++ [t])
    \/ (Token.type t = DEDENT /\ d = 0%Z
        /\ exists k,
             In (k, 0%Z) post /\ Token.type k = NAME
             /\ mem (Token.value k) ALWAYS_BREAK_TOKEN = true).
Proof.
  intros H Hd pre t d post E.
  destruct (scan_depths_inv _ _ _ _ _ _ H)
    as (ind & rec & main & -> & Hind & Hrec & Hreset & Hlen & Hfold).
  apply neutral_structural in Hind. pose proof (neutral_dedents _ Hrec) as Hrec'.
  apply app_eq_app in E. destruct E as (mid & [[E1 E2] | [E1 E2]]).
  - (* the token is in the second part, or at the head of [mid] *)
    destruct mid as [|x mid].
    + (* exactly at the border *)
      rewrite app_nil_r in E1. subst pre. cbn [app] in E2.
      symmetry in E2.
      change ((t, d) :: post) with ([] ++ (t, d) :: post) in E2.
      apply at_depth_split in E2.
      destruct E2 as (-> & before & after & Hsplit & Hb & ->).
      destruct before; [|discriminate Hb]. cbn [app] in Hsplit.
      rewrite at_depth_tokens.
      destruct rec as [|r rec].
      * cbn [app] in Hsplit. subst main. cbn [length] in Hlen.
        destruct after; [|cbn in Hlen; lia].
        left. unfold depth_of. rewrite !fold_left_app.
        rewrite (fold_depth_neutral ind) by assumption.
        fold (depth_of toks). rewrite <- Hd. symmetry; exact Hfold.
      * cbn [app] in Hsplit. injection Hsplit as <- <-.
        destruct Hreset as (Hz & k & -> & Hk & Hkw); [discriminate|].
        right. inversion Hrec; subst. split; [assumption|]. split; [assumption|].
        exists k. split; [|split; assumption].
        unfold at_depth. rewrite Hz. apply in_map_iff. exists k.
        split; [reflexivity|]. apply in_or_app; right; left; reflexivity.
    + (* inside the tokens of the indentation check *)
      cbn [app] in E2. injection E2 as <- ->.
      apply at_depth_split in E1.
      destruct E1 as (-> & before & after & -> & -> & _).
      left. rewrite at_depth_tokens, Hd.
      symmetry. apply depth_of_neutral.
      apply Forall_app in Hind. destruct Hind as [Hb Ha].
      apply Forall_app; split; [assumption|].
      inversion Ha; subst. constructor; [assumption | constructor].
  - (* in the second part *)
    subst pre. apply at_depth_split in E2.
    destruct E2 as (-> & before & after & Hsplit & -> & ->).
    rewrite map_app, !at_depth_tokens.
    apply app_eq_app in Hsplit. destruct Hsplit as (l & [[F1 F2] | [F1 F2]]).
    + destruct l as [|x l].
      * rewrite app_nil_r in F1. subst before. cbn [app] in F2. subst main.
        cbn [length] in Hlen. destruct after; [|cbn in Hlen; lia].
        left. unfold depth_of. rewrite !fold_left_app.
        rewrite (fold_depth_neutral ind) by assumption.
        rewrite (fold_depth_neutral rec) by assumption.
        fold (depth_of toks). rewrite <- Hd. symmetry; exact Hfold.
      * cbn [app] in F2. injection F2 as <- ->. subst rec.
        destruct Hreset as (Hz & k & -> & Hk & Hkw).
        { intros Hnil. apply app_eq_nil in Hnil. destruct Hnil; discriminate. }
        right. apply Forall_app in Hrec. destruct Hrec as [_ Hrec].
        inversion Hrec; subst. split; [assumption|]. split; [assumption|].
        exists k. split; [|split; assumption].
        unfold at_depth. rewrite Hz. apply in_map_iff. exists k.
        split; [reflexivity|]. apply in_or_app; right; left; reflexivity.
    + subst before.
      destruct l as [|x l].
      * cbn [app] in F2. rewrite app_nil_r. subst main.
        cbn [length] in Hlen. destruct after; [|cbn in Hlen; lia].
        left. unfold depth_of. rewrite !fold_left_app.
        rewrite (fold_depth_neutral ind) by assumption.
        rewrite (fold_depth_neutral rec) by assumption.
        fold (depth_of toks). rewrite <- Hd. symmetry; exact Hfold.
      * subst main. rewrite length_app in Hlen. cbn [length] in Hlen. lia.
Qed.

Lemma readline_step_neutral (c : Config) (t : list Token) (c' : Config) :
  step_outcome c t c' -> loc c = AtReadline -> Forall depth_neutral t.
Proof.
  intros H Hloc.
  destruct H as [up Hl Hex Hc Hup | up sp Hl Hex Hc Hup Hsp
                | line rest Hl Hin Hne Hc
                | line rest p sp m tail Hl Hin Hne Hc Hp Hsp Hline Hm
                | line rest l Hl Hin Hne Hc Hl'
                | line pos t st' ctl Hl Hpos Hout
                | line pos Hl Hpos];
    try congruence;
    repeat first [ apply Forall_nil
                 | apply Forall_cons; [split; discriminate|]
                 | apply Forall_app; split
                 | apply Forall_repeat; split; discriminate ].
Qed.

(** The depth at the yields of one transition. *)
Lemma step_depths_spec (c : Config) (toks : list Token)
  (seen : list (Token * Z)) (c' : Config) :
  Inv c ->
  paren_level (locals c) = depth_of toks ->
  step_depths c = Ok (seen, c') ->
  forall pre t d post,
    seen = pre ++ (t, d) :: post ->
    d = depth_of (toks ++ map fst pre ++ [t])
    \/ (Token.type t = DEDENT /\ d = 0%Z
        /\ exists k,
             In (k, 0%Z) post /\ Token.type k = NAME
             /\ mem (Token.value k) ALWAYS_BREAK_TOKEN = true).
Proof.
  intros HI Hd H pre t d post E.
  unfold step_depths in H.
  destruct (loc c) as [|line pos|] eqn:Hloc.
  - destruct (step c) as [[t1 c1]| |] eqn:Hstep; try discriminate H.
    cbn [bind] in H. injection H as <- <-.
    assert (Hnf : loc c <> Finished) by (rewrite Hloc; discriminate).
    pose proof (readline_step_neutral _ _ _
                  (step_outcome_of_step c t1 c1 HI Hnf Hstep) Hloc) as Hn.
    apply at_depth_split in E.
    destruct E as (-> & before & after & -> & -> & _).
    left. rewrite at_depth_tokens, Hd. symmetry. apply depth_of_neutral.
    apply Forall_app in Hn. destruct Hn as [Hb Ha].
    apply Forall_app; split; [assumption|].
    inversion Ha; subst. constructor; [assumption | constructor].
  - destruct (pos <? length line).
    + destruct (scan_depths line pos (locals c)) as [[[seen0 st] ctl]| |] eqn:Hs;
        try discriminate H.
      cbn [bind] in H. injection H as <- <-.
      exact (scan_depths_spec _ _ _ _ _ _ toks Hs Hd pre t d post E).
    + injection H as <- <-. destruct pre; discriminate E.
  - unfold step in H. rewrite Hloc in H. cbn [bind] in H.
    injection H as <- <-. destruct pre; discriminate E.
Qed.

Lemma step_depths_total (c : Config) :
  Inv c ->
  exists seen c',
    step_depths c = Ok (seen, c') /\ step c = Ok (map fst seen, c').
Proof.
  intros HI.
  assert (Hstep : exists t c', step c = Ok (t, c')).
  { destruct (loc c) eqn:Hloc;
      try (destruct (step_spec c HI) as (t & c' & Hs & _);
           [rewrite Hloc; discriminate | eauto]).
    unfold step. rewrite Hloc. eauto. }
  destruct Hstep as (t & c' & Hstep).
  pose proof (step_depths_tokens c) as E. rewrite Hstep in E.
  destruct (step_depths c) as [[seen c1]| |]; try discriminate E.
  cbn [map_result fst snd] in E. injection E as <- <-.
  exists seen, c1. split; [reflexivity | exact Hstep].
Qed.

Lemma depth_at_passes (lines : list text) (line_offset : Z)
  (toks : list Token) (c : Config) :
  reaches (initial_config lines line_offset) toks c ->
  paren_level (locals c) = depth_of toks.
Proof.
  intros Hr.
  apply (reaches_invariant
           (fun toks c => paren_level (locals c) = depth_of toks)
           (initial_config lines line_offset));
    [apply initial_config_Inv | reflexivity | | assumption].
  clear toks c Hr; intros toks c t c' _ HP Hstep.
  unfold depth_of in *. rewrite fold_left_app, <- HP.
  symmetry; apply step_outcome_depth; assumption.
Qed.

(** A closing bracket on its own: the one line [")\n"], read to the end of the
    bracket. *)
Lemma unmatched_closer_run :
  exists toks c,
    reaches (initial_config [str ")" ++ [nl]] 0) toks c
    /\ summary toks = [(OP, str ")")]
    /\ paren_level (locals c) = (-1)%Z.
Proof.
  do 2 eexists. split; [|split].
  - rewrite <- (app_nil_l _).
    eapply reaches_step.
    + rewrite <- (app_nil_l []).
      eapply reaches_step; [apply reaches_here | discriminate | reflexivity].
    + discriminate.
    + reflexivity.
  - reflexivity.
  - reflexivity.
Qed.

(** C5, as stated, fails: after the closing bracket of the input [")"] the
    depth counter is -1. *)
Lemma paren_level_negative_counterexample :
  exists toks c,
    reaches (initial_config [str ")" ++ [nl]] 0) toks c
    /\ (paren_level (locals c) <? 0)%Z = true.
Proof.
  destruct unmatched_closer_run as (toks & c & Hr & _ & Hp).
  exists toks, c; split; [assumption|]. rewrite Hp; reflexivity.
Qed.

(** The recovery at work: with one bracket open, the keyword [def] resets
    the depth, and its [Dedent] is yielded at depth 0 before the keyword
    itself. *)
Lemma recovery_dedent_depth :
  exists toks c seen c',
    reaches (initial_config recovery_lines 0) toks c
    /\ depth_of toks = 1%Z
    /\ step_depths c = Ok (seen, c')
    /\ map (fun x => (Token.type (fst x), Token.value (fst x), snd x)) seen
       = [(DEDENT, [], 0%Z); (NAME, str "def", 0%Z)].
Proof.
  do 4 eexists. split; [|split; [|split]].
  - apply (steps_reaches 13). vm_compute. reflexivity.
  - reflexivity.
  - vm_compute. reflexivity.
  - reflexivity.
Qed.

(** C5, amended: the depth counter is an integer with no lower bound; it is
    negative after a closing bracket that has no matching opener.  Between
    two passes of the loops it is the number of opening brackets minus the
    number of closing brackets among the [Operator] tokens yielded since the
    last keyword of the recovery heuristic (or since the start).  The same
    holds at every [yield], the token yielded counted in, with one exception:
    the recovery sets the counter to 0 before it yields its [Dedent]s, which
    come before the [Name] of the keyword; at such a [Dedent] the counter is
    0 whatever the brackets yielded so far. *)
Theorem paren_level_tracks_brackets :
  forall (lines : list text) (line_offset : Z) (toks : list Token) (c : Config),
    reaches (initial_config lines line_offset) toks c ->
    paren_level (locals c) = depth_of toks
    /\ exists seen c',
         step_depths c = Ok (seen, c')
         /\ step c = Ok (map fst seen, c')
         /\ forall pre t d post,
              seen = pre ++ (t, d) :: post ->
              d = depth_of (toks ++ map fst pre ++ [t])
              \/ (Token.type t = DEDENT /\ d = 0%Z
                  /\ exists k,
                       In (k, 0%Z) post /\ Token.type k = NAME
                       /\ mem (Token.value k) ALWAYS_BREAK_TOKEN = true).
Proof.
  intros lines line_offset toks c Hr.
  pose proof (depth_at_passes _ _ _ _ Hr) as Hd.
  assert (HI : Inv c)
    by (eapply reaches_Inv; [exact Hr | apply initial_config_Inv]).
  split; [exact Hd|].
  destruct (step_depths_total c HI) as (seen & c' & Hs & Hstep).
  exists seen, c'. split; [exact Hs|]. split; [exact Hstep|].
  exact (step_depths_spec c toks seen c' HI Hd Hs).
Qed.

Lemma paren_level_tracks_brackets_witness :
  exists toks c,
    reaches (initial_config recovery_lines 0) toks c
    /\ depth_of toks = 1%Z
    /\ paren_level (locals c) = depth_of toks
    /\ exists seen c',
         step_depths c = Ok (seen, c')
         /\ step c = Ok (map fst seen, c')
         /\ forall pre t d post,
              seen = pre ++ (t, d) :: post ->
              d = depth_of (toks ++ map fst pre ++ [t])
              \/ (Token.type t = DEDENT /\ d = 0%Z
                  /\ exists k,
                       In (k, 0%Z) post /\ Token.type k = NAME
                       /\ mem (Token.value k) ALWAYS_BREAK_TOKEN = true).
Proof.
  destruct recovery_dedent_depth as (toks & c & seen & c' & Hr & Hd & _).
  exists toks, c. split; [exact Hr|]. split; [exact Hd|].
  exact (paren_level_tracks_brackets _ _ _ _ Hr).
Defined.

(** ** Inside brackets *)

Lemma calm_app (d : Z) (a b : list Token) :
  calm d a -> calm (fold_left depth_step a d) b -> calm d (a ++ b).
Proof.
  revert d; induction a as [|t a IH]; intros d Ha Hb; [assumption|].
  destruct Ha as [Ht Ha]. split; [assumption|]. apply IH; assumption.
Qed.

Lemma calm_split (d : Z) (a : list Token) (tk : Token) (b : list Token) :
  calm d (a ++ tk :: b) -> fold_left depth_step a d <> 0%Z ->
  Token.type tk <> NEWLINE /\ Token.type tk <> INDENT.
Proof.
  revert d; induction a as [|t a IH]; intros d H Hd.
  - destruct H as [H _]. apply H; assumption.
  - destruct H as [_ H]. apply (IH _ H Hd).
Qed.

Lemma calm_quiet (d : Z) (toks : list Token) :
  Forall (fun tk => Token.type tk <> NEWLINE /\ Token.type tk <> INDENT) toks ->
  calm d toks.
Proof.
  intros H; revert d; induction H as [|t toks Ht Htoks IH]; intros d;
    [exact I|]. split; [intros _; assumption | apply IH].
Qed.

(** At depth 0 the tokens of the indentation check change nothing. *)
Lemma calm_structure (toks : list Token) :
  Forall (fun tk => Token.type tk = INDENT \/ Token.type tk = DEDENT) toks ->
  calm 0 toks /\ fold_left depth_step toks 0%Z = 0%Z.
Proof.
  induction 1 as [|t toks Ht Htoks [IH1 IH2]]; [split; [exact I | reflexivity]|].
  assert (E : depth_step 0 t = 0%Z)
    by (unfold depth_step; destruct Ht as [-> | ->]; reflexivity).
  cbn [calm fold_left]. rewrite E.
  split; [split; [intros H; contradiction H; reflexivity | assumption]
         | assumption].
Qed.

Lemma scan_calm (line : text) (pos : nat) (st : Locals)
  (toks : list Token) (st' : Locals) (ctl : Ctl) :
  scan line pos st = Ok (toks, st', ctl) -> calm (paren_level st) toks.
Proof.
  intros H.
  destruct (scan_inv _ _ _ _ _ _ H)
    as [(txt & -> & _) | (ws & start & c & toks1 & st1 & main & Hci & -> & Hmain)].
  { split; [intros _; split; discriminate | exact I]. }
  pose proof (check_indent_types _ _ _ _ _ _ Hci) as Htypes.
  destruct (check_indent_inv _ _ _ _ _ _ Hci) as (Hp1 & Hcase).
  simpl_locals.
  assert (Hpre : calm (paren_level st) toks1
                 /\ fold_left depth_step toks1 (paren_level st) = paren_level st).
  { destruct Hcase as [(-> & _) | (Hp & _)]; [split; [exact I | reflexivity]|].
    rewrite Hp. apply calm_structure; assumption. }
  destruct Hpre as [Hc1 Hd1].
  apply calm_app; [assumption|]. rewrite Hd1.
  destruct Hmain as [(_ & [-> | (ty & v & p & -> & Hi & _ & Hnl & _)])
                    | (v & btoks & p & _ & Hb & _ & ->)].
  - exact I.
  - split; [|exact I]. intros Hd. split; [|assumption].
    intros E. apply Hd. rewrite <- Hp1. apply Hnl; assumption.
  - rewrite break_loop_dedent_loop in Hb.
    destruct (dedent_loop_inv _ _ _ _ _ Hb) as (popped & _ & _ & _ & _ & -> & _).
    apply calm_quiet. apply Forall_app; split.
    + apply Forall_repeat; split; discriminate.
    + repeat constructor; discriminate.
Qed.

Lemma step_calm (c : Config) (t : list Token) (c' : Config) :
  step c = Ok (t, c') -> calm (paren_level (locals c)) t.
Proof.
  intros H.
  destruct (step_scan_or_quiet _ _ _ H)
    as [(line & pos & ctl & _ & Hscan) | (Hall & _)].
  - apply (scan_calm _ _ _ _ _ _ Hscan).
  - apply calm_quiet. eapply Forall_impl; [|exact Hall].
    intros tk [E|[E|[E|E]]]; rewrite E; split; discriminate.
Qed.

Lemma reaches_calm (lines : list text) (off : Z) (toks : list Token)
  (c : Config) :
  reaches (initial_config lines off) toks c ->
  paren_level (locals c) = depth_of toks /\ calm 0 toks.
Proof.
  induction 1 as [|toks c t c' Hr [IHd IHc] Hloc Hstep];
    [split; [reflexivity | exact I]|].
  assert (HI : Inv c)
    by (eapply reaches_Inv; [exact Hr | apply initial_config_Inv]).
  pose proof (step_outcome_of_step c t c' HI Hloc Hstep) as Hout.
  split.
  - unfold depth_of in *. rewrite fold_left_app, <- IHd.
    symmetry; apply step_outcome_depth; assumption.
  - apply calm_app; [assumption|].
    fold (depth_of toks). rewrite <- IHd. apply (step_calm _ _ _ Hstep).
Qed.

(** For every input, no [NewLine] and no [Indent] is yielded inside brackets:
    a token that comes when the tokens before it leave the nesting depth
    (opening minus closing brackets since the last recovery keyword) other
    than 0 is neither of them. *)
Theorem no_line_structure_inside_brackets :
  forall (lines : list text) (line_offset : Z),
  exists toks,
    generate_tokens lines line_offset = Ok toks
    /\ forall before tk after,
         toks = before ++ tk :: after -> depth_of before <> 0%Z ->
         Token.type tk <> NEWLINE /\ Token.type tk <> INDENT.
Proof.
  intros lines line_offset.
  destruct (generate_tokens_completes lines line_offset) as (toks & Hgen & Hc).
  exists toks; split; [assumption|].
  destruct (completes_reaches _ _ Hc) as (c' & Hr & _).
  destruct (reaches_calm _ _ _ _ Hr) as [_ Hcalm].
  intros before tk after -> Hd.
  apply (calm_split _ _ _ _ Hcalm Hd).
Qed.

(** ** The tables of the string openers *)

Lemma char_in_In (c : ascii) (s : text) : char_in c s = true -> In c s.
Proof.
  induction s as [|x s IH]; intros H; [discriminate H|].
  apply char_in_cons in H. destruct H as [-> | H]; [left | right; apply IH];
    auto.
Qed.

Lemma matches_lit (c : ascii) (s : text) : matches (lit c) s -> s = [c].
Proof.
  intros (x & -> & Hx). apply Ascii.eqb_eq in Hx. subst; reflexivity.
Qed.

Lemma matches_opt_set (chars : string) (s : text) :
  matches (Opt (set chars)) s ->
  s = [] \/ exists c, s = [c] /\ In c (str chars).
Proof.
  intros [(c & -> & Hc) | ->]; [right | left; reflexivity].
  exists c; split; [reflexivity | apply char_in_In; assumption].
Qed.

(** Every text the [triple] pattern matches is a key of [triple_quoted], and
    [endprogs] holds for it the closing pattern of its own quotes: [single3]
    after three single quotes, [double3] after three double quotes.  So the
    lookup [endprogs[token]] raises no [KeyError], and a triple-quoted string
    is closed by the quotes that opened it. *)
Theorem triple_openers_have_closers :
  forall tok : text,
    matches triple tok ->
    mem tok triple_quoted = true
    /\ exists pre,
         (tok = pre ++ [squote; squote; squote]
          /\ dict_get endprogs tok = Some (Some single3))
         \/ (tok = pre ++ [dquote; dquote; dquote]
             /\ dict_get endprogs tok = Some (Some double3)).
Proof.
  intros tok H.
  destruct H as [H|H];
    destruct H as (p1 & r1 & -> & Hp1 & p2 & r2 & -> & Hp2
                   & a & r3 & -> & Ha & b & c & -> & Hb & Hc);
    apply matches_lit in Ha, Hb, Hc; subst a b c;
    apply matches_opt_set in Hp1, Hp2;
    destruct Hp1 as [-> | (c1 & -> & Hc1)];
    destruct Hp2 as [-> | (c2 & -> & Hc2)];
    cbn [str list_ascii_of_string In] in *;
    repeat match goal with
           | Hin : _ \/ _ |- _ => destruct Hin as [<- | Hin]
           | Hin : False |- _ => destruct Hin
           end;
    (split; [vm_compute; reflexivity|]);
    first [ exists []; left; split; [reflexivity | vm_compute; reflexivity]
          | exists []; right; split; [reflexivity | vm_compute; reflexivity]
          | eexists [_]; left; split; [reflexivity | vm_compute; reflexivity]
          | eexists [_]; right; split; [reflexivity | vm_compute; reflexivity]
          | eexists [_; _]; left; split; [reflexivity | vm_compute; reflexivity]
          | eexists [_; _]; right; split; [reflexivity | vm_compute; reflexivity] ].
Qed.

Lemma triple_openers_have_closers_witness :
  matches triple (q3 "bR")
  /\ mem (q3 "bR") triple_quoted = true
  /\ exists pre,
       (q3 "bR" = pre ++ [squote; squote; squote]
        /\ dict_get endprogs (q3 "bR") = Some (Some single3))
       \/ (q3 "bR" = pre ++ [dquote; dquote; dquote]
           /\ dict_get endprogs (q3 "bR") = Some (Some double3)).
Proof.
  assert (H : matches triple (q3 "bR")).
  { left. exists (str "b"), (str "R" ++ [squote; squote; squote]).
    split; [reflexivity|]. split; [left; exists "b"%char; split; reflexivity|].
    exists (str "R"), [squote; squote; squote].
    split; [reflexivity|]. split; [left; exists "R"%char; split; reflexivity|].
    exists [squote], [squote; squote].
    split; [reflexivity|]. split; [exists squote; split; reflexivity|].
    exists [squote], [squote].
    split; [reflexivity|].
    split; exists squote; split; reflexivity. }
  split; [exact H|]. exact (triple_openers_have_closers _ H).
Defined.

(** In the branch of the one-line strings (the token's first character, first
    two or first three characters are a key of [single_quoted]), the closing
    pattern the lookup chain picks for a string that continues on the next
    line is the one of the token's opening quote, the first quote character of
    the token: [single] for a single quote, [double] for a double quote; no
    indexing of the chain is out of range. *)
Theorem continued_string_closer :
  forall (c : ascii) (tok : text),
    mem [c] single_quoted || mem (firstn 2 (c :: tok)) single_quoted
      || mem (firstn 3 (c :: tok)) single_quoted = true ->
    exists pre q rest,
      c :: tok = pre ++ q :: rest
      /\ Forall (fun x => char_in x [squote; dquote] = false) pre
      /\ ((q = squote /\ lookup_endprog c (c :: tok) = Ok (Some single))
          \/ (q = dquote /\ lookup_endprog c (c :: tok) = Ok (Some double))).
Proof.
  intros c tok H.
  apply orb_true_iff in H; destruct H as [H|H];
    [apply orb_true_iff in H; destruct H as [H|H]|];
    apply mem_In in H;
    destruct tok as [|c1 [|c2 tok]]; vm_compute in H;
    repeat (destruct H as [H|H];
            [try discriminate H; inversion H; subst;
             first
               [ eexists [], _, _; split; [reflexivity|];
                 split; [constructor|];
                 first [ left; split; [reflexivity | vm_compute; reflexivity]
                       | right; split; [reflexivity | vm_compute; reflexivity] ]
               | eexists [_], _, _; split; [reflexivity|];
                 split; [repeat constructor|];
                 first [ left; split; [reflexivity | vm_compute; reflexivity]
                       | right; split; [reflexivity | vm_compute; reflexivity] ]
               | eexists [_; _], _, _; split; [reflexivity|];
                 split; [repeat constructor|];
                 first [ left; split; [reflexivity | vm_compute; reflexivity]
                       | right; split; [reflexivity | vm_compute; reflexivity] ] ]
            |]);
    destruct H.
Qed.

Lemma continued_string_closer_witness :
  exists pre q rest,
    str "bR" ++ dquote :: str "x" ++ [bsl; nl] = pre ++ q :: rest
    /\ Forall (fun x => char_in x [squote; dquote] = false) pre
    /\ ((q = squote
         /\ lookup_endprog "b" (str "bR" ++ dquote :: str "x" ++ [bsl; nl])
            = Ok (Some single))
        \/ (q = dquote
            /\ lookup_endprog "b" (str "bR" ++ dquote :: str "x" ++ [bsl; nl])
               = Ok (Some double))).
Proof.
  apply (continued_string_closer "b" (str "R" ++ dquote :: str "x" ++ [bsl; nl])).
  reflexivity.
Defined.

(** ** The token entity *)

(** The state of a token holds all of it: [__setstate__] with the state that
    [__getstate__] returned for [b] turns any token into [b], and
    [__getstate__] returns the state that [__setstate__] was given; nothing
    of the token that was there before is left. *)
Theorem token_state_round_trip :
  forall (a b : Token) (state : Token.State),
    Token.__setstate__ a (Token.__getstate__ b) = b
    /\ Token.__getstate__ (Token.__setstate__ a state) = state
    /\ Token.start_pos (Token.__setstate__ a state)
       = (snd (fst (fst state)), snd (fst state)).
Proof.
  intros a [ty v l c p] [[[[ty' v'] l'] c'] p']. repeat split.
Qed.

Lemma endswith_count_nl (v : text) :
  endswith v [nl] = true -> 1 <= count_nl v.
Proof.
  destruct v as [|x v]; [discriminate|].
  destruct (last_item_cons _ x v) as (y & l' & -> & _).
  rewrite endswith_last, count_nl_snoc. intros H.
  apply Ascii.eqb_eq in H; subst y. rewrite Ascii.eqb_refl. lia.
Qed.

(** [end_pos] raises nothing, and the end is never before the start: its line
    is the start line or a later one, and when it is the start line its column
    is the start column plus the length of the value. *)
Theorem end_pos_not_before_start :
  forall tok : Token,
  exists line col,
    Token.end_pos tok = Ok (line, col)
    /\ (Token._start_pos_line tok <= line)%Z
    /\ (line = Token._start_pos_line tok ->
        col = (Token._start_pos_col tok + len (Token.value tok))%Z).
Proof.
  intros tok. rewrite end_pos_derived. unfold derived_end.
  destruct (endswith (Token.value tok) [nl]) eqn:Hend.
  - apply endswith_count_nl in Hend.
    destruct (count_nl (Token.value tok) =? 1) eqn:Hn.
    + do 2 eexists. split; [reflexivity|]. split; [lia | reflexivity].
    + apply Nat.eqb_neq in Hn.
      do 2 eexists. split; [reflexivity|]. split; lia.
  - destruct (count_nl (Token.value tok) =? 0) eqn:Hn.
    + do 2 eexists. split; [reflexivity|]. split; [lia | reflexivity].
    + apply Nat.eqb_neq in Hn.
      do 2 eexists. split; [reflexivity|]. split; lia.
Qed.

(** ** The empty input *)

(** When [readline] has nothing to return, the stream is the [EndMarker]
    alone, at column 0 of the line [line_offset], with an empty prefix.  Of
    the empty source text [source_tokens] makes the one line ["\n"]: a
    [NewLine] and the [EndMarker], both on the line [line_offset + 1]. *)
Theorem empty_input_tokens :
  forall (more : list text) (line_offset : Z),
    generate_tokens [] line_offset
    = Ok [Token.new ENDMARKER [] (line_offset, 0%Z) []]
    /\ generate_tokens ([] :: more) line_offset
       = Ok [Token.new ENDMARKER [] (line_offset, 0%Z) []]
    /\ source_tokens [] line_offset
       = Ok [Token.new NEWLINE [nl] ((line_offset + 1)%Z, 0%Z) [];
             Token.new ENDMARKER [] ((line_offset + 1)%Z, 0%Z) []].
Proof.
  intros more line_offset. split; [reflexivity|]. split.
  - unfold generate_tokens; cbn [budget initial_config loc input lines_budget].
    reflexivity.
  - vm_compute. reflexivity.
Qed.

(** ** The matcher finds the matches *)

(** For a pattern without lookahead the matcher is complete: when the pattern
    matches a prefix of the text and the continuation accepts what follows,
    the matcher does not fail (it returns this match or one it tried
    before). *)
Lemma exec_complete (r : regex) :
  plain r = true ->
  forall (A : Type) (s1 s2 : text) (k : text -> option A),
    matches r s1 -> k s2 <> None -> exec r (s1 ++ s2) k <> None.
Proof.
  induction r as [|p|a IHa b IHb|a IHa b IHb|a IHa|a IHa];
    cbn [plain]; intros Hp A s1 s2 k Hm Hk.
  - change (s1 = []) in Hm. subst s1. exact Hk.
  - destruct Hm as (c & -> & Hc).
    change ((if p c then k s2 else None) <> None). rewrite Hc. exact Hk.
  - apply andb_true_iff in Hp. destruct Hp as [Hpa Hpb].
    destruct Hm as (u & v & -> & Hu & Hv).
    rewrite <- app_assoc.
    change (exec a (u ++ v ++ s2) (fun s' => exec b s' k) <> None).
    apply (IHa Hpa); [assumption|]. apply (IHb Hpb); assumption.
  - apply andb_true_iff in Hp. destruct Hp as [Hpa Hpb].
    change (match exec a (s1 ++ s2) k with
            | Some x => Some x
            | None => exec b (s1 ++ s2) k
            end <> None).
    destruct (exec a (s1 ++ s2) k) eqn:E; [discriminate|].
    destruct Hm as [Hm|Hm].
    + exfalso. apply (IHa Hpa _ _ _ _ Hm Hk). assumption.
    + apply (IHb Hpb); assumption.
  - destruct Hm as (ss & -> & Hall).
    set (loop :=
           fix loop (n : nat) (s : text) {struct n} : option A :=
             match n with
             | O => k s
             | S n' =>
                 match exec a s (fun s' =>
                         if length s' <? length s then loop n' s' else None) with
                 | Some x => Some x
                 | None => k s
                 end
             end).
    change (loop (length (concat ss ++ s2)) (concat ss ++ s2) <> None).
    assert (Hloop : forall ss n,
              Forall (matches a) ss -> length (concat ss ++ s2) <= n ->
              loop n (concat ss ++ s2) <> None).
    { clear ss Hall. intros ss; induction ss as [|x ss IH]; intros n Hall Hn.
      - cbn [concat app]. destruct n as [|n]; [exact Hk|].
        change (match exec a s2
                        (fun s' => if length s' <? length s2
                                   then loop n s' else None) with
                | Some x => Some x
                | None => k s2
                end <> None).
        destruct (exec a s2
                    (fun s' => if length s' <? length s2 then loop n s' else None));
          [discriminate | exact Hk].
      - inversion Hall as [|? ? Hx Hss]; subst.
        destruct x as [|c x]; [apply IH; assumption|].
        cbn [concat]. rewrite <- app_assoc.
        destruct n as [|n];
          [cbn [concat app length] in Hn; lia|].
        set (rest := concat ss ++ s2) in *.
        assert (Hrest : loop n rest <> None).
        { apply IH; [assumption|].
          cbn [concat] in Hn. rewrite <- app_assoc in Hn. fold rest in Hn.
          rewrite length_app in Hn. cbn [length] in Hn. lia. }
        assert (Hex : exec a ((c :: x) ++ rest)
                        (fun s' => if length s' <? length ((c :: x) ++ rest)
                                   then loop n s' else None) <> None).
        { apply (IHa Hp); [assumption|].
          replace (length rest <? length ((c :: x) ++ rest)) with true;
            [assumption|].
          symmetry; apply Nat.ltb_lt. rewrite length_app; cbn [length]; lia. }
        change (match exec a ((c :: x) ++ rest)
                        (fun s' => if length s' <? length ((c :: x) ++ rest)
                                   then loop n s' else None) with
                | Some y => Some y
                | None => k ((c :: x) ++ rest)
                end <> None).
        destruct (exec a ((c :: x) ++ rest)
                    (fun s' => if length s' <? length ((c :: x) ++ rest)
                               then loop n s' else None));
          [discriminate | contradiction Hex; reflexivity]. }
    apply Hloop; [assumption | apply Nat.le_refl].
  - discriminate Hp.
Qed.

Lemma matches_star_nil (a : regex) : matches (Star a) [].
Proof. exists []; split; [reflexivity | constructor]. Qed.

Lemma matches_star_chars (p : ascii -> bool) (s : text) :
  Forall (fun c => p c = true) s -> matches (Star (Chr p)) s.
Proof.
  intros H. exists (map (fun c => [c]) s). split.
  - induction s as [|c s IH]; [reflexivity|].
    inversion H; subst. cbn [map concat app]. f_equal. apply IH; assumption.
  - induction H as [|c s Hc Hs IH]; cbn [map]; constructor; [|assumption].
    exists c; auto.
Qed.

(** A character of [starts_token] is matched by the second group of the
    pseudo-token pattern. *)
Lemma starts_token_matches (c : ascii) :
  starts_token c = true -> matches pseudo_group2 [c].
Proof.
  unfold starts_token. intros H.
  apply orb_true_iff in H; destruct H as [H|H].
  2: { (* line terminator *)
       apply Ascii.eqb_eq in H; subst c.
       right; right; left. right; right. left.
       exists [], [nl]. split; [reflexivity|].
       split; [right; reflexivity | exists nl; auto]. }
  apply orb_true_iff in H; destruct H as [H|H].
  2: { (* comment *)
       apply Ascii.eqb_eq in H; subst c.
       left. right; left.
       exists ["#"%char], []. split; [reflexivity|].
       split; [exists "#"%char; auto | apply matches_star_nil]. }
  apply orb_true_iff in H; destruct H as [H|H].
  2: { (* separator *)
       right; right; left. right; right. right; right. exists c; auto. }
  apply orb_true_iff in H; destruct H as [H|H].
  2: { (* bracket *)
       right; right; left. right; left. exists c; auto. }
  apply orb_true_iff in H; destruct H as [H|H].
  2: { (* tilde *)
       right; right; left. left.
       do 7 right. exists c. split; [reflexivity|].
       apply Ascii.eqb_eq in H; subst c; reflexivity. }
  apply orb_true_iff in H; destruct H as [H|H].
  2: { (* operator *)
       right; right; left. left.
       do 6 right. left.
       exists [c], []. split; [reflexivity|].
       split; [exists c; auto | right; reflexivity]. }
  (* name *)
  right; right; right; right.
  exists [c], []. split; [reflexivity|].
  split; [exists c; auto | apply matches_star_nil].
Qed.

(** After whitespace, at a character of [starts_token], the pseudo-token
    pattern matches. *)
Lemma pseudoprog_match_some (line : text) (pos : nat) (ws : text) (x : ascii)
  (rest : text) :
  skipn pos line = ws ++ x :: rest ->
  Forall (fun c => is_blank c = true) ws -> starts_token x = true ->
  pseudoprog_match line pos <> None.
Proof.
  intros Hs Hws Hx. unfold pseudoprog_match. rewrite Hs.
  assert (H : exec pseudo_group1 (ws ++ x :: rest)
                (fun s1 => exec pseudo_group2 s1 (fun s2 => Some (s1, s2)))
              <> None).
  { apply exec_complete; [reflexivity | apply matches_star_chars; exact Hws|].
    apply (exec_complete pseudo_group2 eq_refl _ [x] rest);
      [apply starts_token_matches; exact Hx | discriminate]. }
  destruct (exec pseudo_group1 (ws ++ x :: rest)
              (fun s1 => exec pseudo_group2 s1 (fun s2 => Some (s1, s2))))
    as [[s1 s2]|]; [discriminate | contradiction H; reflexivity].
Qed.

(** ** Plain text yields no error token *)

Lemma In_firstn_In (A : Type) (n : nat) (l : list A) (x : A) :
  In x (firstn n l) -> In x l.
Proof.
  intros H. rewrite <- (firstn_skipn n l). apply in_or_app; left; assumption.
Qed.

Lemma In_skipn_In (A : Type) (n : nat) (l : list A) (x : A) :
  In x (skipn n l) -> In x l.
Proof.
  intros H. rewrite <- (firstn_skipn n l). apply in_or_app; right; assumption.
Qed.

Lemma In_slice (line : text) (a b : nat) (x : ascii) :
  In x (slice line a b) -> In x line.
Proof. unfold slice. intros H. eapply In_skipn_In, In_firstn_In, H. Qed.

Ltac find_quote :=
  first [ solve [ exists squote; split; [reflexivity|];
                  cbn [In q1 q3 d1 d3 str list_ascii_of_string app];
                  repeat first [left; reflexivity | right] ]
        | solve [ exists dquote; split; [reflexivity|];
                  cbn [In q1 q3 d1 d3 str list_ascii_of_string app];
                  repeat first [left; reflexivity | right] ] ].

(** The keys of the two tables of openers all hold a quote. *)
Lemma opener_has_quote (t : text) :
  mem t triple_quoted = true \/ mem t single_quoted = true ->
  exists q, char_in q [squote; dquote] = true /\ In q t.
Proof.
  intros [H|H]; apply mem_In in H;
    repeat (destruct H as [<-|H]; [find_quote|]); destruct H.
Qed.

(** A pass that leaves a string pending has met a quote on the line. *)
Lemma scan_break_quote (line : text) (pos : nat) (st : Locals)
  (toks : list Token) (st' : Locals) :
  scan line pos st = Ok (toks, st', Break) ->
  exists q, char_in q [squote; dquote] = true /\ In q line.
Proof.
  unfold scan. intros H.
  destruct (pseudoprog_match line pos) as [m|].
  2: { destruct (nth_error line pos); discriminate H. }
  destruct (span2 m) as [start e].
  destruct (nth_error line start) as [c|] eqn:Hc; [|discriminate H].
  cbn [get_or bind] in H.
  destruct (check_indent (lnum (set_prefix (group1 m) st), Z.of_nat start)
              start c (set_prefix (group1 m) st)) as [[toks1 st1]| |];
    try discriminate H.
  cbn [bind] in H.
  unfold lookup_endprog, adjust_paren in H; unfold bind, get_or in H.
  assert (Hin : forall n q, In q (firstn n (slice line start e)) -> In q line).
  { intros n q Hq. eapply In_slice, In_firstn_In, Hq. }
  case_hyp H; try discriminate H;
    match goal with
    | Ht : mem (slice line start e) triple_quoted = true |- _ =>
        destruct (opener_has_quote _ (or_introl Ht)) as (q & Hq & Hqin);
        exists q; split; [exact Hq | eapply In_slice, Hqin]
    | Hs : _ || _ || _ = true |- _ =>
        apply orb_true_iff in Hs; destruct Hs as [Hs|Hs];
        [apply orb_true_iff in Hs; destruct Hs as [Hs|Hs]|];
        destruct (opener_has_quote _ (or_intror Hs)) as (q & Hq & Hqin);
        exists q; (split; [exact Hq|]);
        first [ eapply Hin, Hqin
              | destruct Hqin as [<-|[]]; apply (nth_error_In _ _ Hc) ]
    end.
Qed.

(** When the pseudo-token pattern matches, the pass yields no error token. *)
Lemma scan_matched_types (line : text) (pos : nat) (st : Locals)
  (toks : list Token) (st' : Locals) (ctl : Ctl) :
  pseudoprog_match line pos <> None ->
  scan line pos st = Ok (toks, st', ctl) ->
  Forall (fun t => Token.type t <> ERRORTOKEN) toks.
Proof.
  unfold scan. intros Hm H.
  destruct (pseudoprog_match line pos) as [m|]; [|contradiction Hm; reflexivity].
  destruct (span2 m) as [start e].
  destruct (nth_error line start) as [c|]; [|discriminate H].
  cbn [get_or bind] in H.
  destruct (check_indent (lnum (set_prefix (group1 m) st), Z.of_nat start)
              start c (set_prefix (group1 m) st)) as [[toks1 st1]| |] eqn:Hci;
    try discriminate H.
  pose proof (check_indent_types _ _ _ _ _ _ Hci) as Htypes.
  assert (H1 : Forall (fun t => Token.type t <> ERRORTOKEN) toks1).
  { eapply Forall_impl; [|exact Htypes]. intros t [E|E]; rewrite E; discriminate. }
  cbn [bind] in H.
  unfold lookup_endprog, adjust_paren in H; unfold bind, get_or in H.
  case_hyp H; try discriminate H; injection H as <- <- <-;
    repeat first [ assumption
                 | apply Forall_app; split
                 | apply Forall_cons; [discriminate|]
                 | apply Forall_nil ].
  match goal with
  | Hb : break_loop _ _ _ = _ |- _ =>
      rewrite break_loop_dedent_loop in Hb;
      destruct (dedent_loop_inv _ _ _ _ _ Hb) as (popped & _ & _ & _ & _ & -> & _)
  end.
  apply Forall_repeat. discriminate.
Qed.

(** In a text that ends with a character that is not whitespace, whitespace
    is followed by such a character. *)
Lemma leading_blanks (s : text) (y : ascii) :
  is_blank y = false ->
  exists ws x rest,
    s ++ [y] = ws ++ x :: rest
    /\ Forall (fun c => is_blank c = true) ws /\ is_blank x = false
    /\ In x (s ++ [y]).
Proof.
  intros Hy. induction s as [|c s (ws & x & rest & E & Hws & Hx & Hin)].
  - exists [], y, []. repeat split; auto. left; reflexivity.
  - destruct (is_blank c) eqn:Hc.
    + exists (c :: ws), x, rest. cbn [app]. rewrite E.
      repeat split; auto. right; rewrite <- E; assumption.
    + exists [], c, (s ++ [y]). repeat split; auto. left; reflexivity.
Qed.

Lemma plain_line_chars (line : text) (x : ascii) :
  plain_line line -> In x line -> is_blank x || starts_token x = true.
Proof.
  intros (body & -> & Hbody) Hin. apply in_app_or in Hin.
  destruct Hin as [Hin|[<-|[]]]; [|reflexivity].
  unfold plain_text in Hbody. rewrite Forall_forall in Hbody. auto.
Qed.

(** On a line of plain text the pseudo-token pattern matches at every
    position. *)
Lemma plain_line_matches (line : text) (pos : nat) :
  plain_line line -> pos < length line -> pseudoprog_match line pos <> None.
Proof.
  intros Hline Hpos. pose proof Hline as (body & E & Hbody).
  assert (Hs : skipn pos line = skipn pos body ++ [nl]).
  { subst line. rewrite skipn_app.
    rewrite length_app in Hpos; cbn [length] in Hpos.
    replace (pos - length body) with 0 by lia. reflexivity. }
  destruct (leading_blanks (skipn pos body) nl eq_refl)
    as (ws & x & rest & Ed & Hws & Hx & Hin).
  rewrite <- Hs in Ed, Hin.
  apply (pseudoprog_match_some _ _ _ _ _ Ed Hws).
  pose proof (plain_line_chars _ _ Hline (In_skipn_In _ _ _ _ Hin)) as Hc.
  rewrite Hx in Hc. exact Hc.
Qed.

Lemma plain_run_step (toks : list Token) (c : Config) (t : list Token)
  (c' : Config) :
  Inv c -> plain_run toks c -> loc c <> Finished -> step c = Ok (t, c') ->
  plain_run (toks ++ t) c'.
Proof.
  intros HI (Htoks & Hcs & Hinp & Hscan) Hloc Hstep.
  pose proof (step_outcome_of_step c t c' HI Hloc Hstep) as Hout.
  unfold plain_run. rewrite Forall_app.
  destruct Hout as [up Hl Hex Hc Hup | up sp Hl Hex Hc Hup Hsp
                   | line rest Hl Hin Hne Hc
                   | line rest p sp m tail Hl Hin Hne Hc Hp Hsp Hline Hm
                   | line rest l Hl Hin Hne Hc Hl'
                   | line pos t st' ctl Hl Hpos Hout
                   | line pos Hl Hpos];
    cbn [locals loc input]; simpl_locals; try contradiction.
  - split; [split; [assumption|]|].
    + apply Forall_app; split;
        [apply Forall_repeat; discriminate | repeat constructor; discriminate].
    + repeat split; auto. discriminate.
  - rewrite Hin in Hinp. inversion Hinp as [|? ? Hline Hrest]; subst.
    split; [split; [assumption | constructor]|].
    repeat split; auto. intros ? ? [= <- <-]; assumption.
  - pose proof (Hscan _ _ Hl) as Hline.
    assert (Hs : scan line pos (locals c) = Ok (t, st', ctl)).
    { unfold step in Hstep. rewrite Hl in Hstep.
      apply Nat.ltb_lt in Hpos. rewrite Hpos in Hstep.
      destruct (scan line pos (locals c)) as [[[t0 st0] ctl0]| |];
        try discriminate Hstep.
      cbn [bind] in Hstep. injection Hstep as <- <- E2.
      destruct ctl0, ctl; cbn [next_loc] in E2; try discriminate E2;
        [injection E2 as <-|]; reflexivity. }
    pose proof (plain_line_matches _ _ Hline Hpos) as Hm.
    split; [split; [assumption | apply (scan_matched_types _ _ _ _ _ _ Hm Hs)]|].
    destruct (scan_outcome_frame _ _ _ _ _ _ Hout Hpos Hcs (inv_sentinel c HI))
      as (_ & _ & Hctl).
    destruct ctl as [pos'|]; cbn [next_loc].
    + destruct Hctl as [_ Hc']. repeat split; auto.
      intros ? ? [= <- <-]; assumption.
    + exfalso. destruct (scan_break_quote _ _ _ _ _ Hs) as (q & Hq & Hin).
      pose proof (plain_line_chars _ _ Hline Hin) as Hplain.
      apply char_in_In in Hq. destruct Hq as [<-|[<-|[]]]; discriminate Hplain.
  - split; [split; [assumption | constructor]|].
    repeat split; auto. discriminate.
Qed.

Lemma plain_run_reaches (lines : list text) (off : Z) (toks : list Token)
  (c : Config) :
  Forall plain_line lines ->
  reaches (initial_config lines off) toks c -> plain_run toks c.
Proof.
  intros Hlines Hr.
  induction Hr as [|toks c t c' Hr IH Hloc Hstep].
  - split; [constructor|]. split; [reflexivity|]. split; [assumption|].
    discriminate.
  - apply (plain_run_step toks c t c'); auto.
    eapply reaches_Inv; [exact Hr | apply initial_config_Inv].
Qed.

Lemma StringIO_plain_lines (s : text) :
  plain_text s -> Forall plain_line (StringIO (s ++ [nl])).
Proof.
  induction 1 as [|c s Hc Hs IH].
  - repeat constructor. exists []; split; [reflexivity | constructor].
  - cbn [app StringIO]. destruct (Ascii.eqb c nl) eqn:E.
    + apply Ascii.eqb_eq in E; subst c.
      constructor; [|assumption]. exists []; split; [reflexivity | constructor].
    + pose proof (StringIO_length s) as Hlen.
      destruct (StringIO (s ++ [nl])) as [|l ls]; [cbn in Hlen; lia|].
      inversion IH as [|? ? (body & -> & Hbody) Hls]; subst.
      constructor; [|assumption].
      exists (c :: body); split; [reflexivity | constructor; assumption].
Qed.

(** A source of plain text (whitespace, word characters, operator characters
    other than [!], brackets, separators, comments and line terminators; so
    no quote, no backslash and no carriage return) is tokenized without any
    [ErrorToken]. *)
Theorem plain_text_yields_no_error_token :
  forall (source : text) (line_offset : Z),
    plain_text source ->
    exists toks,
      source_tokens source line_offset = Ok toks
      /\ forall t, In t toks -> Token.type t <> ERRORTOKEN.
Proof.
  intros source line_offset Hplain. unfold source_tokens.
  destruct (generate_tokens_completes (StringIO (source ++ [nl])) line_offset)
    as (toks & Hgen & Hc).
  exists toks; split; [assumption|].
  destruct (completes_reaches _ _ Hc) as (c' & Hr & _).
  destruct (plain_run_reaches _ _ _ _ (StringIO_plain_lines _ Hplain) Hr)
    as (Hall & _).
  rewrite Forall_forall in Hall. exact Hall.
Qed.

Lemma plain_text_yields_no_error_token_witness :
  plain_text (str "if x[0] >= 1:  # first" ++ [nl] ++ str "    y = {a: b}")
  /\ exists toks,
       source_tokens
         (str "if x[0] >= 1:  # first" ++ [nl] ++ str "    y = {a: b}") 0
       = Ok toks
       /\ forall t, In t toks -> Token.type t <> ERRORTOKEN.
Proof.
  assert (H : plain_text
                (str "if x[0] >= 1:  # first" ++ [nl] ++ str "    y = {a: b}")).
  { repeat constructor. }
  split; [exact H|].
  exact (plain_text_yields_no_error_token _ 0%Z H).
Defined.

(** ** The classes of the tokens *)

(** What holds of each of the 256 characters holds of every character. *)
Lemma all_ascii (P : ascii -> bool) :
  forallb P (map ascii_of_nat (List.seq 0 256)) = true -> forall c, P c = true.
Proof.
  intros H c. rewrite forallb_forall in H. apply H.
  rewrite <- (ascii_nat_embedding c). apply in_map. apply in_seq.
  pose proof (nat_ascii_bounded c). lia.
Qed.

(** The first character of a match of [r] satisfies [Q], when every
    character that can start a match does. *)
Lemma first_char (r : regex) (Q : ascii -> bool) (c : ascii) (s : text) :
  forallb (fun c => implb (firstb r c) (Q c))
          (map ascii_of_nat (List.seq 0 256)) = true ->
  matches r (c :: s) -> Q c = true.
Proof.
  intros Hall Hm. apply matches_cons_first in Hm.
  pose proof (all_ascii _ Hall c) as H. cbv beta in H.
  rewrite Hm in H. exact H.
Qed.

Lemma matches_full_match (r : regex) (s : text) :
  plain r = true -> matches r s -> full_match r s = true.
Proof.
  intros Hp Hm. unfold full_match.
  pose proof (exec_complete r Hp unit s [] full Hm) as H.
  rewrite app_nil_r in H.
  destruct (exec r s full); [reflexivity|].
  contradiction H; [discriminate | reflexivity].
Qed.

Lemma matches_word3 (a b c : ascii) (s : text) :
  matches (Cat (lit a) (Cat (lit b) (lit c))) s -> s = [a; b; c].
Proof.
  intros (s1 & r1 & -> & H1 & s2 & s3 & -> & H2 & H3).
  apply matches_lit in H1, H2, H3. subst. reflexivity.
Qed.

Lemma digit_matches_number (c : ascii) :
  char_in c numchars = true -> matches number [c].
Proof.
  intros H. apply char_in_In in H.
  right; right. right; right; right.
  destruct H as [<-|H].
  - left. exists ["0"%char], []. split; [reflexivity|].
    split; [exists "0"%char; split; reflexivity | apply matches_star_nil].
  - right. exists [c], []. split; [reflexivity|].
    split; [|apply matches_star_nil].
    exists c. split; [reflexivity|].
    cbn [numchars str list_ascii_of_string In] in H.
    repeat (destruct H as [<-|H]; [reflexivity|]). destruct H.
Qed.

(** The matcher returns the match of the first alternative that has one. *)
Lemma exec_alt_first (A : Type) (a b : regex) (s : text)
  (k : text -> option A) (x : A) :
  exec (Alt a b) s k = Some x ->
  exec a s k = Some x \/ (exec a s k = None /\ exec b s k = Some x).
Proof.
  change (exec (Alt a b) s k)
    with (match exec a s k with Some y => Some y | None => exec b s k end).
  destruct (exec a s k); auto.
Qed.

(** A token that starts with a digit, or with a dot and is neither [.] nor
    [...], is a match of the [number] pattern. *)
Lemma number_token (c : ascii) (tok rest : text) :
  matches pseudo_group2 (c :: tok) ->
  exec pseudo_group2 ((c :: tok) ++ rest)
       (fun s2 => Some ((c :: tok) ++ rest, s2))
  = Some ((c :: tok) ++ rest, rest) ->
  char_in c numchars
  || (Ascii.eqb c "." && negb (text_eqb (c :: tok) (str "."))
      && negb (text_eqb (c :: tok) (str "..."))) = true ->
  matches number (c :: tok).
Proof.
  intros Htok Hexec Hcond.
  apply orb_true_iff in Hcond. destruct Hcond as [Hd|Hdot].
  - apply exec_alt_first in Hexec. destruct Hexec as [He|[_ Hexec]].
    { apply exec_sound in He. destruct He as (s1 & s2 & E & Hm & _).
      destruct s1 as [|c1 s1].
      - apply matches_nil_nullable in Hm. discriminate Hm.
      - injection E as <- _.
        apply (first_char _ (fun c => negb (char_in c numchars))) in Hm;
          [|reflexivity].
        rewrite Hd in Hm. discriminate Hm. }
    apply exec_alt_first in Hexec. destruct Hexec as [Hn|[Hn _]].
    + apply exec_sound in Hn. destruct Hn as (s1 & s2 & E & Hm & Hk).
      injection Hk as ->. apply app_inv_tail in E. subst s1. exact Hm.
    + exfalso.
      apply (exec_complete number eq_refl _ [c] (tok ++ rest)
               (fun s2 => Some ((c :: tok) ++ rest, s2))
               (digit_matches_number _ Hd));
        [discriminate | exact Hn].
  - apply andb_true_iff in Hdot. destruct Hdot as [Hdot Hn3].
    apply andb_true_iff in Hdot. destruct Hdot as [Hdot Hn1].
    apply Ascii.eqb_eq in Hdot. subst c.
    destruct Htok as [He|[Hn|[Hf|[Hc|Hname]]]].
    + first_excludes He.
    + exact Hn.
    + destruct Hf as [Hop|[Hbr|[Hle|[Hdots|Hset]]]].
      * first_excludes Hop.
      * first_excludes Hbr.
      * first_excludes Hle.
      * apply matches_word3 in Hdots. rewrite Hdots in Hn3. discriminate Hn3.
      * destruct Hset as (x & E & _). rewrite E in Hn1.
        injection E as <- _. discriminate Hn1.
    + first_excludes Hc.
    + first_excludes Hname.
Qed.

Lemma matches_triple_mem (tok : text) :
  matches triple tok -> mem tok triple_quoted = true.
Proof.
  intros H.
  destruct H as [H|H];
    destruct H as (p1 & r1 & -> & Hp1 & p2 & r2 & -> & Hp2
                   & a & r3 & -> & Ha & b & c & -> & Hb & Hc);
    apply matches_lit in Ha, Hb, Hc; subst a b c;
    apply matches_opt_set in Hp1, Hp2;
    destruct Hp1 as [-> | (c1 & -> & Hc1)];
    destruct Hp2 as [-> | (c2 & -> & Hc2)];
    cbn [str list_ascii_of_string In] in *;
    repeat match goal with
           | Hin : _ \/ _ |- _ => destruct Hin as [<- | Hin]
           | Hin : False |- _ => destruct Hin
           end;
    vm_compute; reflexivity.
Qed.

(** A token of the last branch of the loop is an operator, a bracket or a
    separator, or a backslash with the line terminator, or a word that
    begins outside ASCII. *)
Lemma operator_token (c : ascii) (tok : text) :
  matches pseudo_group2 (c :: tok) ->
  char_in c numchars
  || (Ascii.eqb c "." && negb (text_eqb (c :: tok) (str "."))
      && negb (text_eqb (c :: tok) (str "..."))) = false ->
  Ascii.eqb c "#" = false ->
  mem (c :: tok) triple_quoted = false ->
  mem [c] single_quoted || mem (firstn 2 (c :: tok)) single_quoted
    || mem (firstn 3 (c :: tok)) single_quoted = false ->
  char_in c namechars = false ->
  matches funny (c :: tok) \/ matches backslash_nl (c :: tok)
  \/ foreign_word (c :: tok).
Proof.
  intros Htok Hnum Hhash Htriple Hsingle Hname.
  apply orb_false_iff in Hnum. destruct Hnum as [Hd Hdot].
  apply orb_false_iff in Hsingle. destruct Hsingle as [Hsingle _].
  apply orb_false_iff in Hsingle. destruct Hsingle as [Hq _].
  destruct Htok as [[Hb|[Hcm|Ht]]|[Hn|[Hf|[Hc|Hw]]]].
  - right; left; exact Hb.
  - apply (first_char _ (fun c => Ascii.eqb c "#")) in Hcm; [|reflexivity].
    rewrite Hhash in Hcm; discriminate Hcm.
  - apply matches_triple_mem in Ht. rewrite Htriple in Ht; discriminate Ht.
  - exfalso. pose proof Hn as Hfirst.
    apply (first_char _ (fun c => char_in c numchars || Ascii.eqb c "."))
      in Hfirst; [|reflexivity].
    rewrite Hd in Hfirst. cbn [orb] in Hfirst. rewrite Hfirst in Hdot.
    cbn [andb] in Hdot.
    apply matches_full_match in Hn; [|reflexivity].
    apply Ascii.eqb_eq in Hfirst. subst c.
    destruct (text_eqb ("."%char :: tok) (str ".")) eqn:E1.
    + apply text_eqb_eq in E1. rewrite E1 in Hn. discriminate Hn.
    + destruct (text_eqb ("."%char :: tok) (str "...")) eqn:E3;
        [|discriminate Hdot].
      apply text_eqb_eq in E3. rewrite E3 in Hn. discriminate Hn.
  - left; exact Hf.
  - apply (first_char _ (fun c => char_in c namechars || mem [c] single_quoted))
      in Hc; [|reflexivity].
    rewrite Hname, Hq in Hc; discriminate Hc.
  - right; right. split; [exact Hw|]. exists c, tok; split; [reflexivity|].
    apply (first_char _ (fun c => char_in c namechars || char_in c numchars
                                  || latin1_alnum c))
      in Hw; [|reflexivity].
    rewrite Hname, Hd in Hw; exact Hw.
Qed.

(** A token that starts with a letter or an underscore and is no opener of a
    triple-quoted string is a match of the [name] pattern, or of the pattern
    of the one-line strings. *)
Lemma name_token (c : ascii) (tok : text) :
  matches pseudo_group2 (c :: tok) ->
  mem (c :: tok) triple_quoted = false ->
  char_in c namechars = true ->
  matches name (c :: tok) \/ matches cont_str (c :: tok).
Proof.
  intros Htok Htriple Hname.
  destruct Htok as [[Hb|[Hcm|Ht]]|[Hn|[Hf|[Hc|Hw]]]].
  - apply (first_char _ (fun c => negb (char_in c namechars))) in Hb;
      [|reflexivity].
    rewrite Hname in Hb; discriminate Hb.
  - apply (first_char _ (fun c => negb (char_in c namechars))) in Hcm;
      [|reflexivity].
    rewrite Hname in Hcm; discriminate Hcm.
  - apply matches_triple_mem in Ht. rewrite Htriple in Ht; discriminate Ht.
  - apply (first_char _ (fun c => negb (char_in c namechars))) in Hn;
      [|reflexivity].
    rewrite Hname in Hn; discriminate Hn.
  - apply (first_char _ (fun c => negb (char_in c namechars))) in Hf;
      [|reflexivity].
    rewrite Hname in Hf; discriminate Hf.
  - right; exact Hc.
  - left; exact Hw.
Qed.

Lemma opened_app (s more : text) : opened s -> opened (s ++ more).
Proof.
  intros (o & rest & -> & H). exists o, (rest ++ more).
  split; [symmetry; apply app_assoc | exact H].
Qed.

Lemma opened_single (c : ascii) (tok : text) :
  mem [c] single_quoted || mem (firstn 2 (c :: tok)) single_quoted
    || mem (firstn 3 (c :: tok)) single_quoted = true ->
  opened (c :: tok).
Proof.
  intros H.
  apply orb_true_iff in H; destruct H as [H|H];
    [apply orb_true_iff in H; destruct H as [H|H]|].
  - exists [c], tok. split; [reflexivity | right; exact H].
  - exists (firstn 2 (c :: tok)), (skipn 2 (c :: tok)).
    split; [symmetry; apply firstn_skipn | right; exact H].
  - exists (firstn 3 (c :: tok)), (skipn 3 (c :: tok)).
    split; [symmetry; apply firstn_skipn | right; exact H].
Qed.

Lemma opened_triple (o : text) : mem o triple_quoted = true -> opened o.
Proof.
  intros H. exists o, []. split; [symmetry; apply app_nil_r | left; exact H].
Qed.

Lemma closes_single : closes single squote.
Proof.
  intros m (a & r1 & -> & _ & b & c & -> & _ & Hc).
  apply matches_lit in Hc. subst c. exists (a ++ b).
  rewrite app_assoc. reflexivity.
Qed.

Lemma closes_double : closes double dquote.
Proof.
  intros m (a & r1 & -> & _ & b & c & -> & _ & Hc).
  apply matches_lit in Hc. subst c. exists (a ++ b).
  rewrite app_assoc. reflexivity.
Qed.

Lemma closes_single3 : closes single3 squote.
Proof.
  intros m (a & r1 & -> & _ & b & r2 & -> & _ & c & r3 & -> & Hc
            & d & e & -> & Hd & He).
  apply matches_lit in Hc, Hd, He. subst c d e.
  exists (a ++ b ++ [squote; squote]).
  rewrite <- !app_assoc. reflexivity.
Qed.

Lemma closes_double3 : closes double3 dquote.
Proof.
  intros m (a & r1 & -> & _ & b & r2 & -> & _ & c & r3 & -> & Hc
            & d & e & -> & Hd & He).
  apply matches_lit in Hc, Hd, He. subst c d e.
  exists (a ++ b ++ [dquote; dquote]).
  rewrite <- !app_assoc. reflexivity.
Qed.

Ltac no_quotes :=
  cbn [str list_ascii_of_string app];
  repeat first [apply Forall_nil | apply Forall_cons; [reflexivity|]].

(** A key of [triple_quoted] ends with three quotes after letters, and
    [endprogs] holds for it a pattern that closes with the same quote. *)
Lemma triple_key_closer (tok : text) :
  mem tok triple_quoted = true ->
  exists pre q p,
    tok = pre ++ [q; q; q]
    /\ is_quote q = true
    /\ Forall (fun x => is_quote x = false) pre
    /\ dict_get endprogs tok = Some (Some p)
    /\ closes p q.
Proof.
  intros H; apply mem_In in H.
  repeat (destruct H as [<-|H];
          [first
             [ solve [ eexists (str _), squote, single3;
                       split; [reflexivity|]; split; [reflexivity|];
                       split; [no_quotes|];
                       split; [vm_compute; reflexivity | apply closes_single3] ]
             | solve [ eexists (str _), dquote, double3;
                       split; [reflexivity|]; split; [reflexivity|];
                       split; [no_quotes|];
                       split; [vm_compute; reflexivity | apply closes_double3] ] ]
          |]).
  destruct H.
Qed.

Ltac closer_found :=
  first
    [ solve [ split; [reflexivity|]; split; [reflexivity|];
              split; [repeat first [apply Forall_nil
                                   | apply Forall_cons; [reflexivity|]]|];
              split; [vm_compute; reflexivity | apply closes_single] ]
    | solve [ split; [reflexivity|]; split; [reflexivity|];
              split; [repeat first [apply Forall_nil
                                   | apply Forall_cons; [reflexivity|]]|];
              split; [vm_compute; reflexivity | apply closes_double] ] ].

(** In the branch of the one-line strings the token opens with a quote,
    after letters at most, and the lookup chain finds a pattern that closes
    with the same quote. *)
Lemma single_key_closer (c : ascii) (tok : text) :
  mem [c] single_quoted || mem (firstn 2 (c :: tok)) single_quoted
    || mem (firstn 3 (c :: tok)) single_quoted = true ->
  exists pre q rest p,
    c :: tok = pre ++ q :: rest
    /\ is_quote q = true
    /\ Forall (fun x => is_quote x = false) pre
    /\ lookup_endprog c (c :: tok) = Ok (Some p)
    /\ closes p q.
Proof.
  intros H.
  apply orb_true_iff in H; destruct H as [H|H];
    [apply orb_true_iff in H; destruct H as [H|H]|];
    apply mem_In in H;
    destruct tok as [|c1 [|c2 tok]]; vm_compute in H;
    repeat (destruct H as [H|H];
            [try discriminate H; inversion H; subst;
             first
               [ eexists [], _, _, _; closer_found
               | eexists [_], _, _, _; closer_found
               | eexists [_; _], _, _, _; closer_found ]
            |]);
    destruct H.
Qed.

Lemma matches_opt_set_no_quote (chars : string) (s : text) :
  matches (Opt (set chars)) s ->
  forallb (fun x => negb (is_quote x)) (str chars) = true ->
  Forall (fun x => is_quote x = false) s.
Proof.
  intros H Hall. apply matches_opt_set in H.
  destruct H as [-> | (c & -> & Hc)]; [constructor|].
  rewrite forallb_forall in Hall. specialize (Hall c Hc).
  apply negb_true_iff in Hall. repeat constructor. exact Hall.
Qed.

Lemma matches_line_end_last (s : text) :
  matches line_end s -> exists body, s = body ++ [nl].
Proof.
  intros (a & b & -> & _ & Hb). apply matches_lit in Hb. subst b.
  exists a; reflexivity.
Qed.

(** A match of the pattern of the one-line strings that does not end with
    the line terminator opens and ends with the same quote. *)
Lemma cont_str_quoted (v init : text) (y : ascii) :
  matches cont_str v -> v = init ++ [y] -> y <> nl -> quoted v.
Proof.
  intros H Ev Hy.
  assert (Hend : forall (q : ascii) (p1 p2 b1 b2 cl : text),
            v = p1 ++ p2 ++ [q] ++ b1 ++ b2 ++ cl ->
            is_quote q = true ->
            Forall (fun x => is_quote x = false) p1 ->
            Forall (fun x => is_quote x = false) p2 ->
            matches (group [lit q; backslash_nl]) cl ->
            quoted v).
  { intros q p1 p2 b1 b2 cl E Hq Hp1 Hp2 [Hcl|Hcl].
    - apply matches_lit in Hcl. subst cl.
      exists (p1 ++ p2), q, (b1 ++ b2). split; [|split; [assumption|]].
      + rewrite E. rewrite <- !app_assoc. reflexivity.
      + apply Forall_app; split; assumption.
    - exfalso. destruct Hcl as (s1 & s2 & -> & _ & Hle).
      apply matches_line_end_last in Hle. destruct Hle as (body & ->).
      rewrite E in Ev.
      replace (p1 ++ p2 ++ [q] ++ b1 ++ b2 ++ s1 ++ body ++ [nl])
        with ((p1 ++ p2 ++ [q] ++ b1 ++ b2 ++ s1 ++ body) ++ [nl]) in Ev
        by (rewrite <- !app_assoc; reflexivity).
      apply app_inj_tail in Ev. destruct Ev as [_ <-]. contradiction Hy.
      reflexivity. }
  destruct H as [H|H];
    destruct H as (p1 & r1 & -> & Hp1 & p2 & r2 & -> & Hp2 & a & r3 & -> & Ha
                   & b1 & r4 & -> & _ & b2 & cl & -> & _ & Hcl);
    apply matches_lit in Ha; subst a;
    apply matches_opt_set_no_quote in Hp1; try reflexivity;
    apply matches_opt_set_no_quote in Hp2; try reflexivity;
    eapply Hend; eauto; reflexivity.
Qed.

Lemma matches_name_word (v : text) :
  matches name v -> Forall (fun x => is_word x = true) v.
Proof.
  intros (a & b & -> & (x & -> & Hx) & Hb).
  apply matches_star_chr in Hb. constructor; assumption.
Qed.

(** The first character of a text whose first characters are a key of
    [single_quoted]. *)
Lemma single_key_first (c : ascii) (tok : text) :
  mem [c] single_quoted || mem (firstn 2 (c :: tok)) single_quoted
    || mem (firstn 3 (c :: tok)) single_quoted = true ->
  char_in c (squote :: dquote :: str "bBrRuU") = true.
Proof.
  intros H.
  apply orb_true_iff in H; destruct H as [H|H];
    [apply orb_true_iff in H; destruct H as [H|H]|];
    apply mem_In in H; cbn [firstn] in H;
    repeat (destruct H as [H|H];
            [first [discriminate H | injection H as <-; reflexivity
                   | destruct tok; discriminate H
                   | vm_compute in H; injection H as <-; reflexivity ]|]);
    destruct H.
Qed.

(** A token of the branch of the one-line strings is a match of their
    pattern. *)
Lemma string_token (c : ascii) (tok : text) :
  matches pseudo_group2 (c :: tok) ->
  Ascii.eqb c "#" = false ->
  mem (c :: tok) triple_quoted = false ->
  mem [c] single_quoted || mem (firstn 2 (c :: tok)) single_quoted
    || mem (firstn 3 (c :: tok)) single_quoted = true ->
  matches cont_str (c :: tok).
Proof.
  intros Htok Hhash Htriple Hsingle.
  pose proof (single_key_first _ _ Hsingle) as Hfirst.
  assert (Hcontra : forall r,
            forallb (fun c => implb (firstb r c)
                                (negb (char_in c (squote :: dquote :: str "bBrRuU"))))
                    (map ascii_of_nat (List.seq 0 256)) = true ->
            matches r (c :: tok) -> False).
  { intros r Hall Hm.
    apply (first_char _ _ _ _ Hall) in Hm. rewrite Hfirst in Hm.
    discriminate Hm. }
  destruct Htok as [[Hb|[Hcm|Ht]]|[Hn|[Hf|[Hc|Hw]]]].
  - exfalso; apply (Hcontra backslash_nl eq_refl Hb).
  - exfalso; apply (Hcontra comment eq_refl Hcm).
  - apply matches_triple_mem in Ht. rewrite Htriple in Ht; discriminate Ht.
  - exfalso; apply (Hcontra number eq_refl Hn).
  - exfalso; apply (Hcontra funny eq_refl Hf).
  - exact Hc.
  - exfalso. apply matches_name_word in Hw. rewrite Forall_forall in Hw.
    assert (Hq : exists q, is_quote q = true /\ In q (c :: tok)).
    { apply orb_true_iff in Hsingle; destruct Hsingle as [H|H];
        [apply orb_true_iff in H; destruct H as [H|H]|];
        destruct (opener_has_quote _ (or_intror H)) as (q & Hq & Hin);
        exists q; (split; [exact Hq|]).
      - destruct Hin as [<-|[]]. left; reflexivity.
      - apply (In_firstn_In _ _ _ _ Hin).
      - apply (In_firstn_In _ _ _ _ Hin). }
    destruct Hq as (q & Hq & Hin). specialize (Hw q Hin).
    apply char_in_In in Hq. destruct Hq as [<-|[<-|[]]]; discriminate Hw.
Qed.

(** From a stack that ends with the sentinel, the tokens of a pass are of the
    kinds their types say, and a string left pending begins with its opener
    and has the closing pattern of its quote. *)
Lemma scan_classified (line : text) (pos : nat) (st : Locals) (up : list nat) :
  pos < length line -> indents st = up ++ [0] ->
  exists toks st' ctl,
    scan line pos st = Ok (toks, st', ctl)
    /\ Forall classified toks
    /\ (ctl = Break -> opened (contstr st') /\ pending_quote st').
Proof.
  intros Hpos Hup. unfold scan.
  destruct (pseudoprog_match line pos) as [m|] eqn:Hm.
  2: { destruct (nth_error line pos) as [c|] eqn:Hc.
       - cbn [get_or bind]. do 3 eexists; split; [reflexivity|].
         split; [|discriminate]. constructor; [|constructor].
         unfold classified; cbn [Token.type Token.value Token.new].
         destruct (char_in c [dquote; squote]) eqn:Hq; [|left; eauto].
         right. rewrite (nth_error_skipn_cons _ _ _ _ Hc).
         exists [c], (skipn (pos + 1) line). split; [reflexivity|]. right.
         apply char_in_In in Hq. destruct Hq as [<-|[<-|[]]]; reflexivity.
       - apply nth_error_None in Hc; lia. }
  assert (Hle : pos <= length line) by lia.
  destruct (pseudoprog_match_spec _ _ _ Hm Hle) as
    (ws & c & tok & rest & Hs & Hg1 & Hsp & Hws & Htok & Hexec).
  rewrite Hg1, Hsp; clear Hg1 Hsp Hm m.
  destruct (skipn_decompose _ _ _ _ _ Hs Hle) as [Hsk Hlen].
  set (start := pos + length ws) in *.
  assert (Hle' : start <= length line) by lia.
  destruct (skipn_decompose _ _ _ _ _ Hsk Hle') as [Hrest _].
  rewrite (nth_error_skipn_hd _ _ _ _ _ Hsk); cbn [get_or bind].
  replace (start + S (length tok)) with (start + length (c :: tok)) by reflexivity.
  rewrite (slice_skipn _ _ _ _ Hsk).
  simpl_locals.
  destruct (check_indent_spec (lnum st, Z.of_nat start) start c
              (set_prefix ws st) _ Hup) as (i & n & up' & b & -> & Hcnt & Hn0 & Hb).
  simpl_locals. cbn [bind].
  set (st1 := set_indents (up' ++ [0]) (set_new_line b (set_prefix ws st))).
  set (itoks := repeat (indent_at (lnum st, Z.of_nat start)) i
                ++ repeat (dedent_at (lnum st, Z.of_nat start)) n).
  assert (Hout : forall main,
            Forall classified main -> Forall classified (itoks ++ main)).
  { intros main Hmain. apply Forall_app; split; [|assumption].
    apply Forall_app; split; apply Forall_repeat; exact I. }
  assert (Hout0 : Forall classified itoks).
  { rewrite <- (app_nil_r itoks). apply Hout; constructor. }
  assert (Hone : forall t, classified t -> Forall classified (itoks ++ [t])).
  { intros t Ht. apply Hout. constructor; [assumption | constructor]. }
  assert (Hl1 : lnum st1 = lnum st) by reflexivity.
  assert (Hi1 : indents st1 = up' ++ [0]) by reflexivity.
  clearbody st1 itoks. rewrite <- Hl1.
  (* ordinary number *)
  match goal with |- context [if ?b then Ok (_ ++ [Token.new NUMBER _ _ _], _, _) else _] =>
    destruct b eqn:Hnum end.
  { do 3 eexists; split; [reflexivity|]. split; [|discriminate].
    apply Hone. exact (number_token _ _ _ Htok Hexec Hnum). }
  (* line terminator *)
  destruct (char_in c [cr; nl]) eqn:Hnlc.
  { do 3 eexists; split; [reflexivity|]. split; [|discriminate].
    destruct (negb (new_line st1) && (paren_level st1 =? 0)%Z);
      [apply Hone; exact I | rewrite app_nil_r; exact Hout0]. }
  (* comment *)
  destruct (Ascii.eqb c "#") eqn:Hhash.
  { apply Ascii.eqb_eq in Hhash; subst c.
    pose proof (comment_token_shape _ Htok) as Hshape.
    rewrite (comment_not_endswith_nl _ Hshape).
    do 3 eexists; split; [reflexivity|]. split; [exact Hout0 | discriminate]. }
  (* triple-quoted string *)
  destruct (mem (c :: tok) triple_quoted) eqn:Htriple.
  { destruct (triple_key_closer _ Htriple)
      as (pre & q & p & Ekey & Hq & Hpre & -> & Hcloses).
    cbn [get_or bind].
    destruct (match_end p line (start + length (c :: tok))) as [e|] eqn:Hend.
    - assert (Hle'' : start + length (c :: tok) <= length line).
      { rewrite Hlen, length_app; lia. }
      destruct (match_end_spec _ _ _ _ Hend Hle'')
        as (m & rest' & Hm & -> & Hmat & _).
      rewrite Hrest in Hm; clear Hrest; subst rest.
      rewrite app_assoc in Hsk.
      replace (start + length (c :: tok) + length m)
        with (start + length ((c :: tok) ++ m)) by (rewrite length_app; lia).
      rewrite (slice_skipn _ _ _ _ Hsk).
      do 3 eexists; split; [reflexivity|]. split; [|discriminate].
      apply Hone. split.
      + apply (opened_app (c :: tok) m), opened_triple, Htriple.
      + destruct (Hcloses _ Hmat) as (body & ->).
        exists pre, q, ([q; q] ++ body). split; [|split; assumption].
        cbn [Token.value Token.new]. rewrite Ekey, <- !app_assoc. reflexivity.
    - rewrite Hsk.
      do 3 eexists; split; [reflexivity|]. split; [exact Hout0|].
      intros _. simpl_locals. split.
      + apply (opened_app (c :: tok) rest), opened_triple, Htriple.
      + exists pre, q, ([q; q] ++ rest), p. simpl_locals.
        split; [rewrite Ekey, <- !app_assoc; reflexivity|]. auto. }
  (* one-line string *)
  match goal with |- context [if ?b then bind (last_item _) _ else _] =>
    destruct b eqn:Hsingle end.
  { destruct (last_item_cons _ c tok) as (y & l' & Elast & ->). cbn [bind].
    destruct (Ascii.eqb y nl) eqn:Hy.
    - destruct (single_key_closer _ _ Hsingle)
        as (pre & q & rest0 & p & Ekey & Hq & Hpre & -> & Hcloses).
      cbn [bind]. rewrite Hsk.
      do 3 eexists; split; [reflexivity|]. split; [exact Hout0|].
      intros _. simpl_locals. split.
      + apply (opened_app (c :: tok) rest), opened_single, Hsingle.
      + exists pre, q, (rest0 ++ rest), p. simpl_locals.
        split; [rewrite Ekey, <- app_assoc; reflexivity|]. auto.
    - do 3 eexists; split; [reflexivity|]. split; [|discriminate].
      apply Hone. split; [apply opened_single, Hsingle|].
      apply (cont_str_quoted _ l' y);
        [exact (string_token _ _ Htok Hhash Htriple Hsingle) | exact Elast|].
      intros ->. rewrite Ascii.eqb_refl in Hy. discriminate Hy. }
  (* ordinary name *)
  destruct (char_in c namechars) eqn:Hname.
  { assert (Hcl : forall p,
              classified (Token.new NAME (c :: tok) (lnum st1, Z.of_nat start) p)).
    { intros p. split; [exists c, tok; auto|].
      exact (name_token _ _ Htok Htriple Hname). }
    destruct (mem (c :: tok) ALWAYS_BREAK_TOKEN) eqn:Hbreak.
    - rewrite break_loop_dedent_loop, Hi1.
      destruct (dedent_loop_spec (lnum st1, 0%Z) start up')
        as (k & up'' & -> & Hk).
      cbn [bind]. simpl_locals.
      do 3 eexists; split; [reflexivity|]. split; [|discriminate].
      apply Hout. apply Forall_app; split;
        [apply Forall_repeat; exact I | constructor; [apply Hcl | constructor]].
    - cbn [bind].
      do 3 eexists; split; [reflexivity|]. split; [|discriminate].
      apply Hone, Hcl. }
  (* continued statement *)
  match goal with |- context [if ?b then Ok (itoks, st1, _) else _] =>
    destruct b eqn:Hcont end.
  { do 3 eexists; split; [reflexivity|]. split; [exact Hout0 | discriminate]. }
  do 3 eexists; split; [reflexivity|]. split; [|discriminate].
  apply Hone.
  exact (operator_token _ _ Htok Hnum Hhash Htriple Hsingle Hname).
Qed.

(** A transition from inside a line is a pass of the loop. *)
Lemma step_scan_eq (c : Config) (line : text) (pos : nat) (t : list Token)
  (c' : Config) :
  loc c = AtScan line pos -> pos < length line -> step c = Ok (t, c') ->
  exists st' ctl,
    scan line pos (locals c) = Ok (t, st', ctl)
    /\ c' = mkConfig st' (next_loc line ctl) (input c).
Proof.
  intros Hl Hpos Hstep. unfold step in Hstep. rewrite Hl in Hstep.
  apply Nat.ltb_lt in Hpos. rewrite Hpos in Hstep.
  destruct (scan line pos (locals c)) as [[[t0 st0] ctl0]| |];
    try discriminate Hstep.
  cbn [bind] in Hstep. injection Hstep as <- <-.
  exists st0, ctl0. split; reflexivity.
Qed.

Lemma classified_step (toks : list Token) (c : Config) (t : list Token)
  (c' : Config) :
  Inv c ->
  Forall classified toks
  /\ (contstr (locals c) <> [] ->
      opened (contstr (locals c)) /\ pending_quote (locals c)) ->
  loc c <> Finished -> step c = Ok (t, c') ->
  Forall classified (toks ++ t)
  /\ (contstr (locals c') <> [] ->
      opened (contstr (locals c')) /\ pending_quote (locals c')).
Proof.
  intros HI (Htoks & Hopen) Hloc Hstep.
  pose proof (step_outcome_of_step c t c' HI Hloc Hstep) as Hout.
  rewrite Forall_app.
  destruct Hout as [up Hl Hex Hc Hup | up sp Hl Hex Hc Hup Hsp
                   | line rest Hl Hin Hne Hc
                   | line rest p sp m tail Hl Hin Hne Hc Hp Hsp Hline Hm
                   | line rest l Hl Hin Hne Hc Hl'
                   | line pos t st' ctl Hl Hpos Hout
                   | line pos Hl Hpos];
    cbn [locals loc input]; simpl_locals.
  - split; [split; [assumption|] | assumption].
    apply Forall_app; split;
      [apply Forall_repeat; exact I | repeat constructor].
  - split; [split; [assumption|] | assumption].
    constructor; [right; apply (Hopen Hc)|].
    apply Forall_app; split;
      [apply Forall_repeat; exact I | repeat constructor].
  - split; [split; [assumption | constructor] | assumption].
  - split; [split; [assumption|] | intros H; contradiction H; reflexivity].
    destruct (Hopen Hc) as (Ho & pre & q & rest0 & p' & E & Hq & Hpre & Hp' & Hcl).
    rewrite Hp in Hp'. injection Hp' as <-.
    destruct (Hcl _ Hm) as (body & ->).
    constructor; [|constructor]. split.
    + apply (opened_app (contstr (locals c)) (body ++ [q])), Ho.
    + exists pre, q, (rest0 ++ body). split; [|split; assumption].
      cbn [Token.value Token.new]. rewrite E, <- !app_assoc. reflexivity.
  - split; [split; [assumption | constructor]|].
    intros _.
    destruct (Hopen Hc) as (Ho & pre & q & rest0 & p' & E & Hq & Hpre & Hp' & Hcl).
    split; [apply (opened_app (contstr (locals c)) line), Ho|].
    exists pre, q, (rest0 ++ line), p'. simpl_locals.
    split; [rewrite E, <- app_assoc; reflexivity|]. auto.
  - destruct (step_scan_eq _ _ _ _ _ Hl Hpos Hstep) as (st0 & ctl0 & Hs & E).
    destruct (inv_sentinel c HI) as (up & Hup).
    destruct (scan_classified line pos (locals c) up Hpos Hup)
      as (t1 & st1 & ctl1 & Hs1 & Hcl & Hbr).
    rewrite Hs in Hs1. injection Hs1 as <- <- <-.
    injection E as <- E.
    split; [split; assumption|].
    destruct (inv_scan c HI _ _ Hl) as [Hc _].
    destruct (scan_outcome_frame _ _ _ _ _ _ Hout Hpos Hc (inv_sentinel c HI))
      as (_ & _ & Hctl).
    destruct ctl as [pos'|].
    + destruct Hctl as [_ Hc']. intros H; contradiction.
    + destruct ctl0; [discriminate E|]. intros _. apply Hbr; reflexivity.
  - split; [split; [assumption | constructor] | assumption].
Qed.

Lemma classified_reaches (lines : list text) (off : Z) (toks : list Token)
  (c : Config) :
  reaches (initial_config lines off) toks c ->
  Forall classified toks
  /\ (contstr (locals c) <> [] ->
      opened (contstr (locals c)) /\ pending_quote (locals c)).
Proof.
  induction 1 as [|toks c t c' Hr IH Hloc Hstep].
  - split; [constructor | intros H; contradiction H; reflexivity].
  - apply (classified_step toks c t c'); auto.
    eapply reaches_Inv; [exact Hr | apply initial_config_Inv].
Qed.

(** A word character outside ASCII: on its own it is yielded as an
    [Operator], after a letter it is a part of the [Name]. *)
Example latin1_word_tokens :
  (exists toks,
      source_tokens [e_acute] 0 = Ok toks
      /\ summary toks = [(OP, [e_acute]); (NEWLINE, [nl]); (ENDMARKER, [])])
  /\ (exists toks,
        source_tokens ("a"%char :: e_acute :: str " = 1") 0 = Ok toks
        /\ summary toks
           = [(NAME, ["a"%char; e_acute]); (OP, str "="); (NUMBER, str "1");
              (NEWLINE, [nl]); (ENDMARKER, [])]).
Proof.
  split; eexists; (split; [vm_compute; reflexivity | reflexivity]).
Qed.

(** For every input, the value of a token is of the kind its type says.  A
    [Number] is a match of the [number] pattern.  An [Operator] is a match of
    the pattern of operators, brackets and separators, or a backslash with
    its line terminator, or a match of the [name] pattern whose first
    character is alphanumeric and outside ASCII (the scanner knows a name by
    an ASCII letter or underscore at its front).  A [Name] starts with an
    ASCII letter or an underscore and is a match of the [name] pattern or of
    the pattern of the one-line strings (a literal with a prefix that
    [single_quoted] does not list).  A [String] begins with an opener, a key
    of [triple_quoted] or of [single_quoted].  An [ErrorToken] is one
    character, or begins with an opener. *)
Theorem token_values_fit_their_types :
  forall (lines : list text) (line_offset : Z),
  exists toks,
    generate_tokens lines line_offset = Ok toks
    /\ forall t, In t toks ->
         (Token.type t = NUMBER -> matches number (Token.value t))
         /\ (Token.type t = OP ->
             matches funny (Token.value t)
             \/ matches backslash_nl (Token.value t)
             \/ (matches name (Token.value t)
                 /\ exists c rest,
                      Token.value t = c :: rest /\ latin1_alnum c = true))
         /\ (Token.type t = NAME ->
             (exists c rest,
                Token.value t = c :: rest /\ char_in c namechars = true)
             /\ (matches name (Token.value t)
                 \/ matches cont_str (Token.value t)))
         /\ (Token.type t = STRING ->
             exists o rest,
               Token.value t = o ++ rest
               /\ (mem o triple_quoted = true \/ mem o single_quoted = true))
         /\ (Token.type t = ERRORTOKEN ->
             (exists c, Token.value t = [c])
             \/ exists o rest,
                  Token.value t = o ++ rest
                  /\ (mem o triple_quoted = true
                      \/ mem o single_quoted = true)).
Proof.
  intros lines line_offset.
  destruct (generate_tokens_completes lines line_offset) as (toks & Hgen & Hc).
  exists toks; split; [assumption|].
  destruct (completes_reaches _ _ Hc) as (c' & Hr & _).
  destruct (classified_reaches _ _ _ _ Hr) as [Hall _].
  intros t Hin. rewrite Forall_forall in Hall. specialize (Hall t Hin).
  unfold classified in Hall.
  split; [|split; [|split; [|split]]]; intros Hty; rewrite Hty in Hall;
    try exact Hall.
  exact (proj1 Hall).
Qed.

(** ** Indents follow line ends *)

(** At a line terminator or a comment, and away from a fresh line, the
    indentation check does nothing. *)
Lemma check_indent_skip (spos : Z * Z) (start : nat) (c : ascii) (st : Locals) :
  char_in c [cr; nl; "#"%char] = true \/ new_line st = false ->
  check_indent spos start c st = Ok ([], st).
Proof.
  unfold check_indent. intros [H|H]; rewrite H; [|reflexivity].
  rewrite andb_false_r. reflexivity.
Qed.

(** At any other token the indentation check takes the fresh-line flag
    down, and it yields tokens only on a fresh line. *)
Lemma check_indent_reset (spos : Z * Z) (start : nat) (c : ascii) (st : Locals)
  (toks : list Token) (st1 : Locals) :
  check_indent spos start c st = Ok (toks, st1) ->
  (char_in c [cr; nl; "#"%char] = false -> new_line st1 = false)
  /\ (toks <> [] -> new_line st = true).
Proof.
  unfold check_indent. intros H.
  destruct (new_line st) eqn:Hnl; cbn [andb] in H.
  2: { injection H as <- <-. split; [auto | intros E; contradiction E; reflexivity]. }
  split; [|reflexivity]. intros Hc. rewrite Hc in H. cbn [negb] in H.
  unfold bind, get_or in H.
  case_hyp H; try discriminate H; injection H as <- <-; reflexivity.
Qed.

(** A pass yields at most one [Indent], as its first token, and only on a
    fresh line at depth 0. *)
Lemma scan_indent (line : text) (pos : nat) (st : Locals)
  (toks : list Token) (st' : Locals) (ctl : Ctl) :
  scan line pos st = Ok (toks, st', ctl) ->
  Forall (fun t => Token.type t <> INDENT) toks
  \/ (exists tk rest,
        toks = tk :: rest /\ Token.type tk = INDENT
        /\ Forall (fun t => Token.type t <> INDENT) rest
        /\ new_line st = true /\ paren_level st = 0%Z).
Proof.
  intros H.
  destruct (scan_inv _ _ _ _ _ _ H)
    as [(txt & -> & _) | (ws & start & c & toks1 & st1 & main & Hci & -> & Hmain)].
  { left. repeat constructor. discriminate. }
  assert (Hm : Forall (fun t => Token.type t <> INDENT) main).
  { destruct Hmain as [(_ & [-> | (ty & v & p & -> & Hi & _)])
                      | (v & btoks & p & _ & Hb & _ & ->)].
    - constructor.
    - repeat constructor. exact Hi.
    - rewrite break_loop_dedent_loop in Hb.
      destruct (dedent_loop_inv _ _ _ _ _ Hb) as (popped & _ & _ & _ & _ & -> & _).
      apply Forall_app; split;
        [apply Forall_repeat; discriminate | repeat constructor; discriminate]. }
  destruct (check_indent_reset _ _ _ _ _ _ Hci) as [_ Hfresh].
  destruct (check_indent_inv _ _ _ _ _ _ Hci)
    as (_ & [(-> & _) | (Hp & [(top & _ & _ & -> & _) | Hd])]).
  - left. exact Hm.
  - right. exists (indent_at (lnum st, Z.of_nat start)), main.
    repeat split; auto. apply Hfresh. discriminate.
  - left. apply Forall_app; split; [|exact Hm].
    destruct (dedent_loop_inv _ _ _ _ _ Hd) as (popped & _ & _ & _ & _ & -> & _).
    apply Forall_repeat; discriminate.
Qed.

Lemma text_start_not_line_end (c : ascii) :
  char_in c [cr; nl] = false -> Ascii.eqb c "#" = false ->
  char_in c [cr; nl; "#"%char] = false.
Proof.
  intros H1 H2.
  pose proof (all_ascii (fun c => implb (char_in c [cr; nl; "#"%char])
                                    (char_in c [cr; nl] || Ascii.eqb c "#"))
                eq_refl c) as H.
  cbv beta in H. rewrite H1, H2 in H.
  destruct (char_in c [cr; nl; "#"%char]); [discriminate H | reflexivity].
Qed.

Lemma number_start_not_line_end (c : ascii) (b1 b2 : bool) :
  char_in c numchars || (Ascii.eqb c "." && b1 && b2) = true ->
  char_in c [cr; nl; "#"%char] = false.
Proof.
  intros H.
  pose proof (all_ascii (fun c => implb (char_in c numchars || Ascii.eqb c ".")
                                    (negb (char_in c [cr; nl; "#"%char])))
                eq_refl c) as Hc.
  cbv beta in Hc.
  assert (E : char_in c numchars || Ascii.eqb c "." = true).
  { apply orb_true_iff in H. apply orb_true_iff.
    destruct H as [H|H]; [left; assumption|].
    apply andb_true_iff in H. destruct H as [H _].
    apply andb_true_iff in H. right; tauto. }
  rewrite E in Hc. apply negb_true_iff in Hc. exact Hc.
Qed.

(** A pass that leaves the fresh-line flag up leaves no string pending and
    the depth as it was; it has yielded a [NewLine], or nothing but an error
    token on a line that was fresh already, or nothing inside brackets. *)
Lemma scan_fresh (line : text) (pos : nat) (st : Locals)
  (toks : list Token) (st' : Locals) (ctl : Ctl) :
  scan line pos st = Ok (toks, st', ctl) ->
  new_line st' = true ->
  ctl <> Break /\ paren_level st' = paren_level st
  /\ ((exists n, toks = [n] /\ Token.type n = NEWLINE)
      \/ (Forall (fun t => Token.type t = ERRORTOKEN) toks
          /\ new_line st = true)
      \/ (toks = [] /\ paren_level st <> 0%Z)).
Proof.
  unfold scan. intros H Hnl.
  destruct (pseudoprog_match line pos) as [m|].
  2: { destruct (nth_error line pos); [|discriminate H].
       cbn [get_or bind] in H. injection H as <- <- <-.
       split; [discriminate|]. split; [reflexivity|].
       right; left. repeat split; auto. }
  destruct (span2 m) as [start e].
  destruct (nth_error line start) as [c|]; [|discriminate H].
  cbn [get_or bind] in H.
  destruct (check_indent (lnum (set_prefix (group1 m) st), Z.of_nat start)
              start c (set_prefix (group1 m) st)) as [[toks1 st1]| |] eqn:Hci;
    try discriminate H.
  cbn [bind] in H.
  destruct (check_indent_reset _ _ _ _ _ _ Hci) as [Hreset _].
  match type of H with context [if ?b then Ok (_ ++ [Token.new NUMBER _ _ _], _, _) else _] =>
    destruct b eqn:Hnum end.
  { injection H as <- <- <-.
    rewrite (Hreset (number_start_not_line_end _ _ _ Hnum)) in Hnl.
    discriminate Hnl. }
  destruct (char_in c [cr; nl]) eqn:Hnlc.
  { assert (Hskip : char_in c [cr; nl; "#"%char] = true).
    { apply char_in_In in Hnlc. destruct Hnlc as [<-|[<-|[]]]; reflexivity. }
    rewrite (check_indent_skip _ _ _ _ (or_introl Hskip)) in Hci.
    injection Hci as <- <-. simpl_locals.
    injection H as <- <- <-. simpl_locals.
    split; [discriminate|]. split; [reflexivity|].
    destruct (new_line st) eqn:Hn0; cbn [negb andb app].
    - right; left. repeat split; auto.
    - destruct (paren_level st =? 0)%Z eqn:Hp.
      + left. eexists; split; reflexivity.
      + right; right. split; [reflexivity|]. apply Z.eqb_neq; exact Hp. }
  destruct (Ascii.eqb c "#") eqn:Hhash.
  { assert (Hskip : char_in c [cr; nl; "#"%char] = true).
    { apply Ascii.eqb_eq in Hhash; subst c; reflexivity. }
    rewrite (check_indent_skip _ _ _ _ (or_introl Hskip)) in Hci.
    injection Hci as <- <-.
    destruct (endswith (slice line start e) [nl]); [discriminate H|].
    injection H as <- <- <-. simpl_locals.
    split; [discriminate|]. split; [reflexivity|].
    right; left. repeat split; auto. }
  exfalso.
  pose proof (Hreset (text_start_not_line_end _ Hnlc Hhash)) as Hfalse.
  unfold lookup_endprog, adjust_paren in H; unfold bind, get_or in H.
  case_hyp H; try discriminate H; injection H as <- <- <-; simpl_locals;
    rewrite Hfalse in Hnl; discriminate Hnl.
Qed.

Lemma after_newline_errors (toks errs : list Token) :
  after_newline toks -> Forall (fun t => Token.type t = ERRORTOKEN) errs ->
  after_newline (toks ++ errs).
Proof.
  intros (before & n & errs0 & -> & Hn & Hall) Herrs.
  exists before, n, (errs0 ++ errs). rewrite <- app_assoc.
  split; [reflexivity|]. split; [assumption|].
  apply Forall_app; split; assumption.
Qed.

(** An [Indent] of the stream extended by tokens without one is an [Indent]
    of the stream. *)
Lemma indent_before (toks t : list Token) (before : list Token) (tk : Token)
  (after : list Token) :
  toks ++ t = before ++ tk :: after -> Token.type tk = INDENT ->
  Forall (fun x => Token.type x <> INDENT) t ->
  exists a, toks = before ++ tk :: a.
Proof.
  intros E Hty Hall. apply app_eq_app in E.
  destruct E as (l & [(E1 & E2) | (E1 & E2)]).
  - destruct l as [|x l].
    + cbn [app] in E2. subst t. inversion Hall; subst. contradiction.
    + injection E2 as <- E2. exists l; exact E1.
  - rewrite E2 in Hall. apply Forall_app in Hall. destruct Hall as [_ Hall].
    inversion Hall; subst. contradiction.
Qed.

Lemma line_ends_step (toks : list Token) (c : Config) (t : list Token)
  (c' : Config) :
  Inv c -> line_ends toks c -> loc c <> Finished -> step c = Ok (t, c') ->
  line_ends (toks ++ t) c'.
Proof.
  intros HI (Hind & Hfresh & Hpend) Hloc Hstep.
  pose proof (step_outcome_of_step c t c' HI Hloc Hstep) as Hout.
  assert (Hquiet : Forall (fun x => Token.type x <> INDENT) t ->
            forall before tk after,
              toks ++ t = before ++ tk :: after -> Token.type tk = INDENT ->
              after_newline before).
  { intros Hall before tk after E Hty.
    destruct (indent_before _ _ _ _ _ E Hty Hall) as (a & Ea).
    apply (Hind _ _ _ Ea Hty). }
  destruct Hout as [up Hl Hex Hc Hup | up sp Hl Hex Hc Hup Hsp
                   | line rest Hl Hin Hne Hc
                   | line rest p sp m tail Hl Hin Hne Hc Hp Hsp Hline Hm
                   | line rest l Hl Hin Hne Hc Hl'
                   | line pos t st' ctl Hl Hpos Hout
                   | line pos Hl Hpos];
    unfold line_ends; cbn [locals loc input]; simpl_locals.
  - split; [|split; [intros E; contradiction E; reflexivity | assumption]].
    apply Hquiet. apply Forall_app; split;
      [apply Forall_repeat; discriminate | repeat constructor; discriminate].
  - split; [|split; [intros E; contradiction E; reflexivity | assumption]].
    apply Hquiet. constructor; [discriminate|]. apply Forall_app; split;
      [apply Forall_repeat; discriminate | repeat constructor; discriminate].
  - rewrite app_nil_r. split; [assumption|]. split; [|assumption].
    intros _. apply Hfresh. assumption.
  - split; [apply Hquiet; repeat constructor; discriminate|].
    split; [|intros E; contradiction E; reflexivity].
    intros _ Hnl. rewrite (Hpend Hc) in Hnl. discriminate Hnl.
  - rewrite app_nil_r. split; [assumption|]. split.
    + intros _ Hnl. rewrite (Hpend Hc) in Hnl. discriminate Hnl.
    + intros _. apply Hpend; assumption.
  - destruct (step_scan_eq _ _ _ _ _ Hl Hpos Hstep) as (st0 & ctl0 & Hs & E).
    injection E as <- E.
    assert (Ectl : ctl0 = ctl).
    { destruct ctl0, ctl; cbn [next_loc] in E; try discriminate E;
        [injection E as <-|]; reflexivity. }
    subst ctl0. clear E.
    destruct (inv_scan c HI _ _ Hl) as [Hc _].
    split; [|split].
    + intros before tk after E Hty.
      destruct (scan_indent _ _ _ _ _ _ Hs)
        as [Hall | (ti & rest & -> & Hti & Hrest & Hnl & Hp)].
      * apply (Hquiet Hall _ _ _ E Hty).
      * apply app_eq_app in E.
        destruct E as (l & [(E1 & E2) | (E1 & E2)]).
        -- destruct l as [|x l].
           ++ rewrite app_nil_r in E1. subst before. apply Hfresh; assumption.
           ++ injection E2 as <- E2. apply (Hind _ _ _ E1 Hty).
        -- destruct l as [|x l].
           ++ rewrite app_nil_r in E1. subst before. apply Hfresh; assumption.
           ++ injection E2 as <- E2. rewrite E2 in Hrest.
              apply Forall_app in Hrest. destruct Hrest as [_ Hrest].
              inversion Hrest; subst. contradiction.
    + intros _ Hnl Hp.
      destruct (scan_fresh _ _ _ _ _ _ Hs Hnl)
        as (_ & Hsame & [(n & -> & Hn) | [(Herr & Hnl0) | (_ & Hp0)]]).
      * exists toks, n, []. split; [reflexivity|]. split; [assumption|constructor].
      * apply after_newline_errors; [|assumption].
        apply Hfresh; [assumption | assumption | congruence].
      * contradiction Hp0. congruence.
    + intros Hc'.
      destruct (new_line st') eqn:Hnl; [|reflexivity].
      destruct (scan_fresh _ _ _ _ _ _ Hs Hnl) as (Hnb & _).
      destruct (scan_outcome_frame _ _ _ _ _ _ Hout Hpos Hc (inv_sentinel c HI))
        as (_ & _ & Hctl).
      destruct ctl as [pos'|]; [|contradiction Hnb; reflexivity].
      destruct Hctl as [_ E0]. contradiction.
  - rewrite app_nil_r. split; [assumption|]. split; [|assumption].
    intros _. apply Hfresh. rewrite Hl; discriminate.
Qed.

Lemma line_ends_reaches (lines : list text) (off : Z) (toks : list Token)
  (c : Config) :
  reaches (initial_config lines off) toks c -> line_ends toks c.
Proof.
  induction 1 as [|toks c t c' Hr IH Hloc Hstep].
  - split; [|split].
    + intros before tk after E. destruct before; discriminate E.
    + intros _ Hnl. discriminate Hnl.
    + intros E. contradiction E. reflexivity.
  - apply (line_ends_step toks c t c'); auto.
    eapply reaches_Inv; [exact Hr | apply initial_config_Inv].
Qed.

(** For every input, every [Indent] follows a line end: the token before it,
    error tokens aside, is a [NewLine].  So no [Indent] comes first, inside a
    line, or inside brackets. *)
Theorem indents_follow_newlines :
  forall (lines : list text) (line_offset : Z),
  exists toks,
    generate_tokens lines line_offset = Ok toks
    /\ forall before tk after,
         toks = before ++ tk :: after -> Token.type tk = INDENT ->
         exists b n errs,
           before = b ++ n :: errs
           /\ Token.type n = NEWLINE
           /\ Forall (fun t => Token.type t = ERRORTOKEN) errs.
Proof.
  intros lines line_offset.
  destruct (generate_tokens_completes lines line_offset) as (toks & Hgen & Hc).
  exists toks; split; [assumption|].
  destruct (completes_reaches _ _ Hc) as (c' & Hr & _).
  destruct (line_ends_reaches _ _ _ _ Hr) as (Hind & _).
  exact Hind.
Qed.

(** ** Line by line *)






(** ** The order of the start positions *)

Lemma pos_lt_trans (a b c : Z * Z) : pos_lt a b -> pos_lt b c -> pos_lt a c.
Proof. unfold pos_lt; destruct a, b, c; cbn [fst snd]; lia. Qed.

Lemma pos_lt_le_trans (a b c : Z * Z) : pos_lt a b -> pos_le b c -> pos_lt a c.
Proof. intros H [<-|H']; [assumption | eapply pos_lt_trans; eassumption]. Qed.

Lemma pos_le_lt_trans (a b c : Z * Z) : pos_le a b -> pos_lt b c -> pos_lt a c.
Proof. intros [->|H] H'; [assumption | eapply pos_lt_trans; eassumption]. Qed.

Lemma text_positions_app (a b : list Token) :
  text_positions (a ++ b) = text_positions a ++ text_positions b.
Proof. unfold text_positions. rewrite filter_app, map_app. reflexivity. Qed.

Lemma text_positions_structural (toks : list Token) :
  Forall (fun t => structural t = true) toks -> text_positions toks = [].
Proof.
  induction 1 as [|t toks Ht Htoks IH]; [reflexivity|].
  unfold text_positions in *. cbn [filter]. rewrite Ht. exact IH.
Qed.

(** The tokens with a text of a pass: at most one, at or after the position
    of the scanner and before the position the scanner moves to. *)
Lemma token_outcome_cursor line start c tok rest st main st' ctl :
  token_outcome line start c tok rest st main st' ctl ->
  (text_positions main = []
   \/ text_positions main = [(lnum st, Z.of_nat start)])
  /\ (ctl = Break -> text_positions main = []).
Proof.
  intros H; destruct H;
    try solve [split; [right; reflexivity | discriminate]];
    try solve [split; [left; reflexivity | reflexivity]].
  rewrite text_positions_app,
    (text_positions_structural _ (structural_repeat_dedent _ _)).
  split; [right; reflexivity | discriminate].
Qed.

Lemma scan_outcome_cursor line pos st toks st' ctl :
  scan_outcome line pos st toks st' ctl ->
  pos < length line -> contstr st = [] ->
  (exists up, indents st = up ++ [0]) ->
  (text_positions toks = []
   \/ exists start,
        text_positions toks = [(lnum st, Z.of_nat start)]
        /\ pos <= start
        /\ forall pos', ctl = Again pos' -> start < pos')
  /\ (forall pos', ctl = Again pos' -> pos < pos')
  /\ (ctl = Break ->
      text_positions toks = []
      /\ exists start,
           pos <= start /\ contstr st' <> []
           /\ contstr_start st' = Some (lnum st, Z.of_nat start)).
Proof.
  intros H Hpos Hc Hsent.
  pose proof (scan_outcome_frame _ _ _ _ _ _ H Hpos Hc Hsent)
    as (_ & _ & Hframe).
  destruct H as [ch Hnth | ws ch tok rest i n up0 up1 b main st' ctl
                           Hs Hws Hup0 Hcnt Hn0 Hb Hout].
  - split; [|split; [|discriminate]].
    + right. exists pos. split; [reflexivity|]. split; [lia|].
      intros pos' [= <-]. lia.
    + intros pos' [= <-]. lia.
  - pose proof (token_outcome_cursor _ _ _ _ _ _ _ _ _ Hout) as [Hmain Hbr].
    pose proof (token_outcome_frame _ _ _ _ _ _ _ _ _ up1 Hout eq_refl Hc)
      as (_ & _ & _ & Hctl).
    assert (E : text_positions
                  (repeat (indent_at (lnum st, Z.of_nat (pos + length ws))) i
                   ++ repeat (dedent_at (lnum st, Z.of_nat (pos + length ws))) n
                   ++ main)
                = text_positions main).
    { rewrite !text_positions_app,
        (text_positions_structural _ (structural_repeat_indent _ _)),
        (text_positions_structural _ (structural_repeat_dedent _ _)).
      reflexivity. }
    rewrite E. simpl_locals.
    split; [|split].
    + destruct Hmain as [Hmain|Hmain]; [left; assumption|].
      right. exists (pos + length ws). split; [assumption|]. split; [lia|].
      intros pos' ->. destruct Hctl as [Hlt _]. lia.
    + intros pos' ->. destruct Hframe as [Hlt _]. lia.
    + intros ->. split; [apply Hbr; reflexivity|].
      destruct Hctl as (Hcs & _ & _ & Hst).
      exists (pos + length ws). split; [lia|].
      split; [rewrite Hcs; discriminate | assumption].
Qed.

Lemma cursor_pending (c : Config) (sp : Z * Z) :
  loc c = AtReadline -> contstr (locals c) <> [] ->
  contstr_start (locals c) = Some sp -> cursor c = sp.
Proof.
  unfold cursor; intros -> Hc ->.
  destruct (contstr (locals c)); [contradiction | reflexivity].
Qed.

Lemma cursor_idle (c : Config) :
  loc c = AtReadline -> contstr (locals c) = [] ->
  cursor c = ((lnum (locals c) + 1)%Z, 0%Z).
Proof. unfold cursor; intros -> ->; reflexivity. Qed.

(** The start of a pending string is on a line that was read. *)
Lemma reading_pending (lines : list text) (off : Z) (c : Config) (sp : Z * Z) :
  reading lines off c -> contstr (locals c) <> [] ->
  contstr_start (locals c) = Some sp ->
  (fst sp <= lnum (locals c))%Z.
Proof.
  intros (consumed & _ & _ & Hlnum & _ & Hpend) Hc Hsp.
  destruct (Hpend Hc) as (pre & l & later & col & a & E & _ & _ & Hst & _).
  rewrite Hsp in Hst. injection Hst as ->. cbn [fst].
  subst consumed. rewrite length_app in Hlnum. cbn [length] in Hlnum. lia.
Qed.

(** One transition yields at most one token with a text, at or after the
    cursor, and moves the cursor past it. *)
Lemma step_outcome_cursor (lines : list text) (off : Z) (c : Config)
  (t : list Token) (c' : Config) :
  Inv c -> reading lines off c -> step_outcome c t c' ->
  pos_le (cursor c) (cursor c')
  /\ (text_positions t = []
      \/ exists p, text_positions t = [p]
                   /\ pos_le (cursor c) p /\ pos_lt p (cursor c')).
Proof.
  intros HI Hrd Hstep.
  assert (Hclose : forall sp,
            text_positions
              (repeat (dedent_at sp) (length (indents (locals c)) - 1)
               ++ [Token.new ENDMARKER [] sp (prefix (locals c))]) = []).
  { intros sp. rewrite text_positions_app,
      (text_positions_structural _ (structural_repeat_dedent _ _)).
    reflexivity. }
  destruct Hstep as [up Hl Hex Hc Hup | up sp Hl Hex Hc Hup Hsp
                    | line rest Hl Hin Hne Hc
                    | line rest p sp m tail Hl Hin Hne Hc Hp Hsp Hline Hm
                    | line rest l Hl Hin Hne Hc Hl'
                    | line pos t st' ctl Hl Hpos Hout
                    | line pos Hl Hpos].
  - rewrite (cursor_idle _ Hl Hc). unfold cursor; cbn [loc locals].
    split; [left; reflexivity|]. left.
    rewrite text_positions_app,
      (text_positions_structural _ (structural_repeat_dedent _ _)).
    reflexivity.
  - pose proof (reading_pending _ _ _ _ Hrd Hc Hsp) as Hle.
    rewrite (cursor_pending _ _ Hl Hc Hsp). unfold cursor; cbn [loc locals].
    assert (Hlt : pos_lt sp ((lnum (locals c) + 1)%Z, 0%Z)).
    { left; cbn [fst]; lia. }
    split; [right; exact Hlt|]. right. exists sp.
    split; [|split; [left; reflexivity | exact Hlt]].
    cbn [app]. unfold text_positions. cbn [filter structural Token.type
      Token.new negb map]. fold (text_positions
      (repeat (dedent_at (lnum (locals c), 0%Z)) (length up)
       ++ [Token.new ENDMARKER [] (lnum (locals c), 0%Z) (prefix (locals c))])).
    rewrite text_positions_app,
      (text_positions_structural _ (structural_repeat_dedent _ _)).
    destruct sp; reflexivity.
  - rewrite (cursor_idle _ Hl Hc). unfold cursor; cbn [loc locals]; simpl_locals.
    split; [left; reflexivity | left; reflexivity].
  - pose proof (reading_pending _ _ _ _ Hrd Hc Hsp) as Hle.
    rewrite (cursor_pending _ _ Hl Hc Hsp). unfold cursor; cbn [loc locals];
      simpl_locals.
    assert (Hlt : pos_lt sp ((lnum (locals c) + 1)%Z, Z.of_nat (length m))).
    { left; cbn [fst]; lia. }
    split; [right; exact Hlt|]. right. exists sp.
    split; [destruct sp; reflexivity|].
    split; [left; reflexivity | exact Hlt].
  - destruct (inv_cont c HI Hc) as (_ & _ & sp & Hsp).
    rewrite (cursor_pending _ _ Hl Hc Hsp).
    rewrite (cursor_pending _ sp); cbn [loc locals]; simpl_locals;
      [ | reflexivity
        | intros E; apply app_eq_nil in E; destruct E; contradiction
        | assumption ].
    split; [left; reflexivity | left; reflexivity].
  - destruct (inv_scan c HI _ _ Hl) as [Hc Hle].
    destruct (scan_outcome_frame _ _ _ _ _ _ Hout Hpos Hc (inv_sentinel c HI))
      as (_ & Hlnum & _).
    destruct (scan_outcome_cursor _ _ _ _ _ _ Hout Hpos Hc (inv_sentinel c HI))
      as (Htext & Hadv & Hbr).
    assert (Hcur : cursor c = (lnum (locals c), Z.of_nat pos)).
    { unfold cursor; rewrite Hl; reflexivity. }
    rewrite Hcur.
    destruct ctl as [pos'|]; cbn [next_loc].
    + assert (Hcur' : cursor (mkConfig st' (AtScan line pos') (input c))
                      = (lnum (locals c), Z.of_nat pos')).
      { unfold cursor; cbn [loc locals]. rewrite Hlnum; reflexivity. }
      rewrite Hcur'. specialize (Hadv pos' eq_refl).
      split; [right; right; cbn [fst snd]; split; [reflexivity | lia]|].
      destruct Htext as [Htext | (start & Htext & Hge & Hlt)];
        [left; assumption|].
      right. eexists; split; [exact Htext|]. specialize (Hlt pos' eq_refl).
      split.
      * destruct (Nat.eq_dec pos start) as [->|Hne];
          [left; reflexivity | right; right; cbn [fst snd]; split; [reflexivity | lia]].
      * right; cbn [fst snd]; split; [reflexivity | lia].
    + destruct (Hbr eq_refl) as (Htext' & start & Hge & Hne & Hsp).
      rewrite (cursor_pending _ (lnum (locals c), Z.of_nat start));
        [ | reflexivity | exact Hne | exact Hsp ].
      split; [|left; assumption].
      destruct (Nat.eq_dec pos start) as [->|Hneq];
        [left; reflexivity | right; right; cbn [fst snd]; split; [reflexivity | lia]].
  - destruct (inv_scan c HI _ _ Hl) as [Hc Hle].
    rewrite (cursor_idle (mkConfig (locals c) AtReadline (input c)))
      by (cbn [loc locals]; auto).
    unfold cursor; rewrite Hl. cbn [locals].
    split; [right; left; cbn [fst]; lia | left; reflexivity].
Qed.

Lemma sorted_snoc_lt (l : list (Z * Z)) (p : Z * Z) :
  StronglySorted pos_lt l -> Forall (fun q => pos_lt q p) l ->
  StronglySorted pos_lt (l ++ [p]).
Proof.
  induction 1 as [|x l Hl IH Hx]; intros Hall; cbn [app].
  - repeat constructor.
  - inversion Hall as [|? ? Hxp Hall']; subst.
    constructor; [apply IH; assumption|].
    apply Forall_app; split; [assumption|].
    apply Forall_cons; [assumption | apply Forall_nil].
Qed.

Lemma positions_invariant (lines : list text) (off : Z)
  (toks : list Token) (c : Config) :
  reaches (initial_config lines off) toks c ->
  reading lines off c
  /\ StronglySorted pos_lt (text_positions toks)
  /\ Forall (fun p => pos_lt p (cursor c)) (text_positions toks).
Proof.
  intros Hr.
  refine (reaches_invariant
            (fun toks c =>
               reading lines off c
               /\ StronglySorted pos_lt (text_positions toks)
               /\ Forall (fun p => pos_lt p (cursor c)) (text_positions toks))
            (initial_config lines off) (initial_config_Inv _ _) _ _ toks c Hr).
  { split; [apply reading_initial | split; constructor]. }
  clear toks c Hr. intros toks c t c' HI (Hrd & Hsorted & Hall) Hstep.
  destruct (step_outcome_cursor _ _ _ _ _ HI Hrd Hstep) as (Hmono & Ht).
  split; [exact (reading_step _ _ _ _ _ HI Hrd Hstep)|].
  assert (Hall' : Forall (fun p => pos_lt p (cursor c')) (text_positions toks)).
  { eapply Forall_impl; [|exact Hall].
    intros q Hq. exact (pos_lt_le_trans _ _ _ Hq Hmono). }
  rewrite text_positions_app.
  destruct Ht as [-> | (p & -> & Hge & Hlt)].
  - rewrite app_nil_r. split; assumption.
  - split.
    + apply sorted_snoc_lt; [assumption|].
      eapply Forall_impl; [|exact Hall].
      intros q Hq. exact (pos_lt_le_trans _ _ _ Hq Hge).
    + apply Forall_app; split; [assumption|].
      apply Forall_cons; [assumption | apply Forall_nil].
Qed.

(** For every input, the tokens with a text (all but [Indent], [Dedent] and
    [EndMarker]) come in the order of their start positions, strictly: each
    starts on a later line than the one before it, or on the same line at a
    greater column. *)
Theorem text_tokens_strictly_ordered :
  forall (lines : list text) (line_offset : Z),
  exists toks,
    generate_tokens lines line_offset = Ok toks
    /\ StronglySorted
         (fun a b =>
            (fst a < fst b)%Z \/ (fst a = fst b /\ (snd a < snd b)%Z))
         (map Token.start_pos (filter (fun t => negb (structural t)) toks)).
Proof.
  intros lines line_offset.
  destruct (generate_tokens_completes lines line_offset) as (toks & Hgen & Hc).
  exists toks; split; [assumption|].
  destruct (completes_reaches _ _ Hc) as (c' & Hr & _).
  destruct (positions_invariant _ _ _ _ Hr) as (_ & Hsorted & _).
  exact Hsorted.
Qed.

(** ** Strings close as they opened *)

(** For every input, every [String] token is a closed literal: its value
    opens with a quote, after letters at most, and its last character is the
    same quote.  This holds for the strings of one line, for the
    triple-quoted ones, and for a string continued over lines, which is
    closed by the pattern looked up when it opened. *)
Theorem strings_close_as_opened :
  forall (lines : list text) (line_offset : Z),
  exists toks,
    generate_tokens lines line_offset = Ok toks
    /\ forall t, In t toks -> Token.type t = STRING ->
         exists pre q mid,
           Token.value t = pre ++ q :: mid ++ [q]
           /\ (q = squote \/ q = dquote)
           /\ Forall (fun x => x <> squote /\ x <> dquote) pre.
Proof.
  intros lines line_offset.
  destruct (generate_tokens_completes lines line_offset) as (toks & Hgen & Hc).
  exists toks; split; [assumption|].
  destruct (completes_reaches _ _ Hc) as (c' & Hr & _).
  destruct (classified_reaches _ _ _ _ Hr) as [Hall _].
  intros t Hin Hty. rewrite Forall_forall in Hall. specialize (Hall t Hin).
  unfold classified in Hall. rewrite Hty in Hall.
  destruct Hall as (_ & pre & q & mid & E & Hq & Hpre).
  exists pre, q, mid. split; [exact E|]. split.
  - apply char_in_In in Hq. destruct Hq as [<-|[<-|[]]]; auto.
  - eapply Forall_impl; [|exact Hpre].
    intros x Hx. cbv beta in Hx. split; intros ->; discriminate Hx.
Qed.
